(** * Stochastic 0L-system inference: derivation enumeration and scoring

    A shallow embedding of [derivations.py], [utils.py], [solver_q1.py] and
    [solver_q2.py], with the properties of the enumeration, of the
    single-derivation selector, of the optimization problem and of the
    multi-start wrapper.

    Conventions of the embedding.
    - A Python [str] is a [list ascii]; a one-character string such as
      [s[char_index]] is an [ascii].
    - A Python [int] is a [Z]; indexing and slicing follow Python's rules
      for negative and out-of-range indices.
    - A [dict] is a [gmap]: Python compares dictionaries by their
      key/value pairs, which is equality of [gmap]s.  Every loop over a
      dictionary in the sources computes a value that does not depend on
      the iteration order, and is written with [map_fold].
    - A Python [float] is given twice.  In the functions as they are first
      written it is an exact rational [Qc], and an [int] used as a [float]
      is [Qc_of_Z] of it; these carry the properties that rounding does not
      touch: which derivation is selected, which keys a dictionary has,
      which exception is raised, which expression an entry is the value
      of.  Module [Binary64] writes the functions of [utils.py] and
      [solver_q1.py] that compute with [float] again, with IEEE 754
      doubles, their rounding, their underflow and Python's
      [OverflowError]; what is said of the numbers these functions return
      is said there.
    - Raised exceptions are values of [pyres]; [None] of the outer
      [option] is exhaustion of the recursion fuel.  The search takes the
      number of nested calls it may make, and [get_derivations] gives it
      [dfs_fuel seq], as many as it needs; the interpreter's own limit,
      beyond which Python raises [RecursionError], is not modelled.
    - [scipy.optimize.minimize] and [np.random.random] are parameters of
      the functions that call them; the optimizer may raise. *)

From Stdlib Require Import ZArith Ascii String QArith Qcanon Lia.
From Stdlib Require Floats.

From stdpp Require Import base option list gmap strings numbers sorting.

Local Open Scope Z_scope.

(** * The program *)

(** ** Python values and exceptions *)

Inductive pyexn : Type :=
  | IndexError
  | ValueError
  | KeyError
  | ZeroDivisionError
  | OverflowError.

Definition exn_name (e : pyexn) : string :=
  match e with
  | IndexError => "IndexError"
  | ValueError => "ValueError"
  | KeyError => "KeyError"
  | ZeroDivisionError => "ZeroDivisionError"
  | OverflowError => "OverflowError"
  end.

Inductive pyres (A : Type) : Type :=
  | Ok (a : A)
  | Raise (e : pyexn).
Arguments Ok {A} a.
Arguments Raise {A} e.

(** Computations that may raise, indexed by fuel. *)
Definition py (A : Type) : Type := option (pyres A).

Definition ret {A} (a : A) : py A := Some (Ok a).

Definition raise {A} (e : pyexn) : py A := Some (Raise e).

Definition bind {A B} (c : py A) (k : A → py B) : py B :=
  match c with
  | None => None
  | Some (Raise e) => Some (Raise e)
  | Some (Ok a) => k a
  end.

Notation "'let*' x ':=' c 'in' k" := (bind c (λ x, k))
  (at level 10, x pattern, c at level 200, k at level 200).

(** [for x in xs: body] over a threaded state. *)
Fixpoint for_each {S X} (xs : list X) (body : X → S → py S) (st : S) : py S :=
  match xs with
  | [] => ret st
  | x :: xs' => let* st' := body x st in for_each xs' body st'
  end.

(** [acc = e; for k in m: acc = op acc (w k m[k])] *)
Definition map_sum {B : Type} (op : B → B → B) (e : B) `{Countable K} {A : Type}
    (w : K → A → B) (m : gmap K A) : B :=
  map_fold (λ k a acc, op acc (w k a)) e m.

Abbreviation pystr := (list ascii).

Definition str (s : string) : pystr := list_ascii_of_string s.

Definition py_len {A} (l : list A) : Z := Z.of_nat (length l).

(** [l[i]], with Python's negative indices. *)
Definition py_get {A} (l : list A) (i : Z) : option A :=
  if 0 <=? i then l !! Z.to_nat i
  else if 0 <=? i + py_len l then l !! Z.to_nat (i + py_len l)
  else None.

(** A slice bound brought into [0, len]. *)
Definition py_bound {A} (l : list A) (i : Z) : Z :=
  if i <? 0 then Z.max 0 (i + py_len l) else Z.min i (py_len l).

(** [l[a:b]] *)
Definition py_slice {A} (l : list A) (a b : Z) : list A :=
  let lo := py_bound l a in
  let hi := py_bound l b in
  take (Z.to_nat (hi - lo)) (drop (Z.to_nat lo) l).

(** [l[a:]] *)
Definition py_slice_from {A} (l : list A) (a : Z) : list A :=
  drop (Z.to_nat (py_bound l a)) l.

(** [range(a, b)] *)
Definition py_range (a b : Z) : list Z :=
  (λ k : nat, a + Z.of_nat k) <$> seq 0 (Z.to_nat (b - a)).

(** ** derivations.py *)

Abbreviation position := (Z * Z)%type.

Abbreviation production := (ascii * list ascii)%type.

Abbreviation derivation := (gmap (Z * Z) (ascii * list ascii)).

(** The two mutable objects the search shares among all its calls:
    [current_mapping] and [all_mappings]. *)
Abbreviation dfs_state := (derivation * list derivation)%type.

Fixpoint _dfs_all_derivations (fuel : nat) (seq : list pystr)
    (string_index char_index last_used_in_t : Z) (st : dfs_state) : py dfs_state :=
  match fuel with
  | O => None
  | S fuel' =>
    let '(current_mapping, all_mappings) := st in
    if string_index =? py_len seq - 1 then
      ret (current_mapping, all_mappings ++ [current_mapping])
    else
      match py_get seq string_index with
      | None => raise IndexError
      | Some s =>
        if char_index =? py_len s then
          _dfs_all_derivations fuel' seq (string_index + 1) 0 (-1) st
        else
          match py_get seq (string_index + 1) with
          | None => raise IndexError
          | Some t =>
            if char_index =? py_len s - 1 then
              match py_get s char_index with
              | None => raise IndexError
              | Some c =>
                _dfs_all_derivations fuel' seq string_index (char_index + 1)
                  (py_len s - 1)
                  (<[(string_index, char_index) :=
                       (c, py_slice_from t (last_used_in_t + 1))]> current_mapping,
                   all_mappings)
              end
            else
              for_each (py_range (last_used_in_t + 1) (py_len t - 1))
                (λ right_index '(current_mapping, all_mappings),
                   match py_get s char_index with
                   | None => raise IndexError
                   | Some c =>
                     _dfs_all_derivations fuel' seq string_index (char_index + 1)
                       right_index
                       (<[(string_index, char_index) :=
                            (c, py_slice t (last_used_in_t + 1) (right_index + 1))]>
                          current_mapping,
                        all_mappings)
                   end)
                st
          end
      end
  end.

(** Recursion depth that the search needs on [seq]: one call per character
    of a string, one per string, one for the base case. *)
Definition dfs_fuel (seq : list pystr) : nat :=
  S (sum_list ((λ s, S (length s)) <$> seq)).

Definition get_derivations (seq : list pystr) : py (list derivation) :=
  let* (_, derivation_list) :=
    _dfs_all_derivations (dfs_fuel seq) seq 0 0 (-1) (∅, []) in
  ret derivation_list.

(** ** utils.py *)

(** [d[k] = d.get(k, 0) + 1] *)
Definition incr `{Countable K} (k : K) (d : gmap K Z) : gmap K Z :=
  <[k := default 0 (d !! k) + 1]> d.

(** [∏ count ** count] over the values of a dictionary of counts.  The
    counts the program stores are positive, where [**] on [int] is [Z.pow]. *)
Definition pow_product `{Countable K} (d : gmap K Z) : Z :=
  map_fold (λ _ a factor, factor * a ^ a) 1 d.

Definition count_chars (strings : list pystr) : gmap ascii Z :=
  foldl (λ seq_char_count s, foldl (λ acc c, incr c acc) seq_char_count s) ∅ strings.

Definition constant_factor (seq : list pystr) : py (Qc * gmap ascii Z) :=
  let seq_char_count := count_chars (py_slice seq 0 (-1)) in
  let const_factor := pow_product seq_char_count in
  if const_factor =? 0 then raise ZeroDivisionError
  else ret ((1 / Qc_of_Z const_factor)%Qc, seq_char_count).

Definition get_prod_count (derivation : derivation) : gmap production Z :=
  map_fold (λ _ production production_count, incr production production_count)
    ∅ derivation.

Definition non_constant_factor (derivation : derivation) : Z :=
  let prod_count := get_prod_count derivation in
  pow_product prod_count.

Definition optimal_scaled_probability_val (seq : list pystr) (derivation : derivation) : Z :=
  non_constant_factor derivation.

(** ** solver_q1.py *)

(** [max(l)] on a list of [int]. *)
Definition py_max (l : list Z) : py Z :=
  match l with
  | [] => raise ValueError
  | x :: l' => ret (foldl Z.max x l')
  end.

(** [l.index(x)] *)
Fixpoint py_index (l : list Z) (x : Z) : py Z :=
  match l with
  | [] => raise ValueError
  | y :: l' => if y =? x then ret 0 else let* i := py_index l' x in ret (i + 1)
  end.

Definition py_item {A} (l : list A) (i : Z) : py A :=
  match py_get l i with
  | Some a => ret a
  | None => raise IndexError
  end.

Abbreviation distribution := (gmap (ascii * list ascii) Qc).

(** The loop that fills [best_derv_distribution]. *)
Definition build_distribution (production_count : gmap production Z)
    (seq_char_count : gmap ascii Z) : py distribution :=
  map_fold (λ prod freq acc,
      let* best_derv_distribution := acc in
      let char := prod.1 in
      match seq_char_count !! char with
      | None => raise KeyError
      | Some char_count =>
        if char_count =? 0 then raise ZeroDivisionError
        else ret (<[prod := (Qc_of_Z freq / Qc_of_Z char_count)%Qc]> best_derv_distribution)
      end)
    (ret ∅) production_count.

Definition overall_dervs_maxprob (seq : list pystr)
    : py (distribution * derivation * Qc) :=
  let* derivation_list := get_derivations seq in
  let scaled_probs := optimal_scaled_probability_val seq <$> derivation_list in
  let* max_prob := py_max scaled_probs in
  let* max_index := py_index scaled_probs max_prob in
  let* best_derivation := py_item derivation_list max_index in
  let production_count := get_prod_count best_derivation in
  let* (const_factor, seq_char_count) := constant_factor seq in
  let* best_derv_distribution := build_distribution production_count seq_char_count in
  let final_probability := (Qc_of_Z max_prob * const_factor)%Qc in
  ret (best_derv_distribution, best_derivation, final_probability).

(** ** utils.py and solver_q1.py in binary64

    The functions of [utils.py] and [solver_q1.py] that compute with
    [float], with a [float] as an IEEE 754 binary64 number and Python's own
    conversions: [int / int] is the quotient rounded once to the nearest
    double, to even on a tie, and [int * float] converts the [int] first;
    both raise [OverflowError] on a result beyond the doubles.  The
    functions that compute with [int] only are those above. *)

Module Binary64.

Abbreviation float := PrimFloat.float.

(** A rounded result, as Python hands it on. *)
Definition finite_or_overflow (x : SpecFloat.spec_float) : py float :=
  match x with
  | SpecFloat.S754_infinity _ => raise OverflowError
  | _ => ret (FloatOps.SF2Prim x)
  end.

(** [float(n)] for an [int] *)
Definition int_to_float (n : Z) : py float :=
  finite_or_overflow
    (SpecFloat.binary_normalize FloatOps.prec FloatOps.emax n 0 false).

(** [a / b] for two [int] *)
Definition int_truediv (a b : Z) : py float :=
  if b =? 0 then raise ZeroDivisionError
  else
    match a with
    | Z0 => ret (FloatOps.SF2Prim (SpecFloat.S754_zero (b <? 0)))
    | _ =>
      finite_or_overflow
        (SpecFloat.SFdiv FloatOps.prec FloatOps.emax
           (SpecFloat.S754_finite (a <? 0) (Z.to_pos (Z.abs a)) 0)
           (SpecFloat.S754_finite (b <? 0) (Z.to_pos (Z.abs b)) 0))
    end.

(** [n * x] for an [int] and a [float] *)
Definition int_mul_float (n : Z) (x : float) : py float :=
  let* n_float := int_to_float n in
  ret (PrimFloat.mul n_float x).

Definition constant_factor (seq : list pystr) : py (float * gmap ascii Z) :=
  let seq_char_count := count_chars (py_slice seq 0 (-1)) in
  let const_factor := pow_product seq_char_count in
  let* reciprocal := int_truediv 1 const_factor in
  ret (reciprocal, seq_char_count).

Abbreviation distribution := (gmap (ascii * list ascii) PrimFloat.float).

(** The loop that fills [best_derv_distribution]. *)
Definition build_distribution (production_count : gmap production Z)
    (seq_char_count : gmap ascii Z) : py distribution :=
  map_fold (λ prod freq acc,
      let* best_derv_distribution := acc in
      let char := prod.1 in
      match seq_char_count !! char with
      | None => raise KeyError
      | Some char_count =>
        let* probability := int_truediv freq char_count in
        ret (<[prod := probability]> best_derv_distribution)
      end)
    (ret ∅) production_count.

Definition overall_dervs_maxprob (seq : list pystr)
    : py (distribution * derivation * float) :=
  let* derivation_list := get_derivations seq in
  let scaled_probs := optimal_scaled_probability_val seq <$> derivation_list in
  let* max_prob := py_max scaled_probs in
  let* max_index := py_index scaled_probs max_prob in
  let* best_derivation := py_item derivation_list max_index in
  let production_count := get_prod_count best_derivation in
  let* (const_factor, seq_char_count) := constant_factor seq in
  let* best_derv_distribution := build_distribution production_count seq_char_count in
  let* final_probability := int_mul_float max_prob const_factor in
  ret (best_derv_distribution, best_derivation, final_probability).

End Binary64.

(** ** solver_q2.py *)

(** Order of [sorted] on characters, strings and pairs of them. *)
Definition ascii_ltb (a b : ascii) : bool := (N_of_ascii a <? N_of_ascii b)%N.

Fixpoint pystr_leb (s t : pystr) : bool :=
  match s, t with
  | [], _ => true
  | _ :: _, [] => false
  | a :: s', b :: t' =>
    if ascii_ltb a b then true
    else if ascii_ltb b a then false
    else pystr_leb s' t'
  end.

Definition production_leb (p q : production) : bool :=
  if ascii_ltb p.1 q.1 then true
  else if ascii_ltb q.1 p.1 then false
  else pystr_leb p.2 q.2.

Definition sorted_productions (all_pairs : gset production) : list production :=
  merge_sort (λ p q, Is_true (production_leb p q)) (elements all_pairs).

Definition sorted_chars (chars : gset ascii) : list ascii :=
  merge_sort (λ a b, Is_true (negb (ascii_ltb b a))) (elements chars).

(** [Counter(derivation_dict.values())] *)
Definition Counter (derivation_dict : derivation) : gmap production Z :=
  map_fold (λ _ value fm, incr value fm) ∅ derivation_dict.

(** The loop that fills [freq_list] and [all_pairs]. *)
Definition frequency_maps (dict_list : list derivation)
    : list (gmap production Z) * gset production :=
  foldl (λ '(freq_list, all_pairs) derivation_dict,
           let fm := Counter derivation_dict in
           (freq_list ++ [fm], all_pairs ∪ dom fm))
    ([], ∅) dict_list.

(** [[i for i, pair in enumerate(pairs_list) if pair[0] == char]] *)
Definition indices_for_char (pairs_list : list production) (char : ascii) : list nat :=
  (filter (λ ip : nat * production, ip.2.1 = char) (imap pair pairs_list)).*1.

(** [arr[i]] for an index in range. *)
Definition arr_get (arr : list Qc) (i : nat) : Qc := default 0%Qc (arr !! i).

(** [arr[indices].sum()] *)
Definition arr_sum (arr : list Qc) (indices : list nat) : Qc :=
  foldl (λ acc i, (acc + arr_get arr i)%Qc) 0%Qc indices.

(** [k = len(indices); for idx in indices: guess_arr[idx] = 1.0 / k] *)
Definition set_uniform (guess_arr : list Qc) (indices : list nat) : list Qc :=
  let k := py_len indices in
  foldl (λ arr idx, <[idx := (1 / Qc_of_Z k)%Qc]> arr) guess_arr indices.

(** [guess_arr[indices] /= sum_for_char]: the quotients are taken of the
    entries as they are before the statement. *)
Definition divide_at (guess_arr : list Qc) (indices : list nat) (sum_for_char : Qc)
    : list Qc :=
  foldl (λ arr idx, <[idx := (arr_get guess_arr idx / sum_for_char)%Qc]> arr)
    guess_arr indices.

Definition Qc_ltb (a b : Qc) : bool := negb (Qle_bool b a).

(** [1e-12] *)
Definition tolerance : Qc := Q2Qc (1 # 1000000000000).

(** The default guess: uniform within each symbol. *)
Definition uniform_guess (pairs_list : list production) (unique_chars : list ascii)
    : list Qc :=
  foldl (λ guess_arr char, set_uniform guess_arr (indices_for_char pairs_list char))
    (replicate (length pairs_list) 1%Qc) unique_chars.

(** The loop that renormalizes a user-supplied guess. *)
Definition normalize_symbol (pairs_list : list production) (guess_arr : list Qc)
    (char : ascii) : list Qc :=
  let indices_for_char := indices_for_char pairs_list char in
  let sum_for_char := arr_sum guess_arr indices_for_char in
  if Qc_ltb tolerance sum_for_char then divide_at guess_arr indices_for_char sum_for_char
  else set_uniform guess_arr indices_for_char.

Definition normalize_guess (pairs_list : list production) (unique_chars : list ascii)
    (guess_arr : list Qc) : list Qc :=
  foldl (normalize_symbol pairs_list) guess_arr unique_chars.

(** [{pairs_list[i]: var_array[i] for i in range(len(pairs_list))}] *)
Definition array_to_dict (pairs_list : list production) (var_array : list Qc)
    : py distribution :=
  for_each (seq 0 (length pairs_list))
    (λ i d, match pairs_list !! i, var_array !! i with
            | Some pr, Some v => ret (<[pr := v]> d)
            | _, _ => raise IndexError
            end)
    ∅.

(** [x ** exponent] for a count [exponent]. *)
Definition float_pow (x : Qc) (exponent : Z) : Qc := (x ^ Z.to_nat exponent)%Qc.

Definition objective (pairs_list : list production) (var_array : list Qc)
    (freq_list_for_dicts : list (gmap production Z)) : py Qc :=
  let* distribution := array_to_dict pairs_list var_array in
  let* total_sum :=
    for_each freq_list_for_dicts
      (λ freq_map total_sum,
         let* prod_val :=
           map_fold (λ pr exponent acc,
               let* prod_val := acc in
               match distribution !! pr with
               | None => raise KeyError
               | Some x_val => ret (prod_val * float_pow x_val exponent)%Qc
               end)
             (ret 1%Qc) freq_map in
         ret (total_sum + prod_val)%Qc)
      0%Qc in
  ret (- total_sum)%Qc.

Definition constraint_sum_for_char (pairs_list : list production) (var_array : list Qc)
    (char : ascii) : py Qc :=
  let* distribution := array_to_dict pairs_list var_array in
  let sum_for_char :=
    map_sum Qcplus 0%Qc
      (λ (pr : production) prob, if decide (pr.1 = char) then prob else 0%Qc)
      distribution in
  ret (sum_for_char - 1)%Qc.

(** What [scipy.optimize.minimize] returns, as far as the program reads it. *)
Record OptimizeResult : Type := {
  res_success : bool;
  res_fun : Qc;
  res_x : list Qc
}.

(** The random generator behind [np.random.random], as explicit state. *)
Record generator (rng : Type) : Type := {
  random_float : rng → Qc * rng
}.
Arguments random_float {rng} _ _.

(** [-np.inf] or a finite value. *)
Inductive objective_value : Type :=
  | NegInf
  | Finite (val : Qc).

(** [val > best_objective] *)
Definition exceeds (val : Qc) (best_objective : objective_value) : bool :=
  match best_objective with
  | NegInf => true
  | Finite best => Qc_ltb best val
  end.

(** [np.random.random(n)] *)
Fixpoint random_floats {rng} (gen : generator rng) (n : nat) (g : rng) : list Qc * rng :=
  match n with
  | O => ([], g)
  | S n' =>
    let '(x, g') := random_float gen g in
    let '(xs, g'') := random_floats gen n' g' in
    (x :: xs, g'')
  end.

(** The problem handed to the optimizer, which returns a result or raises:
    [scipy.optimize.minimize] rejects, for one, a problem without
    variables. *)
Abbreviation minimizer :=
  ((list Qc → py Qc) → list Qc → list (Qc * Qc) → list (list Qc → py Qc)
   → py OptimizeResult).

(** Step 2 of [solve_s0l]: the initial guess. *)
Definition initial_guess (pairs_list : list production) (unique_chars : list ascii)
    (init_guess : option (list Qc)) : py (list Qc) :=
  match init_guess with
  | None => ret (uniform_guess pairs_list unique_chars)
  | Some init_guess =>
    let guess_arr := init_guess in
    if negb (py_len guess_arr =? py_len pairs_list) then raise ValueError
    else ret (normalize_guess pairs_list unique_chars guess_arr)
  end.

(** Steps 3 to 7 of [solve_s0l]: the call of the optimizer and the result. *)
Definition run_optimizer (minimize : minimizer) (pairs_list : list production)
    (unique_chars : list ascii) (freq_list : list (gmap production Z))
    (guess_arr : list Qc)
    : py (bool * option Qc * option distribution * list production) :=
  let constraints_list :=
    (λ char var_array, constraint_sum_for_char pairs_list var_array char)
      <$> unique_chars in
  let bounds := replicate (length pairs_list) (0%Qc, 1%Qc) in
  let* res :=
    minimize (λ var_array, objective pairs_list var_array freq_list)
      guess_arr bounds constraints_list in
  if res_success res then
    let max_sum_products := (- res_fun res)%Qc in
    let* final_distribution := array_to_dict pairs_list (res_x res) in
    ret (true, Some max_sum_products, Some final_distribution, pairs_list)
  else ret (false, None, None, pairs_list).

Definition solve_s0l (minimize : minimizer) (dict_list : list derivation)
    (init_guess : option (list Qc))
    : py (bool * option Qc * option distribution * list production) :=
  let '(freq_list, all_pairs) := frequency_maps dict_list in
  let pairs_list := sorted_productions all_pairs in
  let unique_chars := sorted_chars (list_to_set pairs_list.*1) in
  let* guess_arr := initial_guess pairs_list unique_chars init_guess in
  run_optimizer minimize pairs_list unique_chars freq_list guess_arr.

(** One pass of the inner loop of [solve_with_restarts]: the random guess
    for one symbol. *)
Definition random_symbol_guess {rng} (gen : generator rng)
    (pairs_list_global : list production) (st : list Qc * rng) (char : ascii)
    : list Qc * rng :=
  let '(guess_arr, g) := st in
  let indices := indices_for_char pairs_list_global char in
  let '(rand_vals, g') := random_floats gen (length indices) g in
  let sum_rand := foldl Qcplus 0%Qc rand_vals in
  let guess_for_char :=
    if Qc_ltb sum_rand tolerance
    then replicate (length indices) (1 / Qc_of_Z (py_len indices))%Qc
    else (λ x, x / sum_rand)%Qc <$> rand_vals in
  (foldl (λ arr '(i, idx), <[idx := arr_get guess_for_char i]> arr)
     guess_arr (imap pair indices), g').

Definition random_guess {rng} (gen : generator rng)
    (pairs_list_global : list production) (unique_chars_global : list ascii) (g : rng)
    : list Qc * rng :=
  foldl (random_symbol_guess gen pairs_list_global)
    (replicate (length pairs_list_global) 0%Qc, g) unique_chars_global.

(** The variables [solve_with_restarts] updates after each attempt. *)
Record restart_state (rng : Type) : Type := {
  best_objective : objective_value;
  best_distribution : option distribution;
  best_pairs : option (list production);
  success_count : Z;
  rng_state : rng
}.
Arguments best_objective {rng} _.
Arguments best_distribution {rng} _.
Arguments best_pairs {rng} _.
Arguments success_count {rng} _.
Arguments rng_state {rng} _.

(** [if success and val > best_objective: ...] *)
Definition record_attempt {rng} (st : restart_state rng)
    (attempt : bool * option Qc * option distribution * list production)
    : restart_state rng :=
  let '(success, val, sol, pairs_list) := attempt in
  match success, val with
  | true, Some v =>
    if exceeds v (best_objective st) then
      {| best_objective := Finite v;
         best_distribution := sol;
         best_pairs := Some pairs_list;
         success_count := success_count st + 1;
         rng_state := rng_state st |}
    else st
  | _, _ => st
  end.

(** One restart: a random guess, an attempt from it, and the update. *)
Definition restart {rng} (minimize : minimizer) (gen : generator rng)
    (dict_list : list derivation) (pairs_list_global : list production)
    (unique_chars_global : list ascii) (st : restart_state rng)
    : py (restart_state rng) :=
  let '(guess_arr, g') :=
    random_guess gen pairs_list_global unique_chars_global (rng_state st) in
  let* attempt := solve_s0l minimize dict_list (Some guess_arr) in
  let st := record_attempt st attempt in
  ret {| best_objective := best_objective st;
         best_distribution := best_distribution st;
         best_pairs := best_pairs st;
         success_count := success_count st;
         rng_state := g' |}.

Definition solve_with_restarts {rng} (minimize : minimizer) (gen : generator rng)
    (g : rng) (dict_list : list derivation) (n_restarts : Z)
    : py (objective_value * option distribution * option (list production) * Z) :=
  let st :=
    {| best_objective := NegInf; best_distribution := None; best_pairs := None;
       success_count := 0; rng_state := g |} in
  let* attempt := solve_s0l minimize dict_list None in
  let st := record_attempt st attempt in
  let '(freq_list, all_pairs) := frequency_maps dict_list in
  let pairs_list_global := sorted_productions all_pairs in
  let unique_chars_global := sorted_chars (list_to_set pairs_list_global.*1) in
  let* st :=
    for_each (py_range 0 n_restarts)
      (λ _, restart minimize gen dict_list pairs_list_global unique_chars_global)
      st in
  ret (best_objective st, best_distribution st, best_pairs st, success_count st).

(** * Definitions of the specification

    The notions the properties below are stated with, and the structural
    enumeration the search is compared with. *)

(** ** The enumeration, by structural recursion

    [pieces si ci s t] lists the ways the search assigns the characters [s]
    (the rest of string [si] from character [ci] on) to the rest [t] of the
    next string, each as the list of entries it stores in
    [current_mapping]; [paths si seq] does so for the strings [seq], the
    first of which has index [si]. *)

Abbreviation entry := ((Z * Z) * (ascii * list ascii))%type.

Fixpoint pieces (si ci : Z) (s t : pystr) : list (list entry) :=
  match s with
  | [] => [[]]
  | c :: s' =>
    match s' with
    | [] => [[((si, ci), (c, t))]]
    | _ :: _ =>
      p ← seq 1 (length t - 1);
      (cons ((si, ci), (c, take p t))) <$> pieces si (ci + 1) s' (drop p t)
    end
  end.

Fixpoint paths (si : Z) (seq : list pystr) : list (list entry) :=
  match seq with
  | [] => [[]]
  | s :: seq' =>
    match seq' with
    | [] => [[]]
    | t :: _ => a1 ← pieces si 0 s t; (a1 ++.) <$> paths (si + 1) seq'
    end
  end.

(** The keys the search assigns from character [ci] of string [si] on. *)
Definition row_positions (si ci : Z) (s : pystr) : list (Z * Z) :=
  (λ k : nat, (si, ci + Z.of_nat k)) <$> seq 0 (length s).

Fixpoint positions (si : Z) (seq : list pystr) : list (Z * Z) :=
  match seq with
  | [] => []
  | s :: seq' =>
    match seq' with
    | [] => []
    | _ :: _ => row_positions si 0 s ++ positions (si + 1) seq'
    end
  end.

(** Calls on the stack below a call at the first character of [seq]. *)
Definition depth (seq : list pystr) : nat :=
  sum_list ((λ s, S (length s)) <$> seq).

(** The paths below a call at character [ci] of string [si], whose rest is
    [s], with [t] what is left of the next string and [rest] the strings
    from the next one on. *)
Definition rest_paths (si ci : Z) (s t : pystr) (rest : list pystr) : list (list entry) :=
  a1 ← pieces si ci s t; (a1 ++.) <$> paths (si + 1) rest.

Definition rest_positions (si ci : Z) (s : pystr) (rest : list pystr) : list (Z * Z) :=
  row_positions si ci s ++ positions (si + 1) rest.

(** What a call leaves behind: the copies of the paths [P] appended to
    [all_mappings], and a [current_mapping] changed on the keys [K] only. *)
Definition dfs_post (r : py dfs_state) (m : derivation) (all : list derivation)
    (P : list (list entry)) (K : list (Z * Z)) : Prop :=
  ∃ m', r = ret (m', all ++ ((λ a, list_to_map a ∪ m) <$> P))
        ∧ ∀ k, k ∉ K → m' !! k = m !! k.

(** The entries that assign the pieces [ws] to the characters [s] of string
    [si], from character [ci] on. *)
Definition row_entries (si ci : Z) (s : pystr) (ws : list pystr) : list entry :=
  zip (row_positions si ci s) (zip s ws).

(** ** Derivations and the partition invariant *)

(** The substrings [d] gives to the first [n] characters of string [i], in
    character order; [None] if one of them has no entry. *)
Definition assigned (d : derivation) (i : Z) (n : nat) : option (list pystr) :=
  mapM (λ j : nat, snd <$> d !! (i, Z.of_nat j)) (seq 0 n).

(** Their concatenation, for the characters of [s]. *)
Definition row_concat (d : derivation) (i : Z) (s : pystr) : option pystr :=
  @concat ascii <$> assigned d i (length s).

(** [d] rewrites every string of [seq] into the next one. *)
Definition partition_invariant (seq : list pystr) (d : derivation) : Prop :=
  ∀ (i : nat) s t, seq !! i = Some s → seq !! S i = Some t →
    row_concat d (Z.of_nat i) s = Some t.

(** A derivation of [seq] in the sense of the data model: a total mapping
    of the positions of the non-final strings, each to its character and a
    non-empty substring, that satisfies the partition invariant. *)
Definition valid_derivation (seq : list pystr) (d : derivation) : Prop :=
  (∀ i j, is_Some (d !! (i, j)) ↔
     ∃ s, 0 ≤ i < py_len seq - 1 ∧ py_get seq i = Some s ∧ 0 ≤ j < py_len s)
  ∧ (∀ i j c w, d !! (i, j) = Some (c, w) →
       (∃ s, py_get seq i = Some s ∧ py_get s j = Some c) ∧ w ≠ [])
  ∧ partition_invariant seq d.

(** ** Counts, concentration factors and probability mass *)

(** Number of occurrences of [k] in [l]. *)
Definition occ `{Countable K} (k : K) (l : list K) : Z :=
  Z.of_nat (length (filter (k =.) l)).

(** [d] holds the number of occurrences in [l] of each element of [l],
    and nothing else. *)
Definition counts_of `{Countable K} (l : list K) (d : gmap K Z) : Prop :=
  ∀ k, d !! k = if decide (occ k l = 0) then None else Some (occ k l).

(** [∏ count(k) ** count(k)] over the distinct elements of [l]. *)
Definition concentration `{Countable K} (l : list K) : Z :=
  foldr (λ k acc, acc * occ k l ^ occ k l) 1 (remove_dups l).

(** The productions a derivation uses, one per position. *)
Definition productions_of (d : derivation) : list production := (map_to_list d).*2.

(** Concentration factor of a derivation: the product, over the distinct
    productions it uses, of [count ** count]. *)
Definition concentration_factor (d : derivation) : Z := concentration (productions_of d).

(** The characters of the non-final strings of a sequence. *)
Definition symbols_of (seq : list pystr) : pystr := concat (py_slice seq 0 (-1)).


(** The probability the program stores for a production used [freq] times. *)
Definition relative_frequency (cc : gmap ascii Z) (pr : production) (freq : Z) : Qc :=
  (Qc_of_Z freq / Qc_of_Z (default 0%Z (cc !! pr.1)))%Qc.

(** ** Sample inputs *)

(** A sample run of the selector. *)
Definition sample_seq : list pystr := [str "AB"; str "AB"; str "ABB"].

(** The value of a computation that returned, [dflt] otherwise. *)
Definition returned {A} (c : py A) (dflt : A) : A :=
  match c with Some (Ok a) => a | _ => dflt end.

Definition sample_result : distribution * derivation * Qc :=
  returned (overall_dervs_maxprob sample_seq) (∅, ∅, 0%Qc).

(** ** Failures *)

(** [c] fails with an exception of the class called [name]. *)
Definition fails_with {A} (c : py A) (name : string) : Prop :=
  ∃ e, c = raise e ∧ exn_name e = name.

(** ** The optimizer's inputs and attempts *)

(** An optimizer that reports convergence at its starting point, and a
    generator that always draws 1/2: stand-ins to run the model. *)
Definition stay_put : minimizer :=
  λ objective x0 _ _,
    ret {| res_success := true;
           res_fun := match objective x0 with Some (Ok v) => v | _ => 0%Qc end;
           res_x := x0 |}.

(** An optimizer that, like [scipy.optimize.minimize], rejects a problem
    without variables with a [ValueError], and otherwise stays put. *)
Definition rejects_empty : minimizer :=
  λ objective x0 bounds constraints,
    match bounds with
    | [] => raise ValueError
    | _ :: _ => stay_put objective x0 bounds constraints
    end.

Definition constant_generator : generator unit :=
  {| random_float := λ g, (Q2Qc (1 # 2), g) |}.

(** The derivation of ["A", "B"]. *)
Definition derivation_A_B : derivation := {[ (0, 0) := ("A"%char, str "B") ]}.

(** The [success_count] of a call of [solve_with_restarts] that returned. *)
Definition count_of_successes
    (r : py (objective_value * option distribution * option (list production) * Z))
    : option Z :=
  match r with Some (Ok (_, _, _, n)) => Some n | _ => None end.

(** The entry the renormalization leaves at index [i], an index of symbol
    [char]: the quotient by the symbol's sum if that sum exceeds [1e-12],
    the uniform probability otherwise. *)
Definition renormalized (pairs_list : list production) (guess_arr : list Qc)
    (char : ascii) (i : nat) : Qc :=
  let indices := indices_for_char pairs_list char in
  let sum_for_char := arr_sum guess_arr indices in
  if Qc_ltb tolerance sum_for_char then (arr_get guess_arr i / sum_for_char)%Qc
  else (1 / Qc_of_Z (py_len indices))%Qc.

(** The productions that occur in some derivation of a list. *)
Definition distinct_productions (dict_list : list derivation) : gset production :=
  ⋃ ((λ d, list_to_set (productions_of d)) <$> dict_list).

(** The calls of [solve_s0l] that the restarts make, in order, from the
    generator state [g]. *)
Fixpoint random_attempts {rng} (minimize : minimizer) (gen : generator rng)
    (dict_list : list derivation) (n : nat) (g : rng)
    : list (py (bool * option Qc * option distribution * list production)) :=
  match n with
  | O => []
  | S n' =>
    let pairs_list_global := sorted_productions (frequency_maps dict_list).2 in
    let unique_chars_global := sorted_chars (list_to_set pairs_list_global.*1) in
    let '(guess_arr, g') := random_guess gen pairs_list_global unique_chars_global g in
    solve_s0l minimize dict_list (Some guess_arr)
    :: random_attempts minimize gen dict_list n' g'
  end.

(** The [N + 1] attempts: the run from the uniform guess, then the restarts. *)
Definition attempts {rng} (minimize : minimizer) (gen : generator rng) (g : rng)
    (dict_list : list derivation) (n_restarts : Z)
    : list (py (bool * option Qc * option distribution * list production)) :=
  solve_s0l minimize dict_list None
  :: random_attempts minimize gen dict_list (Z.to_nat n_restarts) g.

(** The attempt returned with [success] set. *)
Definition converged (attempt : py (bool * option Qc * option distribution * list production))
    : bool :=
  match attempt with
  | Some (Ok (success, _, _, _)) => success
  | _ => false
  end.

(** How many of the attempts converged. *)
Definition converged_attempts {rng} (minimize : minimizer) (gen : generator rng) (g : rng)
    (dict_list : list derivation) (n_restarts : Z) : Z :=
  py_len (filter (λ attempt, converged attempt = true)
            (attempts minimize gen g dict_list n_restarts)).

(** ** Counting derivations *)

(** Binomial coefficients, by Pascal's rule. *)
Fixpoint choose (n k : nat) : nat :=
  match k with
  | O => 1%nat
  | S k' =>
    match n with
    | O => 0%nat
    | S n' => (choose n' k' + choose n' k)%nat
    end
  end.

(** The number of ways to rewrite each string of [seq] into the next one:
    a string of [k ≥ 1] characters is rewritten into a string of [n]
    characters by choosing [k - 1] of its [n - 1] cut points. *)
Fixpoint derivation_count (seq : list pystr) : nat :=
  match seq with
  | [] => 1%nat
  | s :: seq' =>
    match seq' with
    | [] => 1%nat
    | t :: _ => (choose (length t - 1) (length s - 1) * derivation_count seq')%nat
    end
  end.

(** A string of at least two characters followed by a shorter string. *)
Definition too_long (seq : list pystr) : Prop :=
  ∃ (i : nat) s t, seq !! i = Some s ∧ seq !! S i = Some t
                   ∧ (2 ≤ length s)%nat ∧ (length t < length s)%nat.

(** ** A sample enumeration *)

(** The two derivations of ["AB", "ABB"], in the order of the search. *)
Definition seq_AB_ABB : list pystr := [str "AB"; str "ABB"].

Definition derivation_A_BB : derivation :=
  {[ (0, 0) := ("A"%char, str "A"); (0, 1) := ("B"%char, str "BB") ]}.

Definition derivation_AB_B : derivation :=
  {[ (0, 0) := ("A"%char, str "AB"); (0, 1) := ("B"%char, str "B") ]}.

Definition derivations_AB_ABB : list derivation := [derivation_A_BB; derivation_AB_B].

(** ** Totals of a dictionary of counts *)

(** The sum of the counts of a dictionary. *)
Definition total_count `{Countable K} (pc : gmap K Z) : Z :=
  map_sum Z.add 0 (λ _ n, n) pc.

(** ** The order of the pairs *)

(** [p] comes strictly before [q] in the order of [sorted]. *)
Definition production_lt (p q : production) : Prop :=
  production_leb p q ∧ p ≠ q.

(** ** Sample inputs of the optimizer *)

(** The attempt of [solve_s0l] on the derivation of ["A", "B"], from the
    uniform guess, with the optimizer that stays at its starting point. *)
Definition sample_attempt : bool * option Qc * option distribution * list production :=
  returned (solve_s0l stay_put [derivation_A_B] None) (false, None, None, []).

(** The uniform starting point for the two derivations of ["AB", "ABB"]. *)
Definition sample_guess : list Qc :=
  let pairs_list := sorted_productions (distinct_productions derivations_AB_ABB) in
  returned (initial_guess pairs_list (sorted_chars (list_to_set pairs_list.*1)) None) [].

(** ** The objective of the optimizer *)

(** The probability a distribution gives to a derivation: the product,
    over its positions, of the probability of the production used there. *)
Definition likelihood (distribution : distribution) (d : derivation) : Qc :=
  foldr (λ pr acc, (acc * default 0 (distribution !! pr))%Qc) 1%Qc (productions_of d).

Definition sum_of_likelihoods (distribution : distribution) (dict_list : list derivation)
    : Qc :=
  foldl (λ acc d, (acc + likelihood distribution d)%Qc) 0%Qc dict_list.

(** ** The values of the attempts *)

(** The value of an attempt that converged. *)
Definition attempt_value
    (attempt : py (bool * option Qc * option distribution * list production))
    : option Qc :=
  match attempt with
  | Some (Ok (true, Some v, _, _)) => Some v
  | _ => None
  end.

(** The values of the attempts that converged, in the order of the attempts. *)
Definition attempt_values {rng} (minimize : minimizer) (gen : generator rng) (g : rng)
    (dict_list : list derivation) (n_restarts : Z) : list Qc :=
  omap attempt_value (attempts minimize gen g dict_list n_restarts).

(** What [solve_with_restarts] has recorded after the attempts [done]: the
    greatest value among them, from the first attempt that reached it, and
    a counter between 1 and the number of values; or nothing if no attempt
    converged. *)
Definition recorded {rng : Type}
    (done : list (py (bool * option Qc * option distribution * list production)))
    (st : restart_state rng) : Prop :=
  0 ≤ success_count st ≤ py_len (omap attempt_value done)
  ∧ match best_objective st with
    | NegInf =>
      omap attempt_value done = []
      ∧ best_distribution st = None ∧ best_pairs st = None ∧ success_count st = 0
    | Finite v =>
      1 ≤ success_count st
      ∧ (∀ v', v' ∈ omap attempt_value done → (v' ≤ v)%Qc)
      ∧ ∃ (i : nat) pl,
          done !! i = Some (ret (true, Some v, best_distribution st, pl))
          ∧ best_pairs st = Some pl
          ∧ ∀ (j : nat) a v', (j < i)%nat → done !! j = Some a →
              attempt_value a = Some v' → (v' < v)%Qc
    end.

(** ** Doubles and their sums *)






(** The sample run of the selector, in binary64. *)
Definition float_sample_result : Binary64.distribution * derivation * PrimFloat.float :=
  returned (Binary64.overall_dervs_maxprob sample_seq) (∅, ∅, PrimFloat.zero).


(** * Lemmas and theorems *)

(** ** Sample runs *)

Example get_derivations_A_AB_ABBA :
  get_derivations [str "A"; str "AB"; str "ABBA"] =
  Some (Ok
    [ {[ (0, 0) := ("A"%char, str "AB") ]} ∪
      {[ (1, 0) := ("A"%char, str "A"); (1, 1) := ("B"%char, str "BBA") ]};
      {[ (0, 0) := ("A"%char, str "AB") ]} ∪
      {[ (1, 0) := ("A"%char, str "AB"); (1, 1) := ("B"%char, str "BA") ]};
      {[ (0, 0) := ("A"%char, str "AB") ]} ∪
      {[ (1, 0) := ("A"%char, str "ABB"); (1, 1) := ("B"%char, str "A") ]} ]).
Proof. vm_compute. reflexivity. Qed.

(** ** Python indexing on indices in range *)

Ltac zbool :=
  repeat match goal with
  | |- context [Z.leb ?a ?b] => destruct (Z.leb_spec a b); try lia
  | |- context [Z.ltb ?a ?b] => destruct (Z.ltb_spec a b); try lia
  | |- context [Z.eqb ?a ?b] => destruct (Z.eqb_spec a b); try lia
  end.

Lemma py_get_nat {A} (l : list A) (i : Z) :
  0 ≤ i → py_get l i = l !! Z.to_nat i.
Proof. intros Hi. unfold py_get. by zbool. Qed.

Lemma py_bound_nat {A} (l : list A) (i : Z) :
  0 ≤ i ≤ py_len l → py_bound l i = i.
Proof. intros Hi. unfold py_bound. zbool. Qed.

Lemma py_slice_from_nat {A} (l : list A) (a : Z) :
  0 ≤ a ≤ py_len l → py_slice_from l a = drop (Z.to_nat a) l.
Proof. intros Ha. unfold py_slice_from. by rewrite py_bound_nat. Qed.

Lemma py_slice_nat {A} (l : list A) (a : Z) (p : nat) :
  0 ≤ a → a + Z.of_nat p ≤ py_len l →
  py_slice l a (a + Z.of_nat p) = take p (drop (Z.to_nat a) l).
Proof.
  intros Ha Hp. unfold py_slice. rewrite !py_bound_nat by lia.
  f_equal. lia.
Qed.

Lemma py_range_shift (a b : Z) :
  py_range (a + 1) b = (λ p : nat, a + Z.of_nat p) <$> seq 1 (Z.to_nat (b - (a + 1))).
Proof.
  unfold py_range. rewrite <- fmap_S_seq, <- list_fmap_compose. apply list_fmap_ext.
  intros _ k _. simpl. lia.
Qed.

Lemma for_each_app {S X} (xs ys : list X) (body : X → S → py S) (st : S) :
  for_each (xs ++ ys) body st = let* st' := for_each xs body st in for_each ys body st'.
Proof.
  revert st. induction xs as [|x xs IH]; intros st; simpl; [done|].
  destruct (body x st) as [[st'|e]|]; simpl; auto.
Qed.

(** ** Keys of the enumerated paths *)

Lemma row_positions_cons si ci c (s : pystr) :
  row_positions si ci (c :: s) = (si, ci) :: row_positions si (ci + 1) s.
Proof.
  unfold row_positions. simpl. rewrite Z.add_0_r. f_equal.
  rewrite <- fmap_S_seq, <- list_fmap_compose. apply list_fmap_ext.
  intros _ k _. simpl. f_equal. lia.
Qed.

Lemma elem_of_row_positions x y si ci (s : pystr) :
  (x, y) ∈ row_positions si ci s ↔ x = si ∧ ci ≤ y < ci + py_len s.
Proof.
  unfold row_positions, py_len. rewrite list_elem_of_fmap. split.
  - intros (k & [= -> ->] & Hk). apply elem_of_seq in Hk. lia.
  - intros (-> & Hy). exists (Z.to_nat (y - ci)). split.
    + f_equal. lia.
    + apply elem_of_seq. lia.
Qed.

Lemma elem_of_positions_ge x y si (seq : list pystr) :
  (x, y) ∈ positions si seq → si ≤ x.
Proof.
  revert si. induction seq as [|s seq IH]; intros si; simpl; [by intros ?%elem_of_nil|].
  destruct seq as [|t seq]; [by intros ?%elem_of_nil|].
  rewrite elem_of_app, elem_of_row_positions. intros [[-> _]|H%IH]; lia.
Qed.

Lemma pieces_keys si ci (s t : pystr) a :
  a ∈ pieces si ci s t → a.*1 = row_positions si ci s.
Proof.
  revert ci t a. induction s as [|c s IH]; intros ci t a; simpl.
  - by intros ->%list_elem_of_singleton.
  - rewrite row_positions_cons. destruct s as [|c' s].
    + by intros ->%list_elem_of_singleton.
    + rewrite list_elem_of_bind. intros (p & Ha & _).
      apply list_elem_of_fmap in Ha as (a' & -> & Ha'). simpl. f_equal. eauto.
Qed.

Lemma paths_keys si (seq : list pystr) a :
  a ∈ paths si seq → a.*1 = positions si seq.
Proof.
  revert si a. induction seq as [|s seq IH]; intros si a; simpl.
  - by intros ->%list_elem_of_singleton.
  - destruct seq as [|t seq].
    + by intros ->%list_elem_of_singleton.
    + rewrite list_elem_of_bind. intros (a1 & Ha & Ha1).
      apply list_elem_of_fmap in Ha as (a2 & -> & Ha2).
      rewrite fmap_app. f_equal; [by eapply pieces_keys | by apply IH].
Qed.

Lemma rest_paths_keys si ci s t rest a :
  a ∈ rest_paths si ci s t rest → a.*1 = rest_positions si ci s rest.
Proof.
  unfold rest_paths, rest_positions. rewrite list_elem_of_bind. intros (a1 & Ha & Ha1).
  apply list_elem_of_fmap in Ha as (a2 & -> & Ha2).
  rewrite fmap_app. f_equal; [by eapply pieces_keys | by apply paths_keys].
Qed.

Lemma rest_positions_fresh si ci s rest :
  (si, ci) ∉ rest_positions si (ci + 1) s rest.
Proof.
  unfold rest_positions. rewrite elem_of_app, elem_of_row_positions.
  intros [[_ ?]|H%elem_of_positions_ge]; lia.
Qed.

Lemma rest_paths_nil si ci t rest :
  rest_paths si ci [] t rest = paths (si + 1) rest.
Proof.
  unfold rest_paths. simpl. rewrite app_nil_r. apply list_fmap_id.
Qed.

Lemma rest_paths_last si ci c t rest :
  rest_paths si ci [c] t rest =
  (cons ((si, ci), (c, t))) <$> rest_paths si (ci + 1) [] t rest.
Proof.
  rewrite rest_paths_nil. unfold rest_paths. simpl. by rewrite app_nil_r.
Qed.

Lemma bind_fmap_cons (e : entry) (X : list (list entry)) (P : list (list entry)) :
  (cons e <$> X) ≫= (λ a1, (a1 ++.) <$> P) = cons e <$> (X ≫= (λ a1, (a1 ++.) <$> P)).
Proof.
  induction X as [|a X IH]; [done|].
  rewrite fmap_cons, !bind_cons, fmap_app, IH. f_equal.
  by rewrite <- list_fmap_compose.
Qed.

Lemma rest_paths_middle si ci c c' s t rest :
  rest_paths si ci (c :: c' :: s) t rest =
  p ← seq 1 (length t - 1);
  (cons ((si, ci), (c, take p t))) <$> rest_paths si (ci + 1) (c' :: s) (drop p t) rest.
Proof.
  unfold rest_paths. cbn [pieces].
  generalize (seq 1 (length t - 1)) as ps. induction ps as [|p ps IH]; [done|].
  rewrite !bind_cons, bind_app, IH. f_equal. apply bind_fmap_cons.
Qed.

(** A copy taken below an assignment is the copy of the extended path. *)
Lemma copy_insert (a : list entry) (k : Z * Z) (v : production) (m0 m : derivation) :
  k ∉ a.*1 →
  (∀ x, x ∉ k :: a.*1 → m0 !! x = m !! x) →
  list_to_map a ∪ <[k := v]> m0 = list_to_map ((k, v) :: a) ∪ m.
Proof.
  intros Hk Hm. apply map_eq. intros x.
  assert (Hn : (list_to_map a : derivation) !! k = None)
    by by apply not_elem_of_list_to_map_1.
  rewrite list_to_map_cons, !lookup_union. destruct (decide (x = k)) as [->|Hx].
  - rewrite Hn, !lookup_insert_eq. by destruct (m !! k).
  - rewrite !lookup_insert_ne by done.
    destruct (list_to_map a !! x) as [w|] eqn:Hw;
      [by destruct (m0 !! x), (m !! x)|].
    apply not_elem_of_list_to_map in Hw. rewrite Hm; [done|].
    rewrite elem_of_cons. by intros [?|?].
Qed.

(** ** The search computes the enumeration *)

Lemma paths_cons2 si s t (rest : list pystr) :
  paths si (s :: t :: rest) = rest_paths si 0 s t (t :: rest).
Proof. done. Qed.

Lemma positions_cons2 si s t (rest : list pystr) :
  positions si (s :: t :: rest) = rest_positions si 0 s (t :: rest).
Proof. done. Qed.

Lemma dfs_base fuel (seq : list pystr) si ci last m all :
  si = py_len seq - 1 →
  _dfs_all_derivations (S fuel) seq si ci last (m, all) = ret (m, all ++ [m]).
Proof. intros ->. simpl. by rewrite Z.eqb_refl. Qed.

Lemma dfs_refines fuel :
  ∀ (seq : list pystr) (i j q : nat) (m : derivation) all s t,
    seq !! i = Some s → seq !! S i = Some t →
    (j ≤ length s)%nat →
    ((j < length s)%nat → (q ≤ length t)%nat) →
    (length (drop j s) + S (depth (drop (S i) seq)) ≤ fuel)%nat →
    dfs_post
      (_dfs_all_derivations fuel seq (Z.of_nat i) (Z.of_nat j) (Z.of_nat q - 1) (m, all))
      m all
      (rest_paths (Z.of_nat i) (Z.of_nat j) (drop j s) (drop q t) (drop (S i) seq))
      (rest_positions (Z.of_nat i) (Z.of_nat j) (drop j s) (drop (S i) seq)).
Proof.
  induction fuel as [|f IH]; intros seq i j q m all s t Hs Ht Hj Hq Hfuel; [lia|].
  pose proof (lookup_lt_Some _ _ _ Ht) as Hlen.
  assert (Hd : depth (drop (S i) seq)
               = (S (length t) + depth (drop (S (S i)) seq))%nat)
    by by rewrite (drop_S _ _ _ Ht).
  cbn [_dfs_all_derivations].
  destruct (Z.eqb_spec (Z.of_nat i) (py_len seq - 1)) as [E|_];
    [unfold py_len in E; lia|].
  rewrite (py_get_nat seq), Nat2Z.id, Hs by lia.
  destruct (Z.eqb_spec (Z.of_nat j) (py_len s)) as [E|Hj'].
  - (* every character of [s] is assigned: on to the next string *)
    assert (j = length s) as -> by (unfold py_len in E; lia). clear E.
    rewrite drop_all, rest_paths_nil. unfold rest_positions, row_positions. simpl.
    rewrite (drop_S _ _ _ Ht) in *.
    destruct (seq !! S (S i)) as [t2|] eqn:Ht2.
    + rewrite (drop_S _ _ _ Ht2) in *. rewrite paths_cons2, positions_cons2.
      rewrite <- (drop_S _ _ _ Ht2) in *.
      replace (Z.of_nat i + 1) with (Z.of_nat (S i)) by lia.
      destruct (IH seq (S i) 0%nat 0%nat m all t t2) as (m' & Heq & Hag); try done.
      * simpl; lia.
      * intros _; lia.
      * rewrite length_drop in *. simpl. lia.
      * exists m'. split; [|done]. exact Heq.
    + apply lookup_ge_None in Ht2.
      destruct f as [|f]; [simpl in Hfuel; lia|].
      rewrite dfs_base by (unfold py_len; lia).
      rewrite drop_ge by done. exists m. split; [|done]. cbn [paths fmap list_fmap].
      by rewrite list_to_map_nil, (left_id_L ∅ (∪)).
  - assert (j < length s)%nat as Hj2 by (unfold py_len in Hj'; lia).
    specialize (Hq Hj2).
    replace (Z.to_nat (Z.of_nat i + 1)) with (S i) by lia.
    rewrite py_get_nat by lia. replace (Z.to_nat (Z.of_nat i + 1)) with (S i) by lia.
    rewrite Ht.
    destruct (lookup_lt_is_Some_2 s j Hj2) as [c Hc].
    rewrite (drop_S _ _ _ Hc) in *.
    rewrite py_get_nat, Nat2Z.id, Hc by lia.
    replace (Z.of_nat j + 1) with (Z.of_nat (S j)) by lia.
    set (rest := drop (S i) seq) in *.
    assert (HK : rest_positions (Z.of_nat i) (Z.of_nat j) (c :: drop (S j) s) rest
                 = (Z.of_nat i, Z.of_nat j)
                   :: rest_positions (Z.of_nat i) (Z.of_nat (S j)) (drop (S j) s) rest).
    { unfold rest_positions. rewrite row_positions_cons.
      by replace (Z.of_nat j + 1) with (Z.of_nat (S j)) by lia. }
    rewrite HK.
    assert (Hfresh : (Z.of_nat i, Z.of_nat j)
                     ∉ rest_positions (Z.of_nat i) (Z.of_nat (S j)) (drop (S j) s) rest).
    { replace (Z.of_nat (S j)) with (Z.of_nat j + 1) by lia. apply rest_positions_fresh. }
    destruct (Z.eqb_spec (Z.of_nat j) (py_len s - 1)) as [E|Hj3].
    + (* the last character takes the remainder of [t] *)
      assert (S j = length s) as Hj4 by (unfold py_len in E; lia).
      assert (drop (S j) s = []) as Hnil by (apply drop_ge; lia).
      rewrite Hnil in *. rewrite rest_paths_last.
      replace (Z.of_nat q - 1 + 1) with (Z.of_nat q) by lia.
      rewrite py_slice_from_nat, Nat2Z.id by (unfold py_len; lia).
      replace (py_len s - 1) with (Z.of_nat (length s) - 1) by done.
      destruct (IH seq i (S j) (length s)
                  (<[(Z.of_nat i, Z.of_nat j) := (c, drop q t)]> m) all s t)
        as (m' & Heq & Hag); try done; try lia.
      * rewrite Hnil. fold rest. simpl in *. lia.
      * rewrite Hnil in Heq, Hag. fold rest in Heq, Hag.
        replace (Z.of_nat (S j)) with (Z.of_nat j + 1) in * by lia.
        rewrite !rest_paths_nil in *.
        exists m'. split.
        -- rewrite Heq. do 3 f_equal. rewrite <- list_fmap_compose.
           apply list_fmap_ext. intros _ a Ha%list_elem_of_lookup_2. simpl.
           apply paths_keys in Ha. apply copy_insert.
           ++ rewrite Ha. intros H%elem_of_positions_ge. lia.
           ++ done.
        -- intros k Hk. rewrite Hag.
           ++ apply lookup_insert_ne. intros <-. apply Hk, elem_of_cons. by left.
           ++ intros Hin. apply Hk, elem_of_cons. right.
              unfold rest_positions, row_positions. by simpl.
    + (* a middle character: one branch per split point *)
      assert (S j < length s)%nat as Hj4 by (unfold py_len in Hj3; lia).
      destruct (lookup_lt_is_Some_2 s (S j) Hj4) as [c' Hc'].
      rewrite (drop_S _ _ _ Hc') in *. rewrite rest_paths_middle.
      rewrite <- (drop_S _ _ _ Hc') in *.
      rewrite py_range_shift.
      replace (Z.to_nat (py_len t - 1 - (Z.of_nat q - 1 + 1)))
        with (length (drop q t) - 1)%nat by (rewrite length_drop; unfold py_len; lia).
      set (K := (Z.of_nat i, Z.of_nat j)
                :: rest_positions (Z.of_nat i) (Z.of_nat (S j)) (drop (S j) s) rest) in *.
      match goal with |- context [for_each _ ?b _] => set (body := b) end.
      assert (Hbody : ∀ (p : nat) cm am, (1 ≤ p ≤ length t - q - 1)%nat →
        body (Z.of_nat q - 1 + Z.of_nat p) (cm, am) =
        _dfs_all_derivations f seq (Z.of_nat i) (Z.of_nat (S j)) (Z.of_nat (q + p) - 1)
          (<[(Z.of_nat i, Z.of_nat j) := (c, take p (drop q t))]> cm, am)).
      { intros p cm am Hp. unfold body.
        replace (Z.of_nat q - 1 + 1) with (Z.of_nat q) by lia.
        replace (Z.of_nat q - 1 + Z.of_nat p + 1) with (Z.of_nat q + Z.of_nat p) by lia.
        rewrite py_slice_nat, Nat2Z.id by (unfold py_len; lia).
        f_equal. lia. }
      assert (Hloop : ∀ ps (m0 : derivation) all0,
        (∀ p, p ∈ ps → (1 ≤ p ≤ length t - q - 1)%nat) →
        (∀ x, x ∉ K → m0 !! x = m !! x) →
        dfs_post
          (for_each ((λ p : nat, Z.of_nat q - 1 + Z.of_nat p) <$> ps) body (m0, all0))
          m all0
          (p ← ps;
           cons ((Z.of_nat i, Z.of_nat j), (c, take p (drop q t))) <$>
             rest_paths (Z.of_nat i) (Z.of_nat j + 1) (drop (S j) s)
               (drop p (drop q t)) rest)
          K).
      { induction ps as [|p ps IHps]; intros m0 all0 Hps Hm0.
        - exists m0. split; [|done]. simpl. by rewrite app_nil_r.
        - rewrite fmap_cons. cbn [for_each].
          assert (1 ≤ p ≤ length t - q - 1)%nat as Hp
            by (apply Hps, elem_of_cons; by left).
          rewrite Hbody by done.
          destruct (IH seq i (S j) (q + p)%nat
                      (<[(Z.of_nat i, Z.of_nat j) := (c, take p (drop q t))]> m0) all0 s t)
            as (m1 & Heq & Hag); try done; try lia.
          { simpl in Hfuel. fold rest. lia. }
          fold rest in Heq, Hag. rewrite Heq. cbn [bind ret].
          destruct (IHps m1
            (all0 ++ ((λ a, list_to_map a
                            ∪ <[(Z.of_nat i, Z.of_nat j) := (c, take p (drop q t))]> m0) <$>
               rest_paths (Z.of_nat i) (Z.of_nat (S j)) (drop (S j) s)
                 (drop (q + p) t) rest)))
            as (m2 & Heq2 & Hag2).
          { intros p' Hp'. apply Hps, elem_of_cons. by right. }
          { intros x Hx. rewrite Hag.
            - rewrite lookup_insert_ne; [by apply Hm0|].
              intros <-. apply Hx, elem_of_cons. by left.
            - intros Hin. apply Hx, elem_of_cons. by right. }
          exists m2. split; [|done]. rewrite Heq2. do 2 f_equal.
          rewrite <- app_assoc. f_equal. rewrite bind_cons, fmap_app. f_equal.
          rewrite <- list_fmap_compose, drop_drop.
          replace (Z.of_nat j + 1) with (Z.of_nat (S j)) by lia.
          apply list_fmap_ext. intros _ a Ha%list_elem_of_lookup_2. simpl.
          apply rest_paths_keys in Ha. apply copy_insert.
          + by rewrite Ha.
          + intros x Hx. apply Hm0. unfold K. by rewrite <- Ha. }
      destruct (Hloop (List.seq 1 (length (drop q t) - 1)) m all) as (m' & Heq & Hag).
      * intros p Hp%elem_of_seq. rewrite length_drop in Hp. lia.
      * done.
      * exists m'. split; [|done]. rewrite Heq. do 4 f_equal.
Qed.

(** [get_derivations] never runs out of fuel: it raises on the empty
    sequence and returns the enumeration otherwise. *)
Lemma get_derivations_nil : get_derivations [] = raise IndexError.
Proof. done. Qed.

Lemma get_derivations_paths (seq : list pystr) :
  seq ≠ [] → get_derivations seq = ret (list_to_map <$> paths 0 seq).
Proof.
  intros Hne. unfold get_derivations, dfs_fuel. fold (depth seq).
  destruct seq as [|s [|t rest]]; [done| |].
  - by rewrite dfs_base.
  - destruct (dfs_refines (S (depth (s :: t :: rest))) (s :: t :: rest)
                0%nat 0%nat 0%nat ∅ [] s t) as (m' & Heq & _); try done.
    + simpl; lia.
    + intros _; lia.
    + rewrite drop_0. unfold depth. simpl. lia.
    + change (Z.of_nat 0 - 1) with (-1) in Heq. change (Z.of_nat 0) with 0 in Heq.
      rewrite !drop_0 in Heq. change (drop 1 (s :: t :: rest)) with (t :: rest) in Heq.
      rewrite Heq. cbn [bind ret app]. f_equal.
      rewrite paths_cons2. apply list_fmap_ext. intros _ a _.
      by rewrite (right_id_L ∅ (∪)).
Qed.

(** ** Shape of the enumerated paths *)

Lemma row_entries_cons si ci c s w ws :
  row_entries si ci (c :: s) (w :: ws)
  = ((si, ci), (c, w)) :: row_entries si (ci + 1) s ws.
Proof. unfold row_entries. by rewrite row_positions_cons. Qed.

(** Every way the search cuts [t] is a cut into as many pieces as [s] has
    characters; the pieces give back [t] unless [s] is empty, and none is
    empty unless [s] is one character and [t] is empty. *)
Lemma pieces_sound si ci (s t : pystr) a :
  a ∈ pieces si ci s t →
  ∃ ws, a = row_entries si ci s ws ∧ length ws = length s
        ∧ (s ≠ [] → concat ws = t)
        ∧ (t ≠ [] ∨ (2 ≤ length s)%nat → Forall (λ w, w ≠ []) ws).
Proof.
  revert ci t a. induction s as [|c s IH]; intros ci t a; simpl.
  - intros ->%list_elem_of_singleton. by exists [].
  - destruct s as [|c' s].
    + intros ->%list_elem_of_singleton. exists [t]. rewrite row_entries_cons.
      split_and!; [done..| |].
      * intros _. simpl. by rewrite app_nil_r.
      * intros [Ht|Hs]; [|simpl in Hs; lia]. by repeat constructor.
    + rewrite list_elem_of_bind. intros (p & Ha & Hp%elem_of_seq).
      apply list_elem_of_fmap in Ha as (a' & -> & Ha').
      apply IH in Ha' as (ws & -> & Hlen & Hcat & Hne).
      exists (take p t :: ws). rewrite row_entries_cons. split_and!; [done| | |].
      * simpl. by rewrite Hlen.
      * intros _. simpl. rewrite Hcat by done. apply take_drop.
      * intros _. constructor.
        -- intros Htake. apply (f_equal length) in Htake.
           rewrite length_take in Htake. simpl in Htake. lia.
        -- apply Hne. left. intros Hdrop. apply (f_equal length) in Hdrop.
           rewrite length_drop in Hdrop. simpl in Hdrop. lia.
Qed.

(** Conversely every cut of [t] into non-empty pieces, one per character of
    [s], is enumerated. *)
Lemma pieces_complete si ci (s t : pystr) (ws : list pystr) :
  length ws = length s → Forall (λ w, w ≠ []) ws → concat ws = t →
  row_entries si ci s ws ∈ pieces si ci s t.
Proof.
  revert ci t ws. induction s as [|c s IH]; intros ci t ws Hlen Hne Hcat.
  - destruct ws; [|done]. simpl. apply list_elem_of_singleton. done.
  - destruct ws as [|w ws]; [done|]. rewrite row_entries_cons.
    injection Hlen as Hlen. apply Forall_cons in Hne as [Hw Hne].
    simpl in Hcat. destruct s as [|c' s].
    + destruct ws; [|done]. simpl in *. rewrite app_nil_r in Hcat. subst t.
      apply list_elem_of_singleton. done.
    + cbn [pieces]. destruct ws as [|w' ws]; [done|].
      apply Forall_cons in Hne as Hne'. destruct Hne' as [Hw' _].
      assert (length w ≠ 0%nat) by by destruct w.
      assert (length w' ≠ 0%nat) by by destruct w'.
      apply list_elem_of_bind. exists (length w). split.
      * subst t. rewrite take_app_length, drop_app_length.
        apply list_elem_of_fmap. eexists. split; [done|]. by apply IH.
      * apply elem_of_seq. subst t. rewrite length_app. simpl.
        rewrite length_app. lia.
Qed.

Lemma pieces_NoDup si ci (s t : pystr) : NoDup (pieces si ci s t).
Proof.
  revert ci t. induction s as [|c s IH]; intros ci t; simpl.
  - apply NoDup_singleton.
  - destruct s as [|c' s]; [apply NoDup_singleton|].
    apply NoDup_bind.
    + intros p1 p2 a Hp1%elem_of_seq Hp2%elem_of_seq Ha1 Ha2.
      apply list_elem_of_fmap in Ha1 as (a1 & -> & _).
      apply list_elem_of_fmap in Ha2 as (a2 & [= E _] & _).
      apply (f_equal length) in E. rewrite !length_take in E. lia.
    + intros p _. apply NoDup_fmap_2; [|apply IH]. by intros ?? [= ->].
    + apply NoDup_seq.
Qed.

Lemma paths_NoDup si (seq : list pystr) : NoDup (paths si seq).
Proof.
  revert si. induction seq as [|s seq IH]; intros si; simpl.
  - apply NoDup_singleton.
  - destruct seq as [|t seq]; [apply NoDup_singleton|].
    apply NoDup_bind.
    + intros a1 a1' a Ha1 Ha1' Ha Ha'.
      apply list_elem_of_fmap in Ha as (a2 & -> & _).
      apply list_elem_of_fmap in Ha' as (a2' & E & _).
      apply pieces_keys in Ha1, Ha1'.
      apply app_inj_1 in E as [E _]; [done|].
      rewrite <- (length_fmap fst a1), <- (length_fmap fst a1'). congruence.
    + intros a1 _. apply NoDup_fmap_2; [|apply IH]. intros ??. apply app_inv_head.
    + apply pieces_NoDup.
Qed.

Lemma paths_cons_elem si s t (rest : list pystr) a :
  a ∈ paths si (s :: t :: rest) ↔
  ∃ a1 a2, a = a1 ++ a2 ∧ a1 ∈ pieces si 0 s t ∧ a2 ∈ paths (si + 1) (t :: rest).
Proof.
  cbn [paths]. rewrite list_elem_of_bind. split.
  - intros (a1 & Ha & Ha1). apply list_elem_of_fmap in Ha as (a2 & -> & Ha2). eauto.
  - intros (a1 & a2 & -> & Ha1 & Ha2). exists a1. split; [|done].
    apply list_elem_of_fmap. eauto.
Qed.

Lemma row_positions_NoDup si ci (s : pystr) : NoDup (row_positions si ci s).
Proof.
  unfold row_positions. apply NoDup_fmap_2; [|apply NoDup_seq].
  intros k1 k2 [= E]. lia.
Qed.

Lemma positions_NoDup si (seq : list pystr) : NoDup (positions si seq).
Proof.
  revert si. induction seq as [|s seq IH]; intros si; simpl; [constructor|].
  destruct seq as [|t seq]; [constructor|].
  apply NoDup_app. split_and!; [apply row_positions_NoDup| |apply IH].
  intros [x y] [-> _]%elem_of_row_positions H%elem_of_positions_ge. lia.
Qed.

(** Two paths over the same keys that give the same dictionary are equal. *)
Lemma list_to_map_same_keys (a b : list entry) :
  NoDup a.*1 → a.*1 = b.*1 →
  (list_to_map a : derivation) = list_to_map b → a = b.
Proof.
  revert b. induction a as [|[k v] a IH]; intros [|[k' v'] b] Hnd Hk Hm; try done.
  rewrite !fmap_cons in Hk. rewrite fmap_cons in Hnd.
  injection Hk as <- Hk. apply NoDup_cons in Hnd as [Hk1 Hnd].
  assert (Hk2 : k ∉ b.*1) by by rewrite <- Hk.
  rewrite !list_to_map_cons in Hm.
  assert (v = v') as <-.
  { apply (f_equal (.!! k)) in Hm. rewrite !lookup_insert_eq in Hm. congruence. }
  f_equal. apply IH; [done..|].
  apply (f_equal (delete k)) in Hm.
  rewrite !delete_insert_eq in Hm.
  rewrite !delete_id in Hm by by apply not_elem_of_list_to_map_1. done.
Qed.

Lemma derivations_NoDup si (seq : list pystr) :
  NoDup ((list_to_map <$> paths si seq) : list derivation).
Proof.
  apply NoDup_fmap_2_strong; [|apply paths_NoDup].
  intros a b Ha Hb. apply paths_keys in Ha, Hb.
  apply list_to_map_same_keys; [|congruence].
  rewrite Ha. apply positions_NoDup.
Qed.

(** Lookup in the dictionary of a row of entries. *)
Lemma lookup_row_entries si ci (s : pystr) (ws : list pystr) (j : nat) :
  length ws = length s →
  (list_to_map (row_entries si ci s ws) : derivation) !! (si, ci + Z.of_nat j)
  = zip s ws !! j.
Proof.
  revert ci ws j. induction s as [|c s IH]; intros ci [|w ws] j Hlen; try done.
  rewrite row_entries_cons, list_to_map_cons. destruct j as [|j].
  - rewrite Z.add_0_r. apply lookup_insert_eq.
  - rewrite lookup_insert_ne by (intros [= E]; lia).
    replace (ci + Z.of_nat (S j)) with (ci + 1 + Z.of_nat j) by lia.
    apply IH. by injection Hlen.
Qed.

Lemma row_entries_keys si ci (s : pystr) (ws : list pystr) :
  length ws = length s → (row_entries si ci s ws).*1 = row_positions si ci s.
Proof.
  intros Hlen. unfold row_entries. apply fst_zip.
  unfold row_positions. rewrite length_fmap, length_seq, length_zip. lia.
Qed.

(** The characters of the entries of a path are the characters of the
    strings it explains. *)
Lemma pieces_chars si ci (s t : pystr) a :
  a ∈ pieces si ci s t → (λ e : entry, e.2.1) <$> a = s.
Proof.
  intros (ws & -> & Hlen & _)%pieces_sound. unfold row_entries.
  trans (fst <$> (snd <$> zip (row_positions si ci s) (zip s ws)));
    [by rewrite <- list_fmap_compose|].
  rewrite snd_zip.
  - apply fst_zip. lia.
  - unfold row_positions. rewrite length_fmap, length_seq, length_zip. lia.
Qed.

(** [seq[:-1]] *)
Lemma py_slice_init {A} (l : list A) : py_slice l 0 (-1) = take (length l - 1) l.
Proof.
  unfold py_slice. rewrite (py_bound_nat l 0) by (unfold py_len; lia).
  change (Z.to_nat 0) with 0%nat. rewrite drop_0. f_equal.
  unfold py_bound, py_len. simpl. lia.
Qed.

Lemma paths_chars si (seq : list pystr) a :
  a ∈ paths si seq → (λ e : entry, e.2.1) <$> a = concat (py_slice seq 0 (-1)).
Proof.
  rewrite py_slice_init.
  revert si a. induction seq as [|s seq IH]; intros si a.
  - by intros ->%list_elem_of_singleton.
  - destruct seq as [|t seq]; [by intros ->%list_elem_of_singleton|].
    intros (a1 & a2 & -> & Ha1 & Ha2)%paths_cons_elem.
    rewrite fmap_app, (pieces_chars _ _ _ _ _ Ha1), (IH _ _ Ha2).
    simpl. by rewrite Nat.sub_0_r.
Qed.

Lemma elem_of_positions x y si (seq : list pystr) :
  (x, y) ∈ positions si seq ↔
  ∃ (i : nat) s, x = si + Z.of_nat i ∧ seq !! i = Some s
                 ∧ (S i < length seq)%nat ∧ 0 ≤ y < py_len s.
Proof.
  revert si. induction seq as [|s seq IH]; intros si.
  - split; [by intros ?%elem_of_nil|]. by intros (i & s & _ & ? & _).
  - destruct seq as [|t seq].
    + split; [by intros ?%elem_of_nil|]. intros (i & s' & _ & _ & Hi & _).
      simpl in Hi. lia.
    + rewrite positions_cons2. unfold rest_positions.
      rewrite elem_of_app, elem_of_row_positions, IH. split.
      * intros [[-> Hy]|(i & s' & -> & Hs' & Hi & Hy)].
        -- exists 0%nat, s. simpl. split_and!; first [done|lia].
        -- exists (S i), s'. simpl in *. split_and!; first [done|lia].
      * intros ([|i] & s' & -> & Hs' & Hi & Hy).
        -- left. injection Hs' as ->. lia.
        -- right. exists i, s'. simpl in *. split_and!; first [done|lia].
Qed.

(** What the dictionary of a path holds on each string: a cut of the next
    string, stored with the characters. *)
Lemma paths_rows (seq : list pystr) :
  ∀ si a, a ∈ paths si seq →
  ∀ (i : nat) s t, seq !! i = Some s → seq !! S i = Some t →
  ∃ ws, length ws = length s
        ∧ (s ≠ [] → concat ws = t)
        ∧ (t ≠ [] ∨ (2 ≤ length s)%nat → Forall (λ w, w ≠ []) ws)
        ∧ ∀ j : nat, (list_to_map a : derivation) !! (si + Z.of_nat i, Z.of_nat j)
                      = zip s ws !! j.
Proof.
  induction seq as [|s0 seq IH]; intros si a Ha i s t Hs Ht; [done|].
  destruct seq as [|t0 rest]; [done|].
  apply paths_cons_elem in Ha as (a1 & a2 & -> & Ha1 & Ha2).
  rewrite list_to_map_app.
  destruct i as [|i].
  - injection Hs as ->. injection Ht as ->.
    apply pieces_sound in Ha1 as (ws & -> & Hlen & Hcat & Hne).
    exists ws. split_and!; [done..|]. intros j.
    rewrite lookup_union, Z.add_0_r.
    rewrite (not_elem_of_list_to_map_1 a2).
    + rewrite <- (lookup_row_entries si 0 s ws j Hlen), Z.add_0_l.
      by destruct (list_to_map (row_entries si 0 s ws) !! (si, Z.of_nat j)).
    + rewrite (paths_keys _ _ _ Ha2). intros H%elem_of_positions_ge. lia.
  - destruct (IH (si + 1) a2 Ha2 i s t Hs Ht) as (ws & Hlen & Hcat & Hne & Hlook).
    exists ws. split_and!; [done..|]. intros j.
    rewrite lookup_union, (not_elem_of_list_to_map_1 a1).
    + rewrite <- Hlook. replace (si + Z.of_nat (S i)) with (si + 1 + Z.of_nat i) by lia.
      by destruct (list_to_map a2 !! (si + 1 + Z.of_nat i, Z.of_nat j)).
    + rewrite (pieces_keys _ _ _ _ _ Ha1), elem_of_row_positions. lia.
Qed.

(** Every assignment that cuts each next string into non-empty pieces is
    the dictionary of an enumerated path. *)
Lemma paths_complete (seq : list pystr) (d : derivation) :
  ∀ si,
  (∀ (i : nat) s t, seq !! i = Some s → seq !! S i = Some t →
     ∃ ws, length ws = length s ∧ Forall (λ w, w ≠ []) ws ∧ concat ws = t
           ∧ ∀ j : nat, (j < length s)%nat →
                d !! (si + Z.of_nat i, Z.of_nat j) = zip s ws !! j) →
  ∃ a, a ∈ paths si seq ∧ ∀ k v, (k, v) ∈ a → d !! k = Some v.
Proof.
  induction seq as [|s seq IH]; intros si Hrows.
  - exists []. split; [by apply list_elem_of_singleton|]. by intros ?? ?%elem_of_nil.
  - destruct seq as [|t rest].
    + exists []. split; [by apply list_elem_of_singleton|]. by intros ?? ?%elem_of_nil.
    + destruct (Hrows 0%nat s t) as (ws & Hlen & Hne & Hcat & Hlook); [done..|].
      destruct (IH (si + 1)) as (a2 & Ha2 & Hd2).
      { intros i s' t' Hs' Ht'.
        destruct (Hrows (S i) s' t') as (ws' & ? & ? & ? & Hlook'); [done..|].
        exists ws'. split_and!; [done..|]. intros j Hj. rewrite <- Hlook' by done.
        f_equal. f_equal. lia. }
      exists (row_entries si 0 s ws ++ a2). split.
      * apply paths_cons_elem. eexists _, _. split_and!; [done| |done].
        by apply pieces_complete.
      * intros k v [Hin|Hin]%elem_of_app; [|by apply Hd2].
        apply list_elem_of_lookup in Hin as [j Hj]. unfold row_entries in Hj.
        apply lookup_zip_with_Some in Hj as (k' & v' & [= <- <-] & Hk & Hv).
        unfold row_positions in Hk. rewrite list_lookup_fmap in Hk.
        destruct (List.seq 0 (length s) !! j) as [j'|] eqn:Hseq; [|done].
        apply lookup_seq in Hseq as [-> Hj']. injection Hk as <-.
        rewrite <- Hv, <- Hlook by done. f_equal. f_equal; lia.
Qed.

(** ** The partition invariant *)

Lemma assigned_Some (d : derivation) (i : Z) (n : nat) (ws : list pystr) :
  assigned d i n = Some ws ↔
  length ws = n ∧ ∀ (j : nat) w, ws !! j = Some w → snd <$> d !! (i, Z.of_nat j) = Some w.
Proof.
  unfold assigned. rewrite mapM_Some. split.
  - intros H. pose proof (Forall2_length _ _ _ H) as Hlen.
    rewrite length_seq in Hlen. split; [done|]. intros j w Hw.
    eapply (Forall2_lookup_lr _ _ _ j j) in H; [done| |done].
    apply lookup_seq. split; [done|]. apply lookup_lt_Some in Hw. lia.
  - intros [Hlen H]. apply Forall2_same_length_lookup_2.
    + by rewrite length_seq.
    + intros j j' w [-> _]%lookup_seq Hw. by apply H.
Qed.

Lemma assigned_zip (d : derivation) (i : Z) (s : pystr) (ws : list pystr) :
  length ws = length s →
  (∀ j : nat, d !! (i, Z.of_nat j) = zip s ws !! j) →
  assigned d i (length s) = Some ws.
Proof.
  intros Hlen Hlook. apply assigned_Some. split; [done|]. intros j w Hw.
  rewrite Hlook. destruct (lookup_lt_is_Some_2 s j) as [c Hc].
  { apply lookup_lt_Some in Hw. lia. }
  assert (zip s ws !! j = Some (c, w)) as ->; [|done].
  apply lookup_zip_with_Some. eauto.
Qed.

(** Where no non-final string is empty, every enumerated derivation
    satisfies the partition invariant. *)
Lemma derivations_partition (seq : list pystr) ds d :
  Forall (λ s, s ≠ []) (py_slice seq 0 (-1)) →
  get_derivations seq = ret ds → d ∈ ds → partition_invariant seq d.
Proof.
  intros Hne Hds Hd i s t Hs Ht.
  rewrite get_derivations_paths in Hds by by intros ->.
  injection Hds as <-. apply list_elem_of_fmap in Hd as (a & -> & Ha).
  destruct (paths_rows seq 0 a Ha i s t Hs Ht) as (ws & Hlen & Hcat & _ & Hlook).
  unfold row_concat. rewrite (assigned_zip _ _ s ws); [|done|].
  - simpl. f_equal. apply Hcat.
    rewrite py_slice_init in Hne. rewrite Forall_forall in Hne. apply Hne.
    apply (list_elem_of_lookup_2 _ i).
    rewrite lookup_take_lt; [done|]. apply lookup_lt_Some in Ht. lia.
  - intros j. rewrite <- Hlook. f_equal.
Qed.

(** Every derivation the search returns holds, at each position, the
    character at that position; its substrings are non-empty when no string
    after the first is empty. *)
Lemma derivations_entries (seq : list pystr) ds d i j c w :
  get_derivations seq = ret ds → d ∈ ds → d !! (i, j) = Some (c, w) →
  ∃ s, 0 ≤ i < py_len seq - 1 ∧ py_get seq i = Some s
       ∧ 0 ≤ j < py_len s ∧ py_get s j = Some c
       ∧ (Forall (λ t, t ≠ []) (drop 1 seq) → w ≠ []).
Proof.
  intros Hds Hd Hlook.
  destruct (decide (seq = [])) as [->|Hseq]; [done|].
  rewrite get_derivations_paths in Hds by done.
  injection Hds as <-. apply list_elem_of_fmap in Hd as (a & -> & Ha).
  assert (Hin : (i, j) ∈ positions 0 seq).
  { rewrite <- (paths_keys _ _ _ Ha). apply list_elem_of_fmap.
    apply elem_of_list_to_map_2 in Hlook. by exists ((i, j), (c, w)). }
  apply elem_of_positions in Hin as (n & s & -> & Hs & Hn & Hj).
  destruct (lookup_lt_is_Some_2 seq (S n) Hn) as [t Ht].
  destruct (paths_rows seq 0 a Ha n s t Hs Ht) as (ws & Hlen & _ & Hne & Hrow).
  specialize (Hrow (Z.to_nat j)). rewrite Z2Nat.id in Hrow by lia.
  rewrite Z.add_0_l in *. rewrite Hlook in Hrow. symmetry in Hrow.
  apply lookup_zip_with_Some in Hrow as (c' & w' & [= <- <-] & Hc & Hw).
  exists s. rewrite !py_get_nat, Nat2Z.id by lia. unfold py_len in *.
  split_and!; [lia..|done|lia|lia|done|].
  intros Hall. assert (t ≠ []) as Ht'.
  { rewrite Forall_forall in Hall. apply Hall.
    apply (list_elem_of_lookup_2 _ n). by rewrite lookup_drop. }
  rewrite Forall_forall in Hne. apply Hne; [by left|].
  by apply (list_elem_of_lookup_2 _ (Z.to_nat j)).
Qed.

Lemma valid_derivation_rows (seq : list pystr) (d : derivation) :
  valid_derivation seq d →
  ∀ (i : nat) s t, seq !! i = Some s → seq !! S i = Some t →
    ∃ ws, length ws = length s ∧ Forall (λ w, w ≠ []) ws ∧ concat ws = t
          ∧ ∀ j : nat, (j < length s)%nat →
               d !! (0 + Z.of_nat i, Z.of_nat j) = zip s ws !! j.
Proof.
  intros (_ & Hent & Hpart) i s t Hs Ht.
  specialize (Hpart i s t Hs Ht). unfold row_concat in Hpart.
  apply fmap_Some in Hpart as (ws & Hws & ->).
  apply assigned_Some in Hws as [Hlen Hws].
  assert (Hrow : ∀ (j : nat) w, ws !! j = Some w →
            ∃ c, d !! (Z.of_nat i, Z.of_nat j) = Some (c, w) ∧ s !! j = Some c ∧ w ≠ []).
  { intros j w Hw. specialize (Hws j w Hw).
    apply fmap_Some in Hws as ([c w'] & Hd & ->). simpl.
    destruct (Hent _ _ _ _ Hd) as [(s' & Hs' & Hc) Hne].
    rewrite py_get_nat, Nat2Z.id, Hs in Hs' by lia. injection Hs' as <-.
    rewrite py_get_nat, Nat2Z.id in Hc by lia. eauto. }
  exists ws. split_and!; [done| |done|].
  - apply Forall_lookup. intros j w Hw. by destruct (Hrow j w Hw) as (c & _ & _ & ?).
  - intros j Hj. destruct (lookup_lt_is_Some_2 ws j) as [w Hw]; [lia|].
    destruct (Hrow j w Hw) as (c & Hd & Hc & _). rewrite Z.add_0_l, Hd.
    symmetry. apply lookup_zip_with_Some. eauto.
Qed.

Lemma valid_derivation_enumerated (seq : list pystr) (d : derivation) :
  valid_derivation seq d → d ∈ (list_to_map <$> paths 0 seq : list derivation).
Proof.
  intros Hvalid.
  destruct (paths_complete seq d 0 (valid_derivation_rows seq d Hvalid))
    as (a & Ha & Hd).
  apply list_elem_of_fmap. exists a. split; [|done].
  apply map_eq. intros [i j].
  destruct (list_to_map a !! (i, j)) as [v|] eqn:Hv.
  - apply elem_of_list_to_map_2 in Hv. by apply Hd.
  - apply not_elem_of_list_to_map in Hv. rewrite (paths_keys _ _ _ Ha) in Hv.
    apply eq_None_not_Some. intros His. apply Hv.
    apply Hvalid in His as (s & Hi & Hs & Hj).
    apply elem_of_positions. exists (Z.to_nat i), s.
    rewrite py_get_nat in Hs by lia. unfold py_len in Hi.
    split_and!; first [done|lia].
Qed.

(** C2. For a sequence of at least two strings, [get_derivations] returns
    a list that holds every valid derivation (every total mapping of the
    positions of the non-final strings to their character and a non-empty
    substring, the substrings of each string partitioning the next one)
    and holds no mapping twice. *)
Theorem get_derivations_exactly_once (seq : list pystr) :
  (2 ≤ length seq)%nat →
  ∃ ds, get_derivations seq = ret ds
        ∧ NoDup ds
        ∧ ∀ d, valid_derivation seq d → d ∈ ds.
Proof.
  intros Hlen. exists (list_to_map <$> paths 0 seq). split_and!.
  - apply get_derivations_paths. intros ->. simpl in Hlen. lia.
  - apply derivations_NoDup.
  - apply valid_derivation_enumerated.
Qed.

Lemma get_derivations_exactly_once_witness :
  ∃ ds, get_derivations [str "A"; str "AB"; str "ABBA"] = ret ds
        ∧ NoDup ds
        ∧ ∀ d, valid_derivation [str "A"; str "AB"; str "ABBA"] d → d ∈ ds.
Proof.
  apply (get_derivations_exactly_once [str "A"; str "AB"; str "ABBA"]).
  simpl. lia.
Defined.

(** Where no string of the sequence is empty, the derivations returned are
    exactly the valid ones. *)
Lemma derivations_valid (seq : list pystr) ds d :
  Forall (λ s, s ≠ []) seq →
  get_derivations seq = ret ds → d ∈ ds → valid_derivation seq d.
Proof.
  intros Hne Hds Hd. split_and!.
  - intros i j. split.
    + intros [[c w] Hlook].
      destruct (derivations_entries seq ds d i j c w Hds Hd Hlook)
        as (s & Hi & Hs & Hj & _). eauto.
    + intros (s & Hi & Hs & Hj).
      destruct (decide (seq = [])) as [->|Hseq]; [unfold py_len in Hi; simpl in Hi; lia|].
      rewrite get_derivations_paths in Hds by done.
      injection Hds as <-. apply list_elem_of_fmap in Hd as (a & -> & Ha).
      apply not_eq_None_Some. intros Hnone.
      apply not_elem_of_list_to_map in Hnone. apply Hnone.
      rewrite (paths_keys _ _ _ Ha). apply elem_of_positions.
      exists (Z.to_nat i), s. rewrite py_get_nat in Hs by lia.
      unfold py_len in Hi. split_and!; first [done|lia].
  - intros i j c w Hlook.
    destruct (derivations_entries seq ds d i j c w Hds Hd Hlook)
      as (s & Hi & Hs & Hj & Hc & Hw).
    split; [eauto|]. apply Hw. by apply Forall_drop.
  - eapply derivations_partition; [|done..].
    rewrite py_slice_init. by apply Forall_take.
Qed.

(** ** Folds over dictionaries *)

Section map_sum.

Context {B : Type} (op : B → B → B) (e : B).

Context `{!Assoc (=) op, !Comm (=) op}.

Context `{Countable K} {A : Type}.

Lemma map_sum_empty (w : K → A → B) : map_sum op e w ∅ = e.
Proof. apply map_fold_empty. Qed.

Lemma map_sum_insert (w : K → A → B) (m : gmap K A) k a :
  m !! k = None → map_sum op e w (<[k := a]> m) = op (map_sum op e w m) (w k a).
Proof.
  intros Hk. unfold map_sum.
  apply (map_fold_insert_L (λ k a acc, op acc (w k a))); [|done].
  intros j1 j2 z1 z2 y _ _ _.
  by rewrite <- !(assoc_L op), (comm_L op (w j2 z2)).
Qed.

Lemma map_sum_lookup (w : K → A → B) (m : gmap K A) k a :
  m !! k = Some a → map_sum op e w m = op (map_sum op e w (delete k m)) (w k a).
Proof.
  intros Hk. rewrite <- (insert_delete_id m k a) at 1 by done.
  apply map_sum_insert, lookup_delete_eq.
Qed.

Lemma foldr_keys_delete (w : K → A → B) (m : gmap K A) k (ks : list K) :
  k ∉ ks →
  foldr (λ j acc, from_option (λ a, op acc (w j a)) acc (delete k m !! j)) e ks
  = foldr (λ j acc, from_option (λ a, op acc (w j a)) acc (m !! j)) e ks.
Proof.
  induction ks as [|k' ks IH]; [done|].
  intros [Hne Hk]%not_elem_of_cons. simpl.
  by rewrite IH, lookup_delete_ne by done.
Qed.

(** The fold is the fold over any duplicate-free list of the keys. *)
Lemma map_sum_keys (w : K → A → B) (ks : list K) :
  ∀ m : gmap K A, NoDup ks → (∀ k, k ∈ ks ↔ is_Some (m !! k)) →
    map_sum op e w m = foldr (λ k acc, from_option (λ a, op acc (w k a)) acc (m !! k)) e ks.
Proof.
  induction ks as [|k ks IH]; intros m Hnd Hks.
  - assert (m = ∅) as ->; [|apply map_sum_empty].
    apply map_empty. intros k. apply eq_None_not_Some. intros His%Hks.
    by apply elem_of_nil in His.
  - apply NoDup_cons in Hnd as [Hk Hnd].
    destruct (proj1 (Hks k)) as [a Ha]; [by left|].
    rewrite (map_sum_lookup w m k a Ha). simpl. rewrite Ha. simpl. f_equal.
    rewrite (IH (delete k m) Hnd).
    + by apply foldr_keys_delete.
    + intros k'. rewrite lookup_delete. destruct (decide (k = k')) as [<-|Hne].
      * split; [done|]. by intros [? ?].
      * rewrite <- Hks, elem_of_cons. split; [by right|]. by intros [->|?].
Qed.

End map_sum.

Global Instance Zadd_assoc : Assoc (=) Z.add := Z.add_assoc.

Global Instance Zadd_comm : Comm (=) Z.add := Z.add_comm.

Global Instance Zmul_assoc : Assoc (=) Z.mul := Z.mul_assoc.

Global Instance Zmul_comm : Comm (=) Z.mul := Z.mul_comm.

Global Instance Qcplus_assoc' : Assoc (=) Qcplus := Qcplus_assoc.

Global Instance Qcplus_comm' : Comm (=) Qcplus := Qcplus_comm.

Lemma foldr_ext_in {A B} (f g : A → B → B) (e : B) (l : list A) :
  (∀ x acc, x ∈ l → f x acc = g x acc) → foldr f e l = foldr g e l.
Proof.
  induction l as [|x l IH]; intros Hfg; [done|]. simpl.
  rewrite IH, Hfg; [done|by left|]. intros y acc Hy. apply Hfg. by right.
Qed.

(** ** Counting with dictionaries *)

Section counting.

Context `{Countable K}.

Implicit Types (d : gmap K Z) (l : list K) (k : K).

Lemma occ_nil k : occ k [] = 0.
Proof. done. Qed.

Lemma occ_cons k k' l :
  occ k (k' :: l) = occ k l + (if decide (k = k') then 1 else 0).
Proof.
  unfold occ. rewrite filter_cons. destruct (decide (k = k')); simpl; lia.
Qed.

Lemma occ_nonneg k l : 0 ≤ occ k l.
Proof. unfold occ. lia. Qed.

Lemma occ_zero k l : occ k l = 0 ↔ k ∉ l.
Proof.
  induction l as [|k' l IH].
  - split; [intros _; apply not_elem_of_nil|done].
  - rewrite occ_cons, not_elem_of_cons, <- IH. pose proof (occ_nonneg k l).
    destruct (decide (k = k')) as [->|Hne].
    + split; [lia|]. by intros [? _].
    + split; [intros; split; [done|lia]|]. intros [_ ?]. lia.
Qed.

Lemma occ_elem_of k l : k ∈ l ↔ occ k l ≠ 0.
Proof.
  rewrite occ_zero. split; [by intros ??|]. intros Hk. by destruct (decide (k ∈ l)).
Qed.

Lemma occ_perm k l1 l2 : l1 ≡ₚ l2 → occ k l1 = occ k l2.
Proof. intros Hp. unfold occ. by rewrite Hp. Qed.

Lemma occ_app k l1 l2 : occ k (l1 ++ l2) = occ k l1 + occ k l2.
Proof. unfold occ. rewrite filter_app, length_app. lia. Qed.

Lemma lookup_incr k k' d :
  incr k d !! k' = if decide (k = k') then Some (default 0 (d !! k) + 1) else d !! k'.
Proof. unfold incr. apply lookup_insert. Qed.

Lemma counts_of_nil : counts_of ([] : list K) ∅.
Proof. intros k. by rewrite lookup_empty. Qed.

Lemma counts_of_incr k l d : counts_of l d → counts_of (k :: l) (incr k d).
Proof.
  intros Hd k'. rewrite lookup_incr, occ_cons. pose proof (occ_nonneg k' l).
  destruct (decide (k = k')) as [<-|Hne].
  - rewrite (decide_True (P := k = k)) by done. rewrite decide_False by lia.
    rewrite Hd. destruct (decide (occ k l = 0)) as [->|]; simpl; f_equal; lia.
  - rewrite (decide_False (P := k' = k)) by done. rewrite Z.add_0_r. apply Hd.
Qed.

Lemma counts_of_perm l1 l2 d : l1 ≡ₚ l2 → counts_of l1 d → counts_of l2 d.
Proof. intros Hp Hd k. rewrite <- (occ_perm k l1 l2 Hp). apply Hd. Qed.

Lemma counts_of_foldr l : counts_of l (foldr incr ∅ l).
Proof.
  induction l as [|k l IH]; [apply counts_of_nil|]. by apply counts_of_incr.
Qed.

Lemma counts_of_foldl l : ∀ l0 d,
  counts_of l0 d → counts_of (l0 ++ l) (foldl (λ acc k, incr k acc) d l).
Proof.
  induction l as [|k l IH]; intros l0 d Hd; simpl.
  - by rewrite app_nil_r.
  - eapply counts_of_perm; [|apply (IH (k :: l0)), counts_of_incr, Hd].
    simpl. by rewrite Permutation_middle.
Qed.

Lemma counts_of_inj l d1 d2 : counts_of l d1 → counts_of l d2 → d1 = d2.
Proof. intros H1 H2. apply map_eq. intros k. by rewrite H1, H2. Qed.

Lemma counts_of_positive l d k n : counts_of l d → d !! k = Some n → 0 < n ∧ k ∈ l.
Proof.
  intros Hd Hk. rewrite Hd in Hk. pose proof (occ_nonneg k l).
  destruct (decide (occ k l = 0)) as [|Hne]; [done|]. injection Hk as <-.
  split; [lia|]. by apply (proj2 (occ_elem_of k l)).
Qed.

(** The product the program folds over a dictionary of counts. *)
Lemma pow_product_counts l d : counts_of l d → pow_product d = concentration l.
Proof.
  intros Hd. unfold pow_product, concentration.
  change (map_fold (λ (_ : K) (a factor : Z), factor * a ^ a) 1 d)
    with (map_sum Z.mul 1 (λ (_ : K) (a : Z), a ^ a) d).
  rewrite (map_sum_keys Z.mul 1 _ (remove_dups l)).
  - apply foldr_ext_in. intros k acc Hk. apply (proj1 (elem_of_remove_dups _ _)) in Hk.
    rewrite Hd. rewrite decide_False; [done|]. by apply (proj1 (occ_elem_of k l)).
  - apply NoDup_remove_dups.
  - intros k. rewrite elem_of_remove_dups, Hd.
    destruct (decide (occ k l = 0)) as [Hz|Hz].
    + apply occ_zero in Hz. split; [done|]. by intros [? ?].
    + split; [by eexists|]. intros _. by apply (proj2 (occ_elem_of k l)).
Qed.

End counting.

(** ** The counting functions of utils.py *)

Lemma count_chars_counts (strings : list pystr) :
  counts_of (concat strings) (count_chars strings).
Proof.
  unfold count_chars.
  cut (∀ l0 d, counts_of l0 d →
         counts_of (l0 ++ concat strings)
           (foldl (λ acc s, foldl (λ acc c, incr c acc) acc s) d strings)).
  { intros Hgen. apply (Hgen [] ∅), counts_of_nil. }
  induction strings as [|s strings IH]; intros l0 d Hd; simpl.
  - by rewrite app_nil_r.
  - rewrite app_assoc. apply IH. by apply counts_of_foldl.
Qed.

Lemma get_prod_count_counts (d : derivation) :
  counts_of (productions_of d) (get_prod_count d).
Proof.
  unfold get_prod_count, productions_of. rewrite map_fold_foldr.
  replace (foldr (uncurry (λ (_ : Z * Z) (production : production) pc, incr production pc))
             ∅ (map_to_list d))
    with (foldr (λ kv pc, incr kv.2 pc) (∅ : gmap production Z) (map_to_list d)).
  - induction (map_to_list d) as [|[k v] l IH]; [apply counts_of_nil|].
    rewrite fmap_cons. simpl. by apply counts_of_incr.
  - apply foldr_ext_in. by intros [k v] acc _.
Qed.

Lemma non_constant_factor_spec (d : derivation) :
  non_constant_factor d = concentration_factor d.
Proof. apply pow_product_counts, get_prod_count_counts. Qed.

Lemma constant_factor_spec (seq : list pystr) cf cc :
  constant_factor seq = ret (cf, cc) →
  counts_of (symbols_of seq) cc
  ∧ concentration (symbols_of seq) ≠ 0
  ∧ cf = (1 / Qc_of_Z (concentration (symbols_of seq)))%Qc.
Proof.
  unfold constant_factor, symbols_of.
  pose proof (count_chars_counts (py_slice seq 0 (-1))) as Hcc.
  rewrite (pow_product_counts _ _ Hcc).
  destruct (Z.eqb_spec (concentration (concat (py_slice seq 0 (-1)))) 0); [done|].
  by intros [= <- <-].
Qed.

(** ** The selection of solver_q1.py *)

Lemma bind_ret_inv {A B} (c : py A) (k : A → py B) b :
  bind c k = ret b → ∃ a, c = ret a ∧ k a = ret b.
Proof. destruct c as [[a|e]|]; [eauto|done..]. Qed.

Lemma py_max_spec (l : list Z) x :
  py_max l = ret x → x ∈ l ∧ ∀ y, y ∈ l → y ≤ x.
Proof.
  destruct l as [|x0 l]; [done|]. intros [= <-].
  cut (∀ a, foldl Z.max a l ∈ a :: l ∧ a ≤ foldl Z.max a l
            ∧ ∀ y, y ∈ l → y ≤ foldl Z.max a l).
  { intros Hgen. destruct (Hgen x0) as (Hin & Hle & Hmax). split; [done|].
    intros y [->|Hy]%elem_of_cons; auto. }
  induction l as [|z l IH]; intros a; simpl.
  - split_and!; [by left|lia|]. by intros y ?%elem_of_nil.
  - destruct (IH (Z.max a z)) as (Hin & Hle & Hmax). split_and!.
    + apply elem_of_cons in Hin as [Hin|Hin]; [|by do 2 right].
      rewrite Hin. destruct (Z.max_spec a z) as [[_ ->]|[_ ->]]; [right|]; by left.
    + lia.
    + intros y [->|Hy]%elem_of_cons; [lia|auto].
Qed.

Lemma py_index_spec (l : list Z) x i :
  py_index l x = ret i →
  ∃ n : nat, i = Z.of_nat n ∧ l !! n = Some x
             ∧ ∀ (n' : nat) y, (n' < n)%nat → l !! n' = Some y → y ≠ x.
Proof.
  revert i. induction l as [|y l IH]; intros i; simpl; [done|].
  destruct (Z.eqb_spec y x) as [->|Hne].
  - intros [= <-]. exists 0%nat. split_and!; [done..|]. intros; lia.
  - intros (i' & Hi' & [= <-])%bind_ret_inv.
    destruct (IH i' Hi') as (n & -> & Hn & Hfirst).
    exists (S n). split_and!; [lia|done|].
    intros [|n'] y' Hlt; simpl; [by intros [= <-]|]. apply Hfirst. lia.
Qed.

Lemma py_item_spec {A} (l : list A) (n : nat) a :
  py_item l (Z.of_nat n) = ret a → l !! n = Some a.
Proof.
  unfold py_item. rewrite py_get_nat, Nat2Z.id by lia.
  destruct (l !! n); [by intros [= <-]|done].
Qed.

(** What a returning call of [overall_dervs_maxprob] has computed. *)
Lemma overall_dervs_maxprob_inv (seq : list pystr) dist best p :
  overall_dervs_maxprob seq = ret (dist, best, p) →
  ∃ ds (n : nat) cf cc,
    get_derivations seq = ret ds
    ∧ ds !! n = Some best
    ∧ (∀ d, d ∈ ds → non_constant_factor d ≤ non_constant_factor best)
    ∧ (∀ (n' : nat) d', (n' < n)%nat → ds !! n' = Some d' →
         non_constant_factor d' < non_constant_factor best)
    ∧ constant_factor seq = ret (cf, cc)
    ∧ build_distribution (get_prod_count best) cc = ret dist
    ∧ p = (Qc_of_Z (non_constant_factor best) * cf)%Qc.
Proof.
  unfold overall_dervs_maxprob, optimal_scaled_probability_val.
  intros (ds & Hds & H)%bind_ret_inv.
  apply bind_ret_inv in H as (max_prob & Hmax & H).
  apply bind_ret_inv in H as (max_index & Hidx & H).
  apply bind_ret_inv in H as (best' & Hbest & H).
  apply bind_ret_inv in H as ([cf cc] & Hcf & H).
  apply bind_ret_inv in H as (dist' & Hdist & [= <- <- <-]).
  apply py_max_spec in Hmax as [_ Hmax].
  apply py_index_spec in Hidx as (n & -> & Hn & Hfirst).
  apply py_item_spec in Hbest.
  rewrite list_lookup_fmap, Hbest in Hn. injection Hn as Hn.
  exists ds, n, cf, cc. rewrite Hn. split_and!; try done.
  - intros d Hd. apply Hmax. by apply list_elem_of_fmap_2.
  - intros n' d' Hlt Hd'.
    assert (non_constant_factor d' ≤ max_prob).
    { apply Hmax, list_elem_of_fmap_2. by eapply list_elem_of_lookup_2. }
    assert (non_constant_factor d' ≠ max_prob); [|lia].
    apply (Hfirst n'); [done|]. by rewrite list_lookup_fmap, Hd'.
Qed.

(** ** The distribution of solver_q1.py *)

Lemma build_distribution_spec (pc : gmap production Z) (cc : gmap ascii Z) dist :
  build_distribution pc cc = ret dist →
  dist = map_imap (λ pr freq, Some (relative_frequency cc pr freq)) pc.
Proof.
  unfold build_distribution. revert dist.
  apply (map_fold_weak_ind (λ r m, ∀ dist, r = ret dist →
           dist = map_imap (λ pr freq, Some (relative_frequency cc pr freq)) m)).
  - intros dist [= <-]. by rewrite map_imap_empty.
  - intros pr freq m r Hm IH dist Hdist.
    apply bind_ret_inv in Hdist as (dist' & -> & Hdist).
    rewrite (IH dist' eq_refl) in Hdist.
    rewrite (map_imap_insert_Some _ _ _ _ (relative_frequency cc pr freq)) by done.
    unfold relative_frequency. destruct (cc !! pr.1) as [n|]; [|done].
    destruct (n =? 0); [done|]. by injection Hdist as <-.
Qed.



(** The productions of an enumerated derivation rewrite, position by
    position, the characters of the non-final strings. *)
Lemma productions_symbols (seq : list pystr) ds d :
  get_derivations seq = ret ds → d ∈ ds → (productions_of d).*1 ≡ₚ symbols_of seq.
Proof.
  intros Hds Hd. destruct (decide (seq = [])) as [->|Hseq]; [done|].
  rewrite get_derivations_paths in Hds by done. injection Hds as <-.
  apply list_elem_of_fmap in Hd as (a & -> & Ha).
  unfold productions_of, symbols_of. rewrite <- (paths_chars 0 seq a Ha).
  rewrite map_to_list_to_map.
  - by rewrite <- list_fmap_compose.
  - rewrite (paths_keys _ _ _ Ha). apply positions_NoDup.
Qed.

(** ** Properties of the single-derivation selector *)

(** C3. When [overall_dervs_maxprob] returns, the derivation it returns is
    the first one, in the order of [get_derivations], whose concentration
    factor is the greatest among the enumerated derivations: it is in the
    list, none has a greater factor, and every earlier one has a strictly
    smaller factor. *)
Theorem overall_dervs_maxprob_first_maximum (seq : list pystr) dist best p :
  overall_dervs_maxprob seq = ret (dist, best, p) →
  ∃ ds (n : nat),
    get_derivations seq = ret ds
    ∧ ds !! n = Some best
    ∧ (∀ d, d ∈ ds → concentration_factor d ≤ concentration_factor best)
    ∧ (∀ (n' : nat) d', (n' < n)%nat → ds !! n' = Some d' →
         concentration_factor d' < concentration_factor best).
Proof.
  intros (ds & n & cf & cc & Hds & Hn & Hmax & Hfirst & _)%overall_dervs_maxprob_inv.
  exists ds, n. split_and!; [done..| |].
  - intros d Hd. rewrite <- !non_constant_factor_spec. by apply Hmax.
  - intros n' d' Hlt Hd'. rewrite <- !non_constant_factor_spec. by eapply Hfirst.
Qed.

Lemma sample_result_returned :
  overall_dervs_maxprob sample_seq
  = ret (sample_result.1.1, sample_result.1.2, sample_result.2).
Proof. vm_cast_no_check (eq_refl (overall_dervs_maxprob sample_seq)). Qed.

Lemma overall_dervs_maxprob_first_maximum_witness :
  ∃ ds (n : nat),
    get_derivations sample_seq = ret ds
    ∧ ds !! n = Some sample_result.1.2
    ∧ (∀ d, d ∈ ds → concentration_factor d ≤ concentration_factor sample_result.1.2)
    ∧ (∀ (n' : nat) d', (n' < n)%nat → ds !! n' = Some d' →
         concentration_factor d' < concentration_factor sample_result.1.2).
Proof.
  apply (overall_dervs_maxprob_first_maximum sample_seq
           sample_result.1.1 sample_result.1.2 sample_result.2).
  vm_cast_no_check (eq_refl (overall_dervs_maxprob sample_seq)).
Defined.

Lemma counts_of_default `{Countable K} (l : list K) (d : gmap K Z) k :
  counts_of l d → default 0 (d !! k) = occ k l.
Proof. intros Hd. rewrite Hd. by destruct (decide (occ k l = 0)) as [->|]. Qed.

(** ** Degenerate inputs *)

Lemma get_derivations_single (s : pystr) : get_derivations [s] = ret [∅].
Proof. by rewrite get_derivations_paths. Qed.

Lemma non_constant_factor_empty : non_constant_factor ∅ = 1.
Proof.
  unfold non_constant_factor, get_prod_count, pow_product. by rewrite !map_fold_empty.
Qed.

Lemma constant_factor_single (s : pystr) :
  constant_factor [s] = ret ((1 / Qc_of_Z 1)%Qc, ∅).
Proof.
  unfold constant_factor. rewrite py_slice_init. cbn [length Nat.sub take].
  unfold count_chars, pow_product. cbn [foldl]. by rewrite map_fold_empty.
Qed.

Lemma build_distribution_empty (cc : gmap ascii Z) : build_distribution ∅ cc = ret ∅.
Proof. apply map_fold_empty. Qed.

Lemma overall_dervs_maxprob_single (s : pystr) :
  overall_dervs_maxprob [s] = ret (∅, ∅, 1%Qc).
Proof.
  unfold overall_dervs_maxprob, optimal_scaled_probability_val.
  rewrite get_derivations_single. cbn [bind ret].
  rewrite fmap_cons, fmap_nil, non_constant_factor_empty.
  cbn [py_max foldl bind ret py_index]. change (1 =? 1) with true. cbn [bind ret].
  change (py_item [∅ : derivation] 0) with (ret (∅ : derivation)). cbn [bind ret].
  rewrite constant_factor_single. cbn [bind ret].
  unfold get_prod_count. rewrite map_fold_empty, build_distribution_empty.
  cbn [bind ret].
  assert (E : (Qc_of_Z 1 * (1 / Qc_of_Z 1))%Qc = 1%Qc)
    by (rewrite Z2Qc_inj_1; apply Qc_is_canon; reflexivity).
  by rewrite E.
Qed.

Lemma overall_dervs_maxprob_nil : overall_dervs_maxprob [] = raise IndexError.
Proof. done. Qed.

(** C10. On a sequence of exactly one string [get_derivations] returns the
    list whose only element is the empty mapping, and
    [overall_dervs_maxprob] returns the empty distribution, the empty
    derivation and the final probability 1. *)
Theorem single_string_sequence (s : pystr) :
  get_derivations [s] = ret [∅]
  ∧ overall_dervs_maxprob [s] = ret (∅, ∅, 1%Qc).
Proof. split; [apply get_derivations_single | apply overall_dervs_maxprob_single]. Qed.

(** C6, as stated, fails: on the one-string sequence ["A"], which has fewer
    than 2 strings, [overall_dervs_maxprob] raises nothing at all. *)
Lemma short_sequence_returns :
  (length [str "A"] < 2)%nat
  ∧ ¬ ∃ name, fails_with (overall_dervs_maxprob [str "A"]) name.
Proof.
  split; [simpl; lia|]. intros (name & e & He & _).
  by rewrite overall_dervs_maxprob_single in He.
Qed.

(** C6, amended. On a sequence of fewer than 2 strings
    [overall_dervs_maxprob] makes no check of its own: the empty sequence
    fails with the [IndexError] of [seq[string_index]] in the search, and a
    sequence of exactly one string returns the empty distribution, the
    empty derivation and the final probability 1. *)
Theorem overall_dervs_maxprob_short_sequence (seq : list pystr) :
  (length seq < 2)%nat →
  (seq = [] ∧ overall_dervs_maxprob seq = raise IndexError)
  ∨ (∃ s, seq = [s] ∧ overall_dervs_maxprob seq = ret (∅, ∅, 1%Qc)).
Proof.
  intros Hlen. destruct seq as [|s [|t seq]]; [by left| |simpl in Hlen; lia].
  right. exists s. split; [done|]. apply overall_dervs_maxprob_single.
Qed.

Lemma overall_dervs_maxprob_short_sequence_witness :
  ([str "A"] = [] ∧ overall_dervs_maxprob [str "A"] = raise IndexError)
  ∨ (∃ s, [str "A"] = [s] ∧ overall_dervs_maxprob [str "A"] = ret (∅, ∅, 1%Qc)).
Proof.
  apply (overall_dervs_maxprob_short_sequence [str "A"]). simpl. lia.
Defined.

Lemma get_derivations_AB_A : get_derivations [str "AB"; str "A"] = ret [].
Proof. vm_compute. reflexivity. Qed.

Lemma overall_dervs_maxprob_no_derivation (seq : list pystr) :
  get_derivations seq = ret [] → overall_dervs_maxprob seq = raise ValueError.
Proof. intros Hds. unfold overall_dervs_maxprob. by rewrite Hds. Qed.

(** C7, as stated, fails: ["AB", "A"] has no derivation, and
    [overall_dervs_maxprob] fails on it with an exception that is not a
    [NoDerivationError]. *)
Lemma no_derivation_error_class :
  get_derivations [str "AB"; str "A"] = ret []
  ∧ ¬ fails_with (overall_dervs_maxprob [str "AB"; str "A"]) "NoDerivationError".
Proof.
  split; [apply get_derivations_AB_A|]. intros (e & He & Hname).
  rewrite (overall_dervs_maxprob_no_derivation _ get_derivations_AB_A) in He.
  injection He as <-. discriminate Hname.
Qed.

(** C7, amended. When [get_derivations] returns the empty list,
    [overall_dervs_maxprob] fails with the [ValueError] that [max] raises
    on an empty list. *)
Theorem overall_dervs_maxprob_empty_enumeration (seq : list pystr) :
  get_derivations seq = ret [] →
  overall_dervs_maxprob seq = raise ValueError
  ∧ fails_with (overall_dervs_maxprob seq) "ValueError".
Proof.
  intros Hds. pose proof (overall_dervs_maxprob_no_derivation seq Hds) as Hraise.
  split; [done|]. by exists ValueError.
Qed.

Lemma overall_dervs_maxprob_empty_enumeration_witness :
  overall_dervs_maxprob [str "AB"; str "A"] = raise ValueError
  ∧ fails_with (overall_dervs_maxprob [str "AB"; str "A"]) "ValueError".
Proof.
  apply (overall_dervs_maxprob_empty_enumeration [str "AB"; str "A"]).
  vm_compute. reflexivity.
Defined.

(** C1 does not hold of the code. When a non-final string is empty the
    search moves on to the next string without looking at what that string
    is: on ["", "A"] it returns the empty mapping, whose substrings for
    string 0 concatenate to "" and not to "A". *)
Theorem get_derivations_empty_string :
  get_derivations [str ""; str "A"] = ret [∅]
  ∧ row_concat ∅ 0 (str "") = Some (str "")
  ∧ ¬ partition_invariant [str ""; str "A"] ∅.
Proof.
  split_and!; [by vm_compute..|].
  intros Hinv. by specialize (Hinv 0%nat (str "") (str "A") eq_refl eq_refl).
Qed.

Example restarts_example :
  count_of_successes (solve_with_restarts stay_put constant_generator tt [derivation_A_B] 3)
  = Some 1.
Proof. vm_compute. reflexivity. Qed.

(** ** The initial guess of [solve_s0l] *)

Lemma for_each_ret {S X} (xs : list X) (body : X → S → py S) (P : S → Prop) (st : S) :
  (∀ x s, x ∈ xs → P s → ∃ s', body x s = ret s' ∧ P s') →
  P st → ∃ st', for_each xs body st = ret st' ∧ P st'.
Proof.
  revert st. induction xs as [|x xs IH]; intros st Hbody Hst; [by exists st|].
  destruct (Hbody x st) as (s' & Hx & Hs'); [by left|done|].
  cbn [for_each]. rewrite Hx. cbn [bind ret]. apply IH; [|done].
  intros y s Hy. apply Hbody. by right.
Qed.

Lemma array_to_dict_returns (pairs_list : list production) (var_array : list Qc) :
  (length pairs_list ≤ length var_array)%nat →
  ∃ d, array_to_dict pairs_list var_array = ret d.
Proof.
  intros Hlen. unfold array_to_dict.
  match goal with
  | |- ∃ d, for_each ?xs ?body ?st = _ =>
    destruct (for_each_ret xs body (λ _, True) st) as (d & Hd & _);
      [|done|by exists d]
  end.
  intros i d Hi%elem_of_seq _.
  destruct (lookup_lt_is_Some_2 pairs_list i) as [pr ->]; [lia|].
  destruct (lookup_lt_is_Some_2 var_array i) as [v ->]; [lia|]. by eexists.
Qed.

Lemma array_to_dict_steps (pairs_list : list production) (var_array : list Qc) :
  ∀ (n o : nat) (d : distribution),
    (o + n = length pairs_list)%nat → (o ≤ length var_array)%nat →
    for_each (seq o n)
      (λ i d, match pairs_list !! i, var_array !! i with
              | Some pr, Some v => ret (<[pr := v]> d)
              | _, _ => raise IndexError
              end) d
    = if decide (o + n ≤ length var_array)%nat
      then ret (foldl (λ d '(pr, v), <[pr := v]> d) d
                  (zip (drop o pairs_list) (drop o var_array)))
      else raise IndexError.
Proof.
  induction n as [|n IH]; intros o d Hn Ho.
  - rewrite decide_True by lia. by rewrite drop_ge by lia.
  - cbn [seq for_each].
    destruct (lookup_lt_is_Some_2 pairs_list o) as [pr Hpr]; [lia|]. rewrite Hpr.
    destruct (decide (o < length var_array)%nat) as [Hlt|Hge].
    + destruct (lookup_lt_is_Some_2 var_array o Hlt) as [v Hv]. rewrite Hv.
      cbn [bind ret]. rewrite IH by lia.
      rewrite (drop_S pairs_list pr o Hpr), (drop_S var_array v o Hv).
      destruct (decide (S o + n ≤ length var_array)%nat);
        [rewrite decide_True by lia|rewrite decide_False by lia]; done.
    + rewrite (lookup_ge_None_2 var_array o) by lia.
      by rewrite decide_False by lia.
Qed.

Lemma array_to_dict_short (pairs_list : list production) (var_array : list Qc) :
  (length var_array < length pairs_list)%nat →
  array_to_dict pairs_list var_array = raise IndexError.
Proof.
  intros Hlen. unfold array_to_dict.
  rewrite (array_to_dict_steps pairs_list var_array (length pairs_list) 0 ∅) by lia.
  by rewrite decide_False by lia.
Qed.

(** Assignments [arr[idx] = v idx] for the indices of a list. *)
Lemma lookup_foldl_insert (v : nat → Qc) (indices : list nat) (arr : list Qc) (i : nat) :
  foldl (λ a idx, <[idx := v idx]> a) arr indices !! i
  = if decide (i ∈ indices) then (λ _, v i) <$> arr !! i else arr !! i.
Proof.
  revert arr. induction indices as [|idx indices IH]; intros arr; [done|].
  cbn [foldl]. rewrite IH.
  destruct (decide (i = idx)) as [->|Hne].
  - rewrite (decide_True (P := idx ∈ idx :: indices)) by (by left).
    destruct (decide (idx < length arr)%nat) as [Hlt|Hge].
    + rewrite list_lookup_insert_eq by done.
      destruct (lookup_lt_is_Some_2 arr idx Hlt) as [y ->].
      by destruct (decide (idx ∈ indices)).
    + rewrite list_insert_ge by lia. rewrite (lookup_ge_None_2 arr idx) by lia.
      by destruct (decide (idx ∈ indices)).
  - rewrite list_lookup_insert_ne by done.
    destruct (decide (i ∈ indices)) as [Hin|Hnin].
    + by rewrite decide_True by (by right).
    + rewrite decide_False; [done|]. by intros [?|?]%elem_of_cons.
Qed.

Lemma length_foldl_insert (v : nat → Qc) (indices : list nat) (arr : list Qc) :
  length (foldl (λ a idx, <[idx := v idx]> a) arr indices) = length arr.
Proof.
  revert arr. induction indices as [|idx indices IH]; intros arr; [done|].
  cbn [foldl]. by rewrite IH, length_insert.
Qed.

Lemma elem_of_indices_for_char (pairs_list : list production) (char : ascii) (i : nat) :
  i ∈ indices_for_char pairs_list char ↔ ∃ pr, pairs_list !! i = Some pr ∧ pr.1 = char.
Proof.
  unfold indices_for_char. rewrite list_elem_of_fmap. split.
  - intros ([i' pr] & -> & [Hc Hin]%list_elem_of_filter).
    apply elem_of_lookup_imap in Hin as (j & pr' & [= -> ->] & Hj). eauto.
  - intros (pr & Hi & Hc). exists (i, pr). split; [done|].
    apply list_elem_of_filter. split; [done|]. by apply (elem_of_lookup_imap_2 pair).
Qed.

Lemma arr_sum_ext (a b : list Qc) (indices : list nat) :
  (∀ i, i ∈ indices → a !! i = b !! i) → arr_sum a indices = arr_sum b indices.
Proof.
  unfold arr_sum. generalize 0%Qc.
  induction indices as [|i indices IH]; intros acc Hab; [done|].
  cbn [foldl].
  assert (arr_get a i = arr_get b i) as ->
    by (unfold arr_get; rewrite Hab; [done|by left]).
  apply IH. intros j Hj. apply Hab. by right.
Qed.

Lemma normalize_symbol_lookup (pairs_list : list production) (arr : list Qc)
    (char : ascii) (i : nat) :
  normalize_symbol pairs_list arr char !! i
  = if decide (i ∈ indices_for_char pairs_list char)
    then (λ _, renormalized pairs_list arr char i) <$> arr !! i
    else arr !! i.
Proof.
  unfold normalize_symbol, renormalized, divide_at, set_uniform.
  destruct (Qc_ltb tolerance (arr_sum arr (indices_for_char pairs_list char))).
  - apply (lookup_foldl_insert
             (λ idx, (arr_get arr idx
                      / arr_sum arr (indices_for_char pairs_list char))%Qc)).
  - apply (lookup_foldl_insert
             (λ _, (1 / Qc_of_Z (py_len (indices_for_char pairs_list char)))%Qc)).
Qed.

Lemma normalize_symbol_length (pairs_list : list production) (arr : list Qc) char :
  length (normalize_symbol pairs_list arr char) = length arr.
Proof.
  unfold normalize_symbol, divide_at, set_uniform.
  destruct (Qc_ltb _ _); apply length_foldl_insert.
Qed.

Lemma normalize_guess_length (pairs_list : list production) chars (arr : list Qc) :
  length (normalize_guess pairs_list chars arr) = length arr.
Proof.
  unfold normalize_guess. revert arr.
  induction chars as [|c chars IH]; intros arr; [done|].
  cbn [foldl]. by rewrite IH, normalize_symbol_length.
Qed.

Lemma renormalized_other (pairs_list : list production) (arr : list Qc) c c' i :
  c ≠ c' →
  renormalized pairs_list (normalize_symbol pairs_list arr c) c' i
  = renormalized pairs_list arr c' i ∨ i ∉ indices_for_char pairs_list c'.
Proof.
  intros Hne. destruct (decide (i ∈ indices_for_char pairs_list c')) as [Hi|]; [left|by right].
  assert (Hsame : ∀ j, j ∈ indices_for_char pairs_list c' →
            normalize_symbol pairs_list arr c !! j = arr !! j).
  { intros j Hj. rewrite normalize_symbol_lookup. rewrite decide_False; [done|].
    intros Hj'. apply elem_of_indices_for_char in Hj as (pr & Hpr & <-).
    apply elem_of_indices_for_char in Hj' as (pr' & Hpr' & <-). congruence. }
  unfold renormalized. rewrite (arr_sum_ext _ arr) by done.
  unfold arr_get. by rewrite Hsame.
Qed.

(** After the loop every index holds the renormalized entry of its symbol,
    computed from the guess as supplied. *)
Lemma normalize_guess_lookup (pairs_list : list production) (chars : list ascii) :
  NoDup chars →
  ∀ (arr : list Qc) (i : nat) pr, pairs_list !! i = Some pr →
    normalize_guess pairs_list chars arr !! i
    = if decide (pr.1 ∈ chars)
      then (λ _, renormalized pairs_list arr pr.1 i) <$> arr !! i
      else arr !! i.
Proof.
  unfold normalize_guess.
  induction chars as [|c chars IH]; intros Hnd arr i pr Hpr; [done|].
  apply NoDup_cons in Hnd as [Hc Hnd]. cbn [foldl].
  rewrite (IH Hnd _ i pr Hpr), normalize_symbol_lookup.
  assert (Hin : i ∈ indices_for_char pairs_list pr.1).
  { apply elem_of_indices_for_char. eauto. }
  destruct (decide (pr.1 = c)) as [<-|Hne].
  - rewrite decide_False by done. rewrite decide_True by done.
    by rewrite decide_True by (by left).
  - rewrite (decide_False (P := i ∈ indices_for_char pairs_list c)).
    2:{ intros (pr' & Hpr' & Hc')%elem_of_indices_for_char. congruence. }
    destruct (decide (pr.1 ∈ chars)) as [Hin'|Hnin].
    + rewrite decide_True by (by right).
      destruct (renormalized_other pairs_list arr c pr.1 i) as [->|?]; done.
    + rewrite decide_False; [done|]. intros [?|?]%elem_of_cons; congruence.
Qed.

Lemma sorted_chars_NoDup (chars : gset ascii) : NoDup (sorted_chars chars).
Proof. unfold sorted_chars. rewrite merge_sort_Permutation. apply NoDup_elements. Qed.

Lemma elem_of_sorted_chars (chars : gset ascii) c : c ∈ sorted_chars chars ↔ c ∈ chars.
Proof. unfold sorted_chars. by rewrite merge_sort_Permutation, elem_of_elements. Qed.

Lemma sorted_productions_length (all_pairs : gset production) :
  length (sorted_productions all_pairs) = size all_pairs.
Proof. unfold sorted_productions. by rewrite merge_sort_Permutation. Qed.

Lemma Counter_dom (d : derivation) : dom (Counter d) = list_to_set (productions_of d).
Proof.
  apply set_eq. intros pr. rewrite elem_of_dom, elem_of_list_to_set.
  change (Counter d) with (get_prod_count d).
  rewrite (get_prod_count_counts d pr), occ_elem_of.
  destruct (decide (occ pr (productions_of d) = 0)) as [E|E].
  - split; [by intros [? ?]|done].
  - split; [done|by eexists].
Qed.

Lemma frequency_maps_pairs (dict_list : list derivation) :
  (frequency_maps dict_list).2 = distinct_productions dict_list.
Proof.
  unfold frequency_maps, distinct_productions.
  cut (∀ fl (ap : gset production),
         (foldl (λ '(freq_list, all_pairs) derivation_dict,
                   let fm := Counter derivation_dict in
                   (freq_list ++ [fm], all_pairs ∪ dom fm)) (fl, ap) dict_list).2
         = ap ∪ ⋃ ((λ d, list_to_set (productions_of d)) <$> dict_list)).
  { intros Hgen. rewrite Hgen. apply (left_id_L ∅ (∪)). }
  induction dict_list as [|d dict_list IH]; intros fl ap.
  - simpl. by rewrite (right_id_L ∅ (∪)).
  - cbn [foldl]. rewrite IH, Counter_dom, fmap_cons. cbn [union_list foldr].
    by rewrite (assoc_L (∪)).
Qed.

Lemma uniform_guess_length (pairs_list : list production) (chars : list ascii) :
  length (uniform_guess pairs_list chars) = length pairs_list.
Proof.
  unfold uniform_guess.
  cut (∀ arr : list Qc,
         length (foldl (λ guess_arr char,
                          set_uniform guess_arr (indices_for_char pairs_list char))
                   arr chars) = length arr).
  { intros Hgen. by rewrite Hgen, length_replicate. }
  induction chars as [|c chars IH]; intros arr; [done|].
  cbn [foldl]. rewrite IH. apply length_foldl_insert.
Qed.

(** An optimizer that returns, and returns a vector of the length of its
    starting point. *)
Lemma run_optimizer_returns (minimize : minimizer) (pairs_list : list production)
    chars freq_list guess_arr :
  (∀ objective x0 bounds constraints,
     ∃ res, minimize objective x0 bounds constraints = ret res
            ∧ length (res_x res) = length x0) →
  length guess_arr = length pairs_list →
  ∃ r, run_optimizer minimize pairs_list chars freq_list guess_arr = ret r.
Proof.
  intros Hshape Hlen. unfold run_optimizer.
  destruct (Hshape (λ var_array, objective pairs_list var_array freq_list)
              guess_arr (replicate (length pairs_list) (0%Qc, 1%Qc))
              ((λ char var_array, constraint_sum_for_char pairs_list var_array char)
                 <$> chars)) as (res & -> & Hres).
  cbn [bind ret]. destruct (res_success res); [|by eexists].
  destruct (array_to_dict_returns pairs_list (res_x res)) as [d Hd]; [lia|].
  rewrite Hd. by eexists.
Qed.

(** C8, as stated, fails: with no [init_guess] at all, a call on an
    empty list of derivations builds a problem without variables, which
    the optimizer rejects. *)
Lemma empty_problem_raises :
  solve_s0l rejects_empty [] None = raise ValueError
  ∧ ¬ ((∃ e, solve_s0l rejects_empty [] None = raise e)
       ↔ ∃ g, (None : option (list Qc)) = Some g
              ∧ length g ≠ length (sorted_productions (distinct_productions []))).
Proof.
  assert (Hraise : solve_s0l rejects_empty [] None = raise ValueError)
    by (vm_compute; reflexivity).
  split; [done|]. intros [Hguess _].
  destruct Hguess as (g & Hg & _); [by eexists|done].
Qed.

(** C8, as the code has it. The only error [solve_s0l] raises itself is the
    [ValueError] of its length check, raised before the optimizer is called
    when an explicit [init_guess] has a length other than the number of
    distinct productions of the input derivations. Otherwise the optimizer
    is called, from the uniform guess when there is no [init_guess], and
    from the supplied guess renormalized per symbol when the length
    matches: each entry is divided by the sum of the entries of its symbol,
    or replaced by the uniform probability when that sum does not exceed
    [1e-12]. From then on the call fails only as the optimizer fails, or
    with an [IndexError] on a result vector that is too short. *)
Theorem solve_s0l_init_guess (minimize : minimizer) (dict_list : list derivation)
    (init_guess : option (list Qc)) :
  let pairs_list := sorted_productions (distinct_productions dict_list) in
  let unique_chars := sorted_chars (list_to_set pairs_list.*1) in
  let freq_list := (frequency_maps dict_list).1 in
  length pairs_list = size (distinct_productions dict_list)
  ∧ (∀ g, init_guess = Some g → length g ≠ length pairs_list →
       solve_s0l minimize dict_list init_guess = raise ValueError)
  ∧ (init_guess = None →
       solve_s0l minimize dict_list init_guess
       = run_optimizer minimize pairs_list unique_chars freq_list
           (uniform_guess pairs_list unique_chars))
  ∧ (∀ g, init_guess = Some g → length g = length pairs_list →
       solve_s0l minimize dict_list init_guess
       = run_optimizer minimize pairs_list unique_chars freq_list
           (normalize_guess pairs_list unique_chars g)
       ∧ ∀ (i : nat) pr, pairs_list !! i = Some pr →
           normalize_guess pairs_list unique_chars g !! i
           = Some (renormalized pairs_list g pr.1 i))
  ∧ ∀ guess_arr e,
      run_optimizer minimize pairs_list unique_chars freq_list guess_arr = raise e →
      let call :=
        minimize (λ var_array, objective pairs_list var_array freq_list) guess_arr
          (replicate (length pairs_list) (0%Qc, 1%Qc))
          ((λ char var_array, constraint_sum_for_char pairs_list var_array char)
             <$> unique_chars) in
      call = raise e
      ∨ e = IndexError
        ∧ ∃ res, call = ret res ∧ (length (res_x res) < length pairs_list)%nat.
Proof.
  intros pairs_list unique_chars freq_list.
  assert (Hsolve : solve_s0l minimize dict_list init_guess
            = let* guess_arr := initial_guess pairs_list unique_chars init_guess in
              run_optimizer minimize pairs_list unique_chars freq_list guess_arr).
  { unfold solve_s0l, freq_list, unique_chars, pairs_list.
    rewrite <- frequency_maps_pairs.
    destruct (frequency_maps dict_list) as [fl ap]. reflexivity. }
  rewrite Hsolve. clear Hsolve.
  split; [apply sorted_productions_length|]. split_and!.
  - intros g -> Hlen. cbn [initial_guess]. unfold py_len.
    destruct (Z.eqb_spec (Z.of_nat (length g)) (Z.of_nat (length pairs_list)))
      as [Heq%Nat2Z.inj|_]; [done|]. reflexivity.
  - intros ->. reflexivity.
  - intros g -> Hlen. cbn [initial_guess]. unfold py_len.
    rewrite Hlen, Z.eqb_refl. cbn [negb bind ret]. split; [done|].
    intros i pr Hpr.
    rewrite (normalize_guess_lookup pairs_list unique_chars
               (sorted_chars_NoDup _) g i pr Hpr).
    rewrite decide_True.
    + destruct (lookup_lt_is_Some_2 g i) as [x ->]; [|done].
      apply lookup_lt_Some in Hpr. lia.
    + apply elem_of_sorted_chars, elem_of_list_to_set.
      apply (list_elem_of_fmap_2 fst), (list_elem_of_lookup_2 _ i), Hpr.
  - intros guess_arr e. unfold run_optimizer. cbv zeta.
    destruct (minimize _ guess_arr _ _) as [[res|e']|]; cbn [bind];
      [|intros [= ->]; by left|done].
    destruct (res_success res); [|done].
    destruct (decide (length pairs_list ≤ length (res_x res))%nat) as [Hle|Hgt].
    + destruct (array_to_dict_returns pairs_list (res_x res) Hle) as [d ->]. done.
    + rewrite array_to_dict_short by lia. intros [= <-]. right. split; [done|].
      exists res. split; [done|lia].
Qed.

(** ** The attempts of [solve_with_restarts] *)

(** C9 does not hold of the code. [success_count] is incremented inside
    [if success and val > best_objective], so an attempt that converges
    without improving on the best value so far is not counted: with one
    restart on the derivation of ["A", "B"], whose only production has
    probability 1, both attempts converge to the objective 1 and the
    function reports 1. *)
Theorem solve_with_restarts_success_count :
  converged_attempts stay_put constant_generator tt [derivation_A_B] 1 = 2
  ∧ count_of_successes
      (solve_with_restarts stay_put constant_generator tt [derivation_A_B] 1)
    = Some 1.
Proof. split; vm_compute; reflexivity. Qed.

(** ** The divisor of [constant_factor] and the index of the maximum *)

Lemma concentration_pos `{Countable K} (l : list K) : 0 < concentration l.
Proof.
  unfold concentration.
  assert (Hin : ∀ k, k ∈ remove_dups l → k ∈ l)
    by (intros k; apply elem_of_remove_dups).
  induction (remove_dups l) as [|k ks IH]; simpl; [lia|].
  apply Z.mul_pos_pos.
  - apply IH. intros k' Hk'. apply Hin. by right.
  - assert (occ k l ≠ 0) by (apply occ_elem_of, Hin; by left).
    pose proof (occ_nonneg k l). apply Z.pow_pos_nonneg; lia.
Qed.

Lemma py_index_returns (l : list Z) x :
  x ∈ l → ∃ n : nat, py_index l x = ret (Z.of_nat n) ∧ (n < length l)%nat.
Proof.
  induction l as [|y l IH]; [by intros ?%elem_of_nil|]. intros Hin. simpl.
  destruct (Z.eqb_spec y x) as [->|Hne].
  - exists 0%nat. split; [done|lia].
  - apply elem_of_cons in Hin as [->|Hin]; [done|].
    destruct (IH Hin) as (n & -> & Hn). exists (S n). split; [|lia].
    cbn [bind ret]. do 3 f_equal. lia.
Qed.

(** ** Restarts that do not improve on the best value *)

Lemma Qc_ltb_irrefl (v : Qc) : Qc_ltb v v = false.
Proof.
  unfold Qc_ltb. by rewrite (proj2 (Qle_bool_iff v v) (Qle_refl v)).
Qed.

(** Restarts that all converge to the value already recorded leave the
    counter as it is. *)
Lemma restarts_same_objective {rng} (minimize : minimizer) (gen : generator rng)
    (dict_list : list derivation) (v : Qc) (xs : list Z) :
  ∀ st : restart_state rng,
    best_objective st = Finite v →
    Forall (λ a, ∃ sol pl, a = ret (true, Some v, sol, pl))
      (random_attempts minimize gen dict_list (length xs) (rng_state st)) →
    ∃ st',
      for_each xs
        (λ _, restart minimize gen dict_list
                (sorted_productions (frequency_maps dict_list).2)
                (sorted_chars
                   (list_to_set (sorted_productions (frequency_maps dict_list).2).*1)))
        st = ret st'
      ∧ best_objective st' = Finite v
      ∧ success_count st' = success_count st.
Proof.
  induction xs as [|x xs IH]; intros st Hbest Hall; [by exists st|].
  cbn [for_each length random_attempts] in *. unfold restart at 1.
  destruct (random_guess gen _ _ (rng_state st)) as [guess_arr g'].
  apply Forall_cons in Hall as [(sol & pl & ->) Hall]. cbn [bind ret].
  unfold record_attempt. rewrite Hbest. cbn [exceeds]. rewrite Qc_ltb_irrefl.
  apply (IH {| best_objective := best_objective st;
               best_distribution := best_distribution st;
               best_pairs := best_pairs st;
               success_count := success_count st;
               rng_state := g' |}); done.
Qed.

Lemma filter_Forall {A} (P : A → Prop) `{∀ x, Decision (P x)} (l : list A) :
  Forall P l → filter P l = l.
Proof.
  induction 1 as [|x l Hx _ IH]; [done|]. by rewrite filter_cons_True, IH.
Qed.

Lemma random_attempts_length {rng} (minimize : minimizer) (gen : generator rng)
    (dict_list : list derivation) (n : nat) (g : rng) :
  length (random_attempts minimize gen dict_list n g) = n.
Proof.
  revert g. induction n as [|n IH]; intros g; [done|]. cbn [random_attempts].
  destruct (random_guess gen _ _ g) as [guess_arr g']. cbn [length]. by rewrite IH.
Qed.

(** What [success_count] is when every attempt converges to one and the
    same objective value: 1, however many attempts there are. *)
Lemma solve_with_restarts_equal_objectives {rng} (minimize : minimizer)
    (gen : generator rng) (g : rng) (dict_list : list derivation) (n_restarts : Z) v :
  0 ≤ n_restarts →
  Forall (λ a, ∃ sol pl, a = ret (true, Some v, sol, pl))
    (attempts minimize gen g dict_list n_restarts) →
  count_of_successes (solve_with_restarts minimize gen g dict_list n_restarts) = Some 1
  ∧ converged_attempts minimize gen g dict_list n_restarts = n_restarts + 1.
Proof.
  intros Hn Hall. split.
  - unfold attempts in Hall. apply Forall_cons in Hall as [(sol & pl & Hfirst) Hall].
    unfold solve_with_restarts. rewrite Hfirst. cbn [bind ret record_attempt exceeds].
    destruct (frequency_maps dict_list) as [fl ap] eqn:Hfm.
    replace ap with (frequency_maps dict_list).2 by by rewrite Hfm.
    edestruct (restarts_same_objective minimize gen dict_list v (py_range 0 n_restarts))
      as (st' & -> & _ & Hcount); [| |cbn [bind ret count_of_successes]; by rewrite Hcount].
    + done.
    + unfold py_range. rewrite length_fmap, length_seq, Z.sub_0_r. exact Hall.
  - unfold converged_attempts, py_len. rewrite filter_Forall.
    + unfold attempts. cbn [length]. rewrite random_attempts_length. lia.
    + eapply Forall_impl; [exact Hall|]. by intros a (sol & pl & ->).
Qed.

(** * Further properties of the code *)

(** ** The number of derivations *)

Lemma choose_S (n k : nat) : choose (S n) (S k) = (choose n k + choose n (S k))%nat.
Proof. done. Qed.

Lemma choose_0 (n : nat) : choose n 0 = 1%nat.
Proof. by destruct n. Qed.

Lemma choose_pos (n k : nat) : (0 < choose n k)%nat ↔ (k ≤ n)%nat.
Proof.
  revert k. induction n as [|n IH]; intros [|k]; simpl; try lia.
  specialize (IH k) as IHk. specialize (IH (S k)). lia.
Qed.

(** The sum the search runs through at a middle character. *)
Lemma sum_choose (n j : nat) :
  sum_list ((λ p, choose (n - p - 1) j) <$> seq 1 (n - 1)) = choose (n - 1) (S j).
Proof.
  induction n as [|n IH]; [done|].
  destruct n as [|n]; [done|].
  replace (S (S n) - 1)%nat with (S n) by lia.
  cbn [seq fmap list_fmap sum_list sum_list_with]. rewrite <- fmap_S_seq, <- list_fmap_compose.
  replace (S (S n) - 1 - 1)%nat with n by lia.
  replace (S n - 1)%nat with n in IH by lia.
  rewrite choose_S. f_equal. rewrite <- IH.
  apply (f_equal sum_list), list_fmap_ext. intros _ p _. simpl. f_equal; lia.
Qed.

Lemma length_list_bind {A B} (f : A → list B) (l : list A) :
  length (l ≫= f) = sum_list ((λ x, length (f x)) <$> l).
Proof.
  induction l as [|x l IH]; [done|].
  rewrite bind_cons, length_app, IH. done.
Qed.

Lemma pieces_middle si ci c c' (s t : pystr) :
  pieces si ci (c :: c' :: s) t =
  p ← seq 1 (length t - 1);
  (cons ((si, ci), (c, take p t))) <$> pieces si (ci + 1) (c' :: s) (drop p t).
Proof. done. Qed.

Lemma pieces_length (s : pystr) :
  ∀ si ci (t : pystr), length (pieces si ci s t) = choose (length t - 1) (length s - 1).
Proof.
  induction s as [|c s IH]; intros si ci t; [by rewrite choose_0|].
  destruct s as [|c' s]; [by rewrite choose_0|].
  rewrite pieces_middle, length_list_bind.
  replace (length (c :: c' :: s) - 1)%nat with (S (length s)) by (simpl; lia).
  rewrite <- (sum_choose (length t) (length s)).
  f_equal. apply list_fmap_ext. intros _ p _.
  rewrite length_fmap, IH, length_drop. cbn [length]. f_equal. lia.
Qed.

Lemma paths_length (seq : list pystr) :
  ∀ si, length (paths si seq) = derivation_count seq.
Proof.
  induction seq as [|s seq IH]; intros si; [done|].
  destruct seq as [|t rest]; [done|].
  rewrite paths_cons2. unfold rest_paths. rewrite length_list_bind.
  change (derivation_count (s :: t :: rest))
    with (choose (length t - 1) (length s - 1) * derivation_count (t :: rest))%nat.
  rewrite <- (pieces_length s si 0 t), <- (IH (si + 1)).
  generalize (paths (si + 1) (t :: rest)). intros P.
  induction (pieces si 0 s t) as [|a l IHl]; [done|].
  rewrite fmap_cons. cbn [sum_list sum_list_with length].
  rewrite IHl, length_fmap. simpl. lia.
Qed.

Lemma derivation_count_zero (seq : list pystr) :
  derivation_count seq = 0%nat ↔ too_long seq.
Proof.
  induction seq as [|s seq IH].
  - split; [done|]. by intros (i & s & t & ? & _).
  - destruct seq as [|t rest].
    + split; [done|]. by intros ([|i] & s' & t' & ? & ? & _).
    + cbn [derivation_count]. rewrite Nat.eq_mul_0, IH.
      pose proof (choose_pos (length t - 1) (length s - 1)) as Hpos.
      split.
      * intros [Hz|(i & s' & t' & Hs & Ht & Hlen)].
        -- exists 0%nat, s, t. split_and!; [done|done|lia|lia].
        -- by exists (S i), s', t'.
      * intros ([|i] & s' & t' & Hs & Ht & Hlen).
        -- injection Hs as <-. injection Ht as <-. left. lia.
        -- right. by exists i, s', t'.
Qed.

(** ** The enumeration of derivations.py *)

Lemma get_derivations_AB_ABB : get_derivations seq_AB_ABB = ret derivations_AB_ABB.
Proof. vm_compute. reflexivity. Qed.

(** The search needs no more nested calls than [dfs_fuel] counts: with that
    many or more it returns the enumeration. *)
Lemma dfs_enough_frames (seq : list pystr) (frames : nat) :
  seq ≠ [] → (dfs_fuel seq ≤ frames)%nat →
  ∃ m, _dfs_all_derivations frames seq 0 0 (-1) (∅, [])
       = ret (m, list_to_map <$> paths 0 seq).
Proof.
  intros Hne. unfold dfs_fuel. fold (depth seq). intros Hframes.
  destruct frames as [|frames]; [lia|].
  destruct seq as [|s [|t rest]]; [done| |].
  - exists ∅. by rewrite dfs_base.
  - destruct (dfs_refines (S frames) (s :: t :: rest)
                0%nat 0%nat 0%nat ∅ [] s t) as (m' & Heq & _); try done.
    + simpl; lia.
    + intros _; lia.
    + rewrite drop_0. unfold depth in *. simpl in *. lia.
    + change (Z.of_nat 0 - 1) with (-1) in Heq. change (Z.of_nat 0) with 0 in Heq.
      rewrite !drop_0 in Heq. change (drop 1 (s :: t :: rest)) with (t :: rest) in Heq.
      exists m'. rewrite Heq. do 2 f_equal.
      rewrite paths_cons2. apply list_fmap_ext. intros _ a _.
      by rewrite (right_id_L ∅ (∪)).
Qed.

(** X1. [get_derivations] raises an [IndexError], that of
    [seq[string_index]], on the empty sequence. On every other sequence the
    search returns a list as soon as the interpreter lets it nest
    [dfs_fuel seq] calls, one more than the strings and their characters
    number together; whether it returns with fewer, where Python raises a
    [RecursionError], is not said. The list does not depend on the depth
    that is available. *)
Theorem get_derivations_returns (seq : list pystr) (frames : nat) :
  (dfs_fuel seq ≤ frames)%nat →
  (seq = [] ∧ _dfs_all_derivations frames seq 0 0 (-1) (∅, []) = raise IndexError
   ∧ get_derivations seq = raise IndexError)
  ∨ (seq ≠ [] ∧ ∃ m ds,
       _dfs_all_derivations frames seq 0 0 (-1) (∅, []) = ret (m, ds)
       ∧ get_derivations seq = ret ds).
Proof.
  intros Hframes. destruct (decide (seq = [])) as [->|Hne]; [left|right].
  - split; [done|]. split; [|done]. destruct frames; [unfold dfs_fuel in Hframes; simpl in Hframes; lia|done].
  - split; [done|]. destruct (dfs_enough_frames seq frames Hne Hframes) as [m Hm].
    exists m, (list_to_map <$> paths 0 seq). split; [done|].
    by apply get_derivations_paths.
Qed.

Lemma get_derivations_returns_witness :
  (dfs_fuel seq_AB_ABB ≤ 1000)%nat
  ∧ ((seq_AB_ABB = []
      ∧ _dfs_all_derivations 1000 seq_AB_ABB 0 0 (-1) (∅, []) = raise IndexError
      ∧ get_derivations seq_AB_ABB = raise IndexError)
     ∨ (seq_AB_ABB ≠ [] ∧ ∃ m ds,
          _dfs_all_derivations 1000 seq_AB_ABB 0 0 (-1) (∅, []) = ret (m, ds)
          ∧ get_derivations seq_AB_ABB = ret ds)).
Proof.
  assert (H : (dfs_fuel seq_AB_ABB ≤ 1000)%nat) by (vm_compute; lia).
  split; [exact H|]. exact (get_derivations_returns seq_AB_ABB 1000 H).
Defined.

(** X2. The number of derivations [get_derivations] returns is the product,
    over the consecutive strings [s], [t] of the sequence, of the binomial
    coefficient [choose (len(t) - 1) (len(s) - 1)] (with [0 - 1 = 0]). *)
Theorem get_derivations_count (seq : list pystr) ds :
  get_derivations seq = ret ds → length ds = derivation_count seq.
Proof.
  intros Hds. destruct (decide (seq = [])) as [->|Hne]; [done|].
  rewrite get_derivations_paths in Hds by done. injection Hds as <-.
  by rewrite length_fmap, paths_length.
Qed.

Lemma get_derivations_count_witness :
  length derivations_AB_ABB = derivation_count seq_AB_ABB.
Proof. apply (get_derivations_count seq_AB_ABB), get_derivations_AB_ABB. Defined.

Lemma derivations_none_iff (seq : list pystr) :
  get_derivations seq = ret [] ↔ too_long seq.
Proof.
  rewrite <- derivation_count_zero.
  destruct (decide (seq = [])) as [->|Hne]; [done|].
  rewrite get_derivations_paths by done. rewrite <- (paths_length seq 0).
  split.
  - intros [= Heq]. apply fmap_nil_inv in Heq. by rewrite Heq.
  - intros Hlen. apply nil_length_inv in Hlen. by rewrite Hlen.
Qed.

(** X3. [get_derivations] returns the empty list exactly when some string
    of at least two characters is followed by a shorter string. *)
Theorem get_derivations_none (seq : list pystr) :
  get_derivations seq = ret [] ↔ too_long seq.
Proof. apply derivations_none_iff. Qed.

Lemma lookup_concat_split {A} (ws : list (list A)) (j : nat) w :
  ws !! j = Some w → concat ws = concat (take j ws) ++ w ++ concat (drop (S j) ws).
Proof.
  intros Hw. rewrite <- (take_drop_middle ws j w Hw) at 1.
  by rewrite concat_app, concat_cons.
Qed.

Lemma derivations_keys (seq : list pystr) ds d i j :
  get_derivations seq = ret ds → d ∈ ds →
  is_Some (d !! (i, j)) ↔
  ∃ s, 0 ≤ i < py_len seq - 1 ∧ py_get seq i = Some s ∧ 0 ≤ j < py_len s.
Proof.
  intros Hds Hd. split.
  - intros [[c w] Hlook].
    destruct (derivations_entries seq ds d i j c w Hds Hd Hlook)
      as (s & Hi & Hs & Hj & _). eauto.
  - intros (s & Hi & Hs & Hj).
    destruct (decide (seq = [])) as [->|Hseq]; [unfold py_len in Hi; simpl in Hi; lia|].
    rewrite get_derivations_paths in Hds by done.
    injection Hds as <-. apply list_elem_of_fmap in Hd as (a & -> & Ha).
    apply not_eq_None_Some. intros Hnone.
    apply not_elem_of_list_to_map in Hnone. apply Hnone.
    rewrite (paths_keys _ _ _ Ha). apply elem_of_positions.
    exists (Z.to_nat i), s. rewrite py_get_nat in Hs by lia.
    unfold py_len in Hi. split_and!; first [done|lia].
Qed.

Lemma derivations_substring (seq : list pystr) ds d i j c w :
  get_derivations seq = ret ds → d ∈ ds → d !! (i, j) = Some (c, w) →
  ∃ t pre post, py_get seq (i + 1) = Some t ∧ t = pre ++ w ++ post.
Proof.
  intros Hds Hd Hlook.
  destruct (decide (seq = [])) as [->|Hseq]; [done|].
  rewrite get_derivations_paths in Hds by done.
  injection Hds as <-. apply list_elem_of_fmap in Hd as (a & -> & Ha).
  assert (Hin : (i, j) ∈ positions 0 seq).
  { rewrite <- (paths_keys _ _ _ Ha). apply list_elem_of_fmap.
    apply elem_of_list_to_map_2 in Hlook. by exists ((i, j), (c, w)). }
  apply elem_of_positions in Hin as (n & s & -> & Hs & Hn & Hj).
  destruct (lookup_lt_is_Some_2 seq (S n) Hn) as [t Ht].
  destruct (paths_rows seq 0 a Ha n s t Hs Ht) as (ws & Hlen & Hcat & _ & Hrow).
  specialize (Hrow (Z.to_nat j)). rewrite Z2Nat.id in Hrow by lia.
  rewrite Hlook in Hrow. symmetry in Hrow.
  apply lookup_zip_with_Some in Hrow as (c' & w' & [= <- <-] & Hc & Hw).
  exists t, (concat (take (Z.to_nat j) ws)), (concat (drop (S (Z.to_nat j)) ws)).
  split.
  - rewrite py_get_nat by lia. rewrite <- Ht. f_equal. lia.
  - rewrite <- Hcat; [by apply lookup_concat_split|]. intros ->. done.
Qed.

(** X4. Every derivation [get_derivations] returns has an entry at exactly
    the positions [(i, j)] of the characters of the non-final strings, and
    the entry at [(i, j)] holds the character [seq[i][j]] and a contiguous
    substring of [seq[i + 1]]: no entry of an abandoned branch of the
    search is left in the copies. *)
Theorem get_derivations_entries (seq : list pystr) ds d :
  get_derivations seq = ret ds → d ∈ ds →
  (∀ i j, is_Some (d !! (i, j)) ↔
     ∃ s, 0 ≤ i < py_len seq - 1 ∧ py_get seq i = Some s ∧ 0 ≤ j < py_len s)
  ∧ ∀ i j c w, d !! (i, j) = Some (c, w) →
      ∃ s t pre post, py_get seq i = Some s ∧ py_get s j = Some c
        ∧ py_get seq (i + 1) = Some t ∧ t = pre ++ w ++ post.
Proof.
  intros Hds Hd. split.
  - intros i j. by apply (derivations_keys seq ds).
  - intros i j c w Hlook.
    destruct (derivations_entries seq ds d i j c w Hds Hd Hlook)
      as (s & _ & Hs & _ & Hc & _).
    destruct (derivations_substring seq ds d i j c w Hds Hd Hlook)
      as (t & pre & post & Ht & Heq).
    by exists s, t, pre, post.
Qed.

Lemma get_derivations_entries_witness :
  (∀ i j, is_Some (derivation_A_BB !! (i, j)) ↔
     ∃ s, 0 ≤ i < py_len seq_AB_ABB - 1 ∧ py_get seq_AB_ABB i = Some s ∧ 0 ≤ j < py_len s)
  ∧ ∀ i j c w, derivation_A_BB !! (i, j) = Some (c, w) →
      ∃ s t pre post, py_get seq_AB_ABB i = Some s ∧ py_get s j = Some c
        ∧ py_get seq_AB_ABB (i + 1) = Some t ∧ t = pre ++ w ++ post.
Proof.
  apply (get_derivations_entries seq_AB_ABB derivations_AB_ABB).
  - apply get_derivations_AB_ABB.
  - by left.
Defined.

(** X5. When no string but possibly the last is empty, every derivation
    [get_derivations] returns satisfies the partition invariant: the
    substrings it gives to the characters of a string, concatenated in
    character order, are the next string. *)
Theorem get_derivations_partition (seq : list pystr) ds d :
  Forall (λ s, s ≠ []) (py_slice seq 0 (-1)) →
  get_derivations seq = ret ds → d ∈ ds → partition_invariant seq d.
Proof. apply derivations_partition. Qed.

Lemma get_derivations_partition_witness : partition_invariant seq_AB_ABB derivation_AB_B.
Proof.
  apply (get_derivations_partition seq_AB_ABB derivations_AB_ABB).
  - by repeat constructor.
  - apply get_derivations_AB_ABB.
  - right. by left.
Defined.

(** X6. When no string of the sequence is empty, the list
    [get_derivations] returns holds the valid derivations of the sequence
    and nothing else. *)
Theorem get_derivations_valid (seq : list pystr) ds d :
  Forall (λ s, s ≠ []) seq → get_derivations seq = ret ds →
  d ∈ ds ↔ valid_derivation seq d.
Proof.
  intros Hne Hds. split.
  - by apply derivations_valid.
  - intros Hvalid. destruct (decide (seq = [])) as [->|Hseq]; [done|].
    rewrite get_derivations_paths in Hds by done. injection Hds as <-.
    by apply valid_derivation_enumerated.
Qed.

Lemma get_derivations_valid_witness :
  derivation_A_BB ∈ derivations_AB_ABB ↔ valid_derivation seq_AB_ABB derivation_A_BB.
Proof.
  apply (get_derivations_valid seq_AB_ABB derivations_AB_ABB).
  - by repeat constructor.
  - apply get_derivations_AB_ABB.
Defined.

(** ** The counts of utils.py *)

Lemma total_count_incr `{Countable K} (pc : gmap K Z) (k : K) :
  total_count (incr k pc) = total_count pc + 1.
Proof.
  unfold total_count, incr. destruct (pc !! k) as [n|] eqn:Hk; simpl.
  - rewrite (map_sum_lookup Z.add 0 _ pc k n Hk).
    rewrite <- (insert_delete_eq pc).
    rewrite (map_sum_insert Z.add 0) by apply lookup_delete_eq. lia.
  - rewrite (map_sum_insert Z.add 0) by done. lia.
Qed.

Lemma total_count_counts `{Countable K} (l : list K) (pc : gmap K Z) :
  counts_of l pc → total_count pc = py_len l.
Proof.
  intros Hpc. rewrite (counts_of_inj l pc _ Hpc (counts_of_foldr l)).
  clear Hpc. unfold py_len. induction l as [|k l IH]; [done|].
  cbn [foldr length]. rewrite total_count_incr, IH. lia.
Qed.

(** X7. [get_prod_count] maps each production to the number of positions
    at which the derivation uses it, has no entry for a production that is
    not used, and its counts add up to the number of positions of the
    derivation. *)
Theorem get_prod_count_positions (d : derivation) :
  (∀ pr n, get_prod_count d !! pr = Some n ↔ 0 < n ∧ n = occ pr (productions_of d))
  ∧ (∀ pr, is_Some (get_prod_count d !! pr) ↔ ∃ k, d !! k = Some pr)
  ∧ total_count (get_prod_count d) = Z.of_nat (size d).
Proof.
  pose proof (get_prod_count_counts d) as Hc. split_and!.
  - intros pr n. rewrite (Hc pr). pose proof (occ_nonneg pr (productions_of d)).
    destruct (decide (occ pr (productions_of d) = 0)) as [Hz|Hz].
    + split; [done|]. lia.
    + split; [intros [= <-]; lia|]. by intros [_ ->].
  - intros pr. rewrite (Hc pr).
    assert (pr ∈ productions_of d ↔ ∃ k, d !! k = Some pr) as <-.
    { unfold productions_of. rewrite list_elem_of_fmap. split.
      - intros ([k pr'] & -> & Hin). exists k. by apply elem_of_map_to_list.
      - intros [k Hk]. exists (k, pr). split; [done|]. by apply elem_of_map_to_list. }
    rewrite occ_elem_of.
    destruct (decide (occ pr (productions_of d) = 0)) as [Hz|Hz].
    + split; [by intros [? ?]|done].
    + split; [done|by eexists].
  - rewrite (total_count_counts _ _ Hc). unfold py_len, productions_of.
    by rewrite length_fmap, length_map_to_list.
Qed.

(** ** Bounds on the concentration factors *)

Lemma NoDup_occ `{Countable K} (l : list K) :
  NoDup l ↔ ∀ k, k ∈ l → occ k l = 1.
Proof.
  induction l as [|x l IH].
  - split; [by intros _ k ?%elem_of_nil|intros _; constructor].
  - rewrite NoDup_cons, IH. split.
    + intros [Hx Hl] k Hk. rewrite occ_cons.
      destruct (decide (k = x)) as [->|Hne].
      * apply occ_zero in Hx. lia.
      * apply elem_of_cons in Hk as [?|Hk]; [done|]. rewrite (Hl k Hk). lia.
    + intros Hall.
      assert (Hx : x ∉ l).
      { apply occ_zero. specialize (Hall x). rewrite occ_cons in Hall.
        rewrite decide_True in Hall by done. ospecialize (Hall _); [by left|]. lia. }
      split; [done|]. intros k Hk. specialize (Hall k). rewrite occ_cons in Hall.
      rewrite decide_False in Hall by (by intros ->). rewrite <- Hall; [lia|by right].
Qed.

Lemma pow_self_one (a : Z) : 1 ≤ a → 1 ≤ a ^ a ∧ (a ^ a = 1 ↔ a = 1).
Proof.
  intros Ha. assert (a ≤ a ^ a).
  { replace a with (a ^ 1) at 1 by lia. apply Z.pow_le_mono_r; lia. }
  split; [lia|]. split; [lia|]. by intros ->.
Qed.

Lemma concentration_one `{Countable K} (l : list K) :
  concentration l = 1 ↔ NoDup l.
Proof.
  rewrite NoDup_occ. unfold concentration.
  assert (Hin : ∀ k, k ∈ remove_dups l ↔ k ∈ l) by (intros k; apply elem_of_remove_dups).
  assert (Hpos : ∀ k, k ∈ remove_dups l → 1 ≤ occ k l).
  { intros k Hk%Hin. apply (proj1 (occ_elem_of k l)) in Hk.
    pose proof (occ_nonneg k l). lia. }
  setoid_rewrite <- Hin. clear Hin.
  induction (remove_dups l) as [|k ks IH]; simpl.
  - split; [by intros _ k ?%elem_of_nil|done].
  - assert (Hpos' : ∀ k0, k0 ∈ ks → 1 ≤ occ k0 l) by (intros; apply Hpos; by right).
    specialize (IH Hpos').
    assert (1 ≤ foldr (λ k acc, acc * occ k l ^ occ k l) 1 ks) as Hge.
    { clear IH Hpos. induction ks as [|k' ks IH']; simpl; [lia|].
      destruct (pow_self_one (occ k' l)) as [? _]; [apply Hpos'; by left|].
      assert (1 ≤ foldr (λ k acc, acc * occ k l ^ occ k l) 1 ks); [|nia].
      apply IH'. intros k'' ?. apply Hpos'. by right. }
    destruct (pow_self_one (occ k l)) as [Hk1 Hk2]; [apply Hpos; by left|].
    split.
    + intros Hprod k' Hk'.
      assert (foldr (λ k acc, acc * occ k l ^ occ k l) 1 ks = 1
              ∧ occ k l ^ occ k l = 1) as [Hks Hk] by nia.
      apply elem_of_cons in Hk' as [->|Hk']; [by apply Hk2|].
      by apply (proj1 IH).
    + intros Hall.
      rewrite (proj2 Hk2) by (apply Hall; by left).
      rewrite (proj2 IH); [done|].
      intros k' Hk'. apply Hall. by right.
Qed.

(** X8. The score [non_constant_factor] of a derivation is at least 1,
    and it is 1 exactly when no production is used at two positions. *)
Theorem non_constant_factor_one (d : derivation) :
  1 ≤ non_constant_factor d
  ∧ (non_constant_factor d = 1 ↔ NoDup (productions_of d)).
Proof.
  rewrite non_constant_factor_spec. unfold concentration_factor. split.
  - pose proof (concentration_pos (productions_of d)). lia.
  - apply concentration_one.
Qed.

Lemma concentration_perm `{Countable K} (l1 l2 : list K) :
  l1 ≡ₚ l2 → concentration l1 = concentration l2.
Proof.
  intros Hp. rewrite <- (pow_product_counts l1 _ (counts_of_foldr l1)).
  apply pow_product_counts. eapply counts_of_perm; [done|]. apply counts_of_foldr.
Qed.

(** A product of powers over distinct keys, with the exponent of one key
    raised by one. *)
Lemma foldr_pow_bump `{Countable K} (g : K → Z) (e : K → Z) (x : K) (ks : list K) :
  NoDup ks → (∀ k, 0 ≤ e k) →
  foldr (λ k acc, acc * g k ^ (e k + (if decide (k = x) then 1 else 0))) 1 ks
  = foldr (λ k acc, acc * g k ^ e k) 1 ks * (if decide (x ∈ ks) then g x else 1).
Proof.
  intros Hnd He. induction ks as [|k ks IH]; [done|].
  apply NoDup_cons in Hnd as [Hk Hnd]. cbn [foldr]. rewrite (IH Hnd).
  destruct (decide (k = x)) as [->|Hne].
  - rewrite (decide_False (P := x ∈ ks)) by done.
    rewrite (decide_True (P := x ∈ x :: ks)) by (by left).
    cbv iota.
    rewrite Z.pow_add_r, Z.pow_1_r by (first [apply He|lia]). ring.
  - cbv iota. rewrite Z.add_0_r. destruct (decide (x ∈ ks)) as [Hin|Hnin].
    + rewrite (decide_True (P := x ∈ k :: ks)) by (by right). ring.
    + rewrite (decide_False (P := x ∈ k :: ks)); [ring|].
      intros [?|?]%elem_of_cons; congruence.
Qed.

(** The product over the elements of a list, grouped by distinct element. *)
Lemma foldr_mul_occ `{Countable K} (g : K → Z) (l : list K) :
  foldr (λ x acc, acc * g x) 1 l
  = foldr (λ k acc, acc * g k ^ occ k l) 1 (remove_dups l).
Proof.
  induction l as [|x l IH]; [done|]. cbn [foldr]. rewrite IH.
  assert (Hbump : ∀ ks, NoDup ks →
            foldr (λ k acc, acc * g k ^ occ k (x :: l)) 1 ks
            = foldr (λ k acc, acc * g k ^ occ k l) 1 ks
              * (if decide (x ∈ ks) then g x else 1)).
  { intros ks Hnd. rewrite <- (foldr_pow_bump g (λ k, occ k l) x ks Hnd).
    - apply foldr_ext_in. intros k acc _. by rewrite occ_cons.
    - intros k. apply occ_nonneg. }
  cbn [remove_dups]. destruct (decide_rel (∈) x l) as [Hin|Hnin].
  - rewrite Hbump by apply NoDup_remove_dups.
    rewrite decide_True; [done|]. by apply elem_of_remove_dups.
  - cbn [foldr]. rewrite Hbump by apply NoDup_remove_dups.
    rewrite decide_False by (by rewrite elem_of_remove_dups).
    rewrite occ_cons, decide_True by done.
    apply occ_zero in Hnin. rewrite Hnin. simpl. rewrite Z.pow_1_r. ring.
Qed.

Lemma concentration_elements `{Countable K} (l : list K) :
  concentration l = foldr (λ x acc, acc * occ x l) 1 l.
Proof. unfold concentration. by rewrite (foldr_mul_occ (λ x, occ x l)). Qed.

Lemma foldr_mul_le {A} (a b : A → Z) (l : list A) :
  (∀ x, 0 ≤ a x ≤ b x) →
  0 ≤ foldr (λ x acc, acc * a x) 1 l ≤ foldr (λ x acc, acc * b x) 1 l.
Proof.
  intros Hab. induction l as [|x l IH]; simpl; [lia|]. specialize (Hab x). nia.
Qed.

Lemma occ_fmap_le `{Countable K, Countable L} (f : K → L) (x : K) (l : list K) :
  occ x l ≤ occ (f x) (f <$> l).
Proof.
  induction l as [|y l IH]; [done|]. rewrite fmap_cons, !occ_cons.
  destruct (decide (x = y)) as [->|Hne].
  - rewrite decide_True by done. lia.
  - destruct (decide (f x = f y)); lia.
Qed.

(** Merging classes can only raise the concentration. *)
Lemma concentration_fmap_le `{Countable K, Countable L} (f : K → L) (l : list K) :
  concentration l ≤ concentration (f <$> l).
Proof.
  rewrite !concentration_elements, foldr_fmap.
  apply (foldr_mul_le (λ x, occ x l) (λ x, occ (f x) (f <$> l))).
  intros x. split; [apply occ_nonneg|apply occ_fmap_le].
Qed.

Lemma Qc_ratio_bounds (a b : Z) :
  0 < a → a ≤ b → (0 < Qc_of_Z a / Qc_of_Z b ≤ 1)%Qc.
Proof.
  intros Ha Hab.
  assert (Hb : (0 < Qc_of_Z b)%Qc).
  { rewrite <- Z2Qc_inj_0. apply (proj1 (Z2Qc_inj_lt 0 b)). lia. }
  assert (Ha' : (0 < Qc_of_Z a)%Qc).
  { rewrite <- Z2Qc_inj_0. by apply (proj1 (Z2Qc_inj_lt 0 a)). }
  pose proof (Qcinv_pos _ Hb) as Hinv. unfold Qcdiv. split.
  - by apply Qcmult_pos_pos.
  - rewrite <- (Qcmult_inv_r (Qc_of_Z b)).
    + apply (proj1 (Qcmult_le_mono_pos_r _ _ _ Hinv)).
      by apply (proj1 (Z2Qc_inj_le a b)).
    + intros Hz. rewrite Hz in Hb. by apply (irreflexivity Qclt) in Hb.
Qed.

Lemma symbols_concentration (seq : list pystr) ds d :
  get_derivations seq = ret ds → d ∈ ds →
  0 < concentration_factor d ≤ concentration (symbols_of seq).
Proof.
  intros Hds Hd. unfold concentration_factor. split; [apply concentration_pos|].
  rewrite <- (concentration_perm _ _ (productions_symbols seq ds d Hds Hd)).
  apply concentration_fmap_le.
Qed.

(** ** The float arithmetic of utils.py and solver_q1.py *)

(** Outcomes of the conversions. *)

Lemma finite_or_overflow_outcome (x : SpecFloat.spec_float) :
  (∃ q, Binary64.finite_or_overflow x = ret q)
  ∨ Binary64.finite_or_overflow x = raise OverflowError.
Proof. destruct x; [left; by eexists|by right|left; by eexists..]. Qed.

Lemma int_to_float_outcome (n : Z) :
  (∃ q, Binary64.int_to_float n = ret q) ∨ Binary64.int_to_float n = raise OverflowError.
Proof. apply finite_or_overflow_outcome. Qed.

(** A quotient of two [int] that is at most 1 is rounded to a double, not
    to an infinity: the mantissa the division computes has at most one bit
    more than its exponent takes away. *)

Lemma digits2_pos_size (p : positive) : SpecFloat.digits2_pos p = Pos.size p.
Proof. induction p; simpl; congruence. Qed.

Lemma Zdigits2_bound (m k : Z) : 0 ≤ k → 0 ≤ m < 2 ^ k → SpecFloat.Zdigits2 m ≤ k.
Proof.
  intros Hk [Hm Hlt]. destruct m as [|p|p]; simpl; [lia| |lia].
  rewrite digits2_pos_size.
  pose proof (Pos.size_le p) as Hle.
  apply Pos2Z.pos_le_pos in Hle. rewrite Pos2Z.inj_pow in Hle.
  change (Z.pos p~0) with (2 * Z.pos p) in Hle.
  assert (2 ^ Z.pos (Pos.size p) < 2 ^ (k + 1)) as Hpow
    by (rewrite Z.pow_add_r, Z.pow_1_r by lia; lia).
  apply Z.pow_lt_mono_r_iff in Hpow; lia.
Qed.

Lemma pos_size_mono (a b : positive) :
  (a ≤ b)%positive → (Pos.size a ≤ Pos.size b)%positive.
Proof.
  intros Hab.
  pose proof (Pos.size_le a) as Hle. pose proof (Pos.size_gt b) as Hgt.
  apply Pos2Z.pos_le_pos in Hle. apply Pos2Z.pos_lt_pos in Hgt.
  rewrite Pos2Z.inj_pow in Hle, Hgt. change (Z.pos a~0) with (2 * Z.pos a) in Hle.
  assert (2 ^ Z.pos (Pos.size a) < 2 ^ (Z.pos (Pos.size b) + 1)) as Hpow
    by (rewrite Z.pow_add_r, Z.pow_1_r by lia; lia).
  apply Z.pow_lt_mono_r_iff in Hpow; lia.
Qed.

Lemma shr_1_bound mrs :
  0 ≤ SpecFloat.shr_m mrs →
  0 ≤ SpecFloat.shr_m (SpecFloat.shr_1 mrs) ≤ SpecFloat.shr_m mrs.
Proof. destruct mrs as [[|[p|p|]|p] r s]; simpl; lia. Qed.

Lemma iter_shr_1_bound (p : positive) : ∀ mrs,
  0 ≤ SpecFloat.shr_m mrs →
  0 ≤ SpecFloat.shr_m (SpecFloat.iter_pos SpecFloat.shr_1 p mrs) ≤ SpecFloat.shr_m mrs.
Proof.
  induction p as [p IH|p IH|]; intros mrs Hm; simpl.
  - pose proof (shr_1_bound mrs Hm) as H1.
    pose proof (IH _ (proj1 H1)) as H2. pose proof (IH _ (proj1 H2)). lia.
  - pose proof (IH _ Hm) as H2. pose proof (IH _ (proj1 H2)). lia.
  - by apply shr_1_bound.
Qed.

Lemma shr_bound mrs e n :
  0 ≤ SpecFloat.shr_m mrs →
  0 ≤ SpecFloat.shr_m (SpecFloat.shr mrs e n).1 ≤ SpecFloat.shr_m mrs
  ∧ ((SpecFloat.shr mrs e n).2 = e ∨ (SpecFloat.shr mrs e n).2 = e + n).
Proof.
  intros Hm. destruct n as [|p|p]; simpl; [split; [lia|by left]| |split; [lia|by left]].
  split; [by apply iter_shr_1_bound|by right].
Qed.

Lemma shr_record_of_loc_m m l : SpecFloat.shr_m (SpecFloat.shr_record_of_loc m l) = m.
Proof. by destruct l as [|[]]. Qed.

Lemma shr_fexp_bound prec emax m e l :
  0 ≤ m →
  0 ≤ SpecFloat.shr_m (SpecFloat.shr_fexp prec emax m e l).1 ≤ m
  ∧ ((SpecFloat.shr_fexp prec emax m e l).2 = e
     ∨ (SpecFloat.shr_fexp prec emax m e l).2
       = SpecFloat.fexp prec emax (SpecFloat.Zdigits2 m + e)).
Proof.
  intros Hm. unfold SpecFloat.shr_fexp.
  destruct (shr_bound (SpecFloat.shr_record_of_loc m l) e
              (SpecFloat.fexp prec emax (SpecFloat.Zdigits2 m + e) - e)) as [Hb He].
  { by rewrite shr_record_of_loc_m. }
  rewrite shr_record_of_loc_m in Hb. split; [done|].
  destruct He as [He|He]; [by left|right]. rewrite He. lia.
Qed.

Lemma round_nearest_even_bound m l :
  m ≤ SpecFloat.round_nearest_even m l ≤ m + 1.
Proof. destruct l as [|[]]; simpl; [lia| |lia..]. destruct (Z.even m); lia. Qed.

Lemma binary_round_aux_finite sx mz ez lz :
  0 ≤ mz ≤ 2 ^ (- ez) → -1074 ≤ ez ≤ -53 →
  ∀ s, SpecFloat.binary_round_aux FloatOps.prec FloatOps.emax sx mz ez lz
       ≠ SpecFloat.S754_infinity s.
Proof.
  intros [Hm0 Hm] He s. unfold SpecFloat.binary_round_aux.
  destruct (SpecFloat.shr_fexp FloatOps.prec FloatOps.emax mz ez lz) as [mrs1 e1] eqn:H1.
  pose proof (shr_fexp_bound FloatOps.prec FloatOps.emax mz ez lz Hm0) as [Hb1 He1].
  rewrite H1 in Hb1, He1. simpl in Hb1, He1.
  assert (Hpow : 2 ^ (- ez + 1) = 2 * 2 ^ (- ez))
    by (rewrite Z.pow_add_r, Z.pow_1_r by lia; lia).
  assert (2 ^ 1 ≤ 2 ^ (- ez)) by (apply Z.pow_le_mono_r; lia).
  assert (Hd : SpecFloat.Zdigits2 mz ≤ - ez + 1)
    by (apply Zdigits2_bound; lia).
  assert (He1' : e1 ≤ -52).
  { destruct He1 as [->| ->]; [lia|].
    unfold SpecFloat.fexp, SpecFloat.emin, FloatOps.prec, FloatOps.emax. lia. }
  set (m2 := SpecFloat.round_nearest_even (SpecFloat.shr_m mrs1)
               (SpecFloat.loc_of_shr_record mrs1)).
  pose proof (round_nearest_even_bound (SpecFloat.shr_m mrs1)
                (SpecFloat.loc_of_shr_record mrs1)) as Hr. fold m2 in Hr.
  destruct (SpecFloat.shr_fexp FloatOps.prec FloatOps.emax m2 e1 SpecFloat.loc_Exact)
    as [mrs2 e2] eqn:H2.
  pose proof (shr_fexp_bound FloatOps.prec FloatOps.emax m2 e1 SpecFloat.loc_Exact) as Hb2.
  rewrite H2 in Hb2. simpl in Hb2. destruct Hb2 as [_ He2]; [lia|].
  assert (Hd2 : SpecFloat.Zdigits2 m2 ≤ - ez + 1)
    by (apply Zdigits2_bound; lia).
  assert (e2 ≤ 971).
  { destruct He2 as [->| ->]; [lia|].
    unfold SpecFloat.fexp, SpecFloat.emin, FloatOps.prec, FloatOps.emax. lia. }
  destruct (SpecFloat.shr_m mrs2); [done| |done].
  destruct (Z.leb_spec e2 (FloatOps.emax - FloatOps.prec)) as [|Hgt]; [done|].
  unfold FloatOps.prec, FloatOps.emax in Hgt. lia.
Qed.

Lemma SFdiv_finite (a b : positive) sa sb :
  (a ≤ b)%positive →
  ∀ s,
    SpecFloat.SFdiv FloatOps.prec FloatOps.emax
      (SpecFloat.S754_finite sa a 0) (SpecFloat.S754_finite sb b 0)
    ≠ SpecFloat.S754_infinity s.
Proof.
  intros Hab s. unfold SpecFloat.SFdiv, SpecFloat.SFdiv_core_binary.
  pose proof (pos_size_mono a b Hab) as Hsz.
  cbn [SpecFloat.Zdigits2]. rewrite (digits2_pos_size a), (digits2_pos_size b).
  set (e' := Z.min _ _).
  assert (He' : -1074 ≤ e' ≤ -53).
  { subst e'. unfold SpecFloat.fexp, SpecFloat.emin, FloatOps.prec, FloatOps.emax. lia. }
  replace (0 - 0 - e') with (- e') by lia.
  destruct (- e') as [|p|p] eqn:Hs; [lia| |lia].
  rewrite Z.shiftl_mul_pow2 by lia.
  destruct (Z.div_eucl (Z.pos a * 2 ^ Z.pos p) (Z.pos b)) as [q r] eqn:Hdiv.
  apply binary_round_aux_finite; [|done].
  assert (q = Z.pos a * 2 ^ Z.pos p / Z.pos b) as -> by (unfold Z.div; by rewrite Hdiv).
  rewrite Hs. assert (0 < 2 ^ Z.pos p) by (apply Z.pow_pos_nonneg; lia).
  split; [apply Z.div_pos; lia|].
  apply Z.div_le_upper_bound; [lia|]. nia.
Qed.

Lemma int_truediv_returns (a b : Z) :
  0 ≤ a ≤ b → 0 < b → ∃ q, Binary64.int_truediv a b = ret q.
Proof.
  intros Hab Hb. unfold Binary64.int_truediv.
  destruct (Z.eqb_spec b 0); [lia|].
  destruct a as [|pa|pa]; [by eexists| |lia].
  destruct b as [|pb|pb]; [lia| |lia]. cbn [Z.abs Z.to_pos].
  destruct (SpecFloat.SFdiv _ _ _ _) as [| | |] eqn:Hdiv; [by eexists| |by eexists..].
  apply SFdiv_finite in Hdiv; [done|lia].
Qed.

(** What a returning call has computed. *)

Lemma float_constant_factor_inv (seq : list pystr) cf cc :
  Binary64.constant_factor seq = ret (cf, cc) →
  counts_of (symbols_of seq) cc
  ∧ Binary64.int_truediv 1 (concentration (symbols_of seq)) = ret cf.
Proof.
  unfold Binary64.constant_factor.
  rewrite (pow_product_counts _ _ (count_chars_counts (py_slice seq 0 (-1)))).
  intros (q & Hq & [= <- <-])%bind_ret_inv. split; [|done].
  apply count_chars_counts.
Qed.


Lemma float_build_distribution_returns (pc : gmap production Z) (cc : gmap ascii Z) :
  (∀ pr freq, pc !! pr = Some freq →
     ∃ n, cc !! pr.1 = Some n ∧ 0 ≤ freq ≤ n ∧ 0 < n) →
  ∃ dist, Binary64.build_distribution pc cc = ret dist.
Proof.
  unfold Binary64.build_distribution.
  apply (map_fold_weak_ind (λ r m,
           (∀ pr freq, m !! pr = Some freq →
              ∃ n, cc !! pr.1 = Some n ∧ 0 ≤ freq ≤ n ∧ 0 < n) →
           ∃ dist, r = ret dist)).
  - intros _. by eexists.
  - intros pr freq m r Hm IH Hgood.
    destruct IH as [dist ->].
    { intros pr' freq' Hpr'. apply (Hgood pr' freq').
      rewrite lookup_insert_ne; [done|]. by intros ->; rewrite Hm in Hpr'. }
    destruct (Hgood pr freq) as (n & Hn & Hfreq & Hn0); [apply lookup_insert_eq|].
    cbn [bind ret]. rewrite Hn.
    destruct (int_truediv_returns freq n Hfreq Hn0) as [q ->]. by eexists.
Qed.

Lemma float_overall_dervs_maxprob_inv (seq : list pystr) dist best p :
  Binary64.overall_dervs_maxprob seq = ret (dist, best, p) →
  ∃ ds (n : nat) cf cc,
    get_derivations seq = ret ds
    ∧ ds !! n = Some best
    ∧ (∀ d, d ∈ ds → non_constant_factor d ≤ non_constant_factor best)
    ∧ (∀ (n' : nat) d', (n' < n)%nat → ds !! n' = Some d' →
         non_constant_factor d' < non_constant_factor best)
    ∧ Binary64.constant_factor seq = ret (cf, cc)
    ∧ Binary64.build_distribution (get_prod_count best) cc = ret dist
    ∧ Binary64.int_mul_float (non_constant_factor best) cf = ret p.
Proof.
  unfold Binary64.overall_dervs_maxprob, optimal_scaled_probability_val.
  intros (ds & Hds & H)%bind_ret_inv.
  apply bind_ret_inv in H as (max_prob & Hmax & H).
  apply bind_ret_inv in H as (max_index & Hidx & H).
  apply bind_ret_inv in H as (best' & Hbest & H).
  apply bind_ret_inv in H as ([cf cc] & Hcf & H).
  apply bind_ret_inv in H as (dist' & Hdist & H).
  apply bind_ret_inv in H as (p' & Hp & [= <- <- <-]).
  apply py_max_spec in Hmax as [_ Hmax].
  apply py_index_spec in Hidx as (n & -> & Hn & Hfirst).
  apply py_item_spec in Hbest.
  rewrite list_lookup_fmap, Hbest in Hn. injection Hn as Hn.
  exists ds, n, cf, cc. rewrite Hn. split_and!; try done.
  - intros d Hd. apply Hmax. by apply list_elem_of_fmap_2.
  - intros n' d' Hlt Hd'.
    assert (non_constant_factor d' ≤ max_prob).
    { apply Hmax, list_elem_of_fmap_2. by eapply list_elem_of_lookup_2. }
    assert (non_constant_factor d' ≠ max_prob); [|lia].
    apply (Hfirst n'); [done|]. by rewrite list_lookup_fmap, Hd'.
Qed.

(** The probabilities of a symbol. *)





(** C5. The final probability [overall_dervs_maxprob] returns is the
    concentration factor of the best derivation, a derivation of greatest
    concentration factor among the enumerated ones, times the normalizing
    constant [1 / ∏ count(c) ** count(c)], the product being over the
    characters that occur in the non-final strings: the [float] product of
    the factor, converted to [float], and the quotient. *)
Theorem overall_dervs_maxprob_final_probability (seq : list pystr) dist best p :
  Binary64.overall_dervs_maxprob seq = ret (dist, best, p) →
  ∃ ds factor constant,
    get_derivations seq = ret ds
    ∧ best ∈ ds
    ∧ (∀ d, d ∈ ds → concentration_factor d ≤ concentration_factor best)
    ∧ Binary64.int_to_float (concentration_factor best) = ret factor
    ∧ Binary64.int_truediv 1 (concentration (symbols_of seq)) = ret constant
    ∧ p = PrimFloat.mul factor constant.
Proof.
  intros (ds & n & cf & cc & Hds & Hn & Hmax & _ & Hcf & _ & Hp)%float_overall_dervs_maxprob_inv.
  apply float_constant_factor_inv in Hcf as (_ & Hcf).
  unfold Binary64.int_mul_float in Hp.
  apply bind_ret_inv in Hp as (factor & Hfactor & [= <-]).
  rewrite non_constant_factor_spec in Hfactor.
  exists ds, factor, cf. split_and!; [done| |..|done|done|done].
  - by eapply list_elem_of_lookup_2.
  - intros d Hd. rewrite <- !non_constant_factor_spec. by apply Hmax.
Qed.

Lemma float_sample_result_returned :
  Binary64.overall_dervs_maxprob sample_seq
  = ret (float_sample_result.1.1, float_sample_result.1.2, float_sample_result.2).
Proof. vm_cast_no_check (eq_refl (Binary64.overall_dervs_maxprob sample_seq)). Qed.

Lemma overall_dervs_maxprob_final_probability_witness :
  ∃ ds factor constant,
    get_derivations sample_seq = ret ds
    ∧ float_sample_result.1.2 ∈ ds
    ∧ (∀ d, d ∈ ds →
         concentration_factor d ≤ concentration_factor float_sample_result.1.2)
    ∧ Binary64.int_to_float (concentration_factor float_sample_result.1.2) = ret factor
    ∧ Binary64.int_truediv 1 (concentration (symbols_of sample_seq)) = ret constant
    ∧ float_sample_result.2 = PrimFloat.mul factor constant.
Proof.
  apply (overall_dervs_maxprob_final_probability sample_seq float_sample_result.1.1).
  apply float_sample_result_returned.
Defined.

(** Runs in binary64. *)

(** The example of the repository: the exact value is 1, the product
    [729 * (1 / 729)] is the double below it. *)
Example float_AB_ABAB_ABABABAB :
  ∃ dist best p,
    Binary64.overall_dervs_maxprob [str "AB"; str "ABAB"; str "ABABABAB"]
    = ret (dist, best, p)
    ∧ concentration_factor best = 729
    ∧ concentration (symbols_of [str "AB"; str "ABAB"; str "ABABABAB"]) = 729
    ∧ PrimFloat.ltb p PrimFloat.one = true.
Proof.
  pose (r := returned
          (Binary64.overall_dervs_maxprob [str "AB"; str "ABAB"; str "ABABABAB"])
          (∅, ∅, PrimFloat.zero)).
  exists r.1.1, r.1.2, r.2. split_and!; vm_compute; reflexivity.
Qed.

(** ** Outcomes of utils.py and solver_q1.py *)

(** X9. [constant_factor] returns on every sequence. The product it
    divides 1 by is at least 1, so that the division neither fails nor
    overflows; the factor is the quotient rounded to the nearest double,
    which a large product makes 0.0. The dictionary it returns holds, for
    each character of the non-final strings and for no other, its number of
    occurrences there. *)
Theorem constant_factor_total (seq : list pystr) :
  let product := pow_product (count_chars (py_slice seq 0 (-1))) in
  1 ≤ product
  ∧ product = concentration (symbols_of seq)
  ∧ ∃ cf cc, Binary64.constant_factor seq = ret (cf, cc)
      ∧ Binary64.int_truediv 1 product = ret cf
      ∧ (∀ c, is_Some (cc !! c) ↔ c ∈ symbols_of seq)
      ∧ (∀ c, default 0 (cc !! c) = occ c (symbols_of seq)).
Proof.
  pose proof (count_chars_counts (py_slice seq 0 (-1))) as Hcc.
  pose proof (concentration_pos (symbols_of seq)) as Hpos.
  cbn zeta. rewrite (pow_product_counts _ _ Hcc). fold (symbols_of seq).
  split; [lia|]. split; [done|].
  destruct (int_truediv_returns 1 (concentration (symbols_of seq))) as [cf Hcf]; [lia..|].
  exists cf, (count_chars (py_slice seq 0 (-1))). split_and!; [|done| |].
  - unfold Binary64.constant_factor. rewrite (pow_product_counts _ _ Hcc).
    fold (symbols_of seq). by rewrite Hcf.
  - intros c. rewrite (Hcc c). fold (symbols_of seq). rewrite occ_elem_of.
    destruct (decide (occ c (symbols_of seq) = 0)).
    + split; [by intros [? ?]|done].
    + split; [done|by eexists].
  - by intros c; apply counts_of_default.
Qed.

(** The reciprocal of a large product underflows to zero. *)
Example float_constant_factor_underflow :
  ∃ cc, Binary64.constant_factor [replicate 200 "A"%char; str "B"]
        = ret (PrimFloat.zero, cc).
Proof. eexists. vm_compute. reflexivity. Qed.

(** The selector in binary64 on a sequence that has a derivation: it
    returns the first derivation of the greatest score, unless that score
    is beyond the doubles. *)
Lemma float_overall_dervs_maxprob_returns (seq : list pystr) ds :
  get_derivations seq = ret ds → ds ≠ [] →
  ∃ best, best ∈ ds
    ∧ (∀ d, d ∈ ds → non_constant_factor d ≤ non_constant_factor best)
    ∧ ((∃ score dist p,
          Binary64.int_to_float (non_constant_factor best) = ret score
          ∧ Binary64.overall_dervs_maxprob seq = ret (dist, best, p))
       ∨ (Binary64.int_to_float (non_constant_factor best) = raise OverflowError
          ∧ Binary64.overall_dervs_maxprob seq = raise OverflowError)).
Proof.
  intros Hds Hne. unfold Binary64.overall_dervs_maxprob. rewrite Hds. cbn [bind ret].
  destruct ds as [|d0 ds']; [done|]. set (ds := d0 :: ds') in *.
  destruct (py_max (optimal_scaled_probability_val seq <$> ds)) as [[m|e]|] eqn:Hmax;
    [|done..].
  cbn [bind ret]. destruct (py_max_spec _ _ Hmax) as [Hin Hle].
  destruct (py_index_returns _ _ Hin) as (n & Hidx & Hn). rewrite Hidx. cbn [bind ret].
  apply py_index_spec in Hidx as (n' & Hn' & Hm & _).
  apply Nat2Z.inj in Hn' as <-.
  rewrite length_fmap in Hn.
  destruct (lookup_lt_is_Some_2 ds n Hn) as [best Hbest].
  rewrite list_lookup_fmap, Hbest in Hm. injection Hm as Hm.
  unfold optimal_scaled_probability_val in Hm, Hle.
  unfold py_item. rewrite py_get_nat, Nat2Z.id, Hbest by lia. cbn [bind ret].
  pose proof (list_elem_of_lookup_2 _ _ _ Hbest) as Hbest'.
  exists best. split; [done|]. split.
  { intros d Hd. rewrite Hm. apply Hle. by apply list_elem_of_fmap_2. }
  pose proof (count_chars_counts (py_slice seq 0 (-1))) as Hcc.
  pose proof (concentration_pos (symbols_of seq)) as Hpos.
  unfold Binary64.constant_factor. rewrite (pow_product_counts _ _ Hcc).
  fold (symbols_of seq).
  destruct (int_truediv_returns 1 (concentration (symbols_of seq))) as [cf ->]; [lia..|].
  cbn [bind ret].
  destruct (float_build_distribution_returns (get_prod_count best)
              (count_chars (py_slice seq 0 (-1)))) as [dist ->].
  { intros pr freq Hfreq.
    pose proof (get_prod_count_counts best) as Hpc.
    destruct (counts_of_positive _ _ _ _ Hpc Hfreq) as [Hfpos Hpr].
    pose proof (productions_symbols seq ds best Hds Hbest') as Hperm.
    assert (Hfreq' : freq = occ pr (productions_of best))
      by by rewrite <- (counts_of_default _ _ pr Hpc), Hfreq.
    assert (Hle' : freq ≤ occ pr.1 (symbols_of seq)).
    { rewrite Hfreq', <- (occ_perm pr.1 _ _ Hperm). apply (occ_fmap_le fst pr). }
    exists (occ pr.1 (symbols_of seq)). split; [|lia].
    rewrite (Hcc pr.1). fold (symbols_of seq). rewrite decide_False; [done|lia]. }
  cbn [bind ret]. unfold Binary64.int_mul_float. rewrite <- Hm.
  destruct (int_to_float_outcome (non_constant_factor best)) as [[score ->]| ->];
    [left|by right].
  by eexists _, _, _.
Qed.

Lemma float_overall_dervs_maxprob_no_derivation (seq : list pystr) :
  get_derivations seq = ret [] → Binary64.overall_dervs_maxprob seq = raise ValueError.
Proof. intros Hds. unfold Binary64.overall_dervs_maxprob. by rewrite Hds. Qed.

(** A score beyond the doubles: [144 ** 144]. *)
Example float_overflow :
  Binary64.overall_dervs_maxprob (replicate 145 (str "A")) = raise OverflowError.
Proof. vm_compute. reflexivity. Qed.

(** X10. The outcomes of [overall_dervs_maxprob] when the interpreter lets
    the search nest [dfs_fuel seq] calls (what it does on a deeper
    recursion, where Python raises a [RecursionError], is not said): an
    [IndexError] on the empty sequence; a [ValueError], from [max] of an
    empty list, when some string of at least two characters is followed by
    a shorter one; on every other sequence a result with the first
    derivation of the greatest score, or, when that score is too large an
    [int] to convert to a [float], the [OverflowError] of
    [max_prob * const_factor]. The look-up [seq_char_count[char]] and the
    divisions never fail. *)
Theorem overall_dervs_maxprob_outcome (seq : list pystr) (frames : nat) :
  (dfs_fuel seq ≤ frames)%nat →
  let search := _dfs_all_derivations frames seq 0 0 (-1) (∅, []) in
  (seq = [] ∧ search = raise IndexError
   ∧ Binary64.overall_dervs_maxprob seq = raise IndexError)
  ∨ (too_long seq ∧ (∃ m, search = ret (m, []))
     ∧ Binary64.overall_dervs_maxprob seq = raise ValueError)
  ∨ (seq ≠ [] ∧ ¬ too_long seq
     ∧ ∃ m ds best, search = ret (m, ds) ∧ best ∈ ds
         ∧ (∀ d, d ∈ ds → non_constant_factor d ≤ non_constant_factor best)
         ∧ ((∃ score dist p,
               Binary64.int_to_float (non_constant_factor best) = ret score
               ∧ Binary64.overall_dervs_maxprob seq = ret (dist, best, p))
            ∨ (Binary64.int_to_float (non_constant_factor best) = raise OverflowError
               ∧ Binary64.overall_dervs_maxprob seq = raise OverflowError))).
Proof.
  intros Hframes search.
  destruct (decide (seq = [])) as [->|Hne].
  { left. split; [done|]. split; [|done]. subst search.
    destruct frames; [unfold dfs_fuel in Hframes; simpl in Hframes; lia|done]. }
  right. pose proof (get_derivations_paths seq Hne) as Hds.
  destruct (dfs_enough_frames seq frames Hne Hframes) as [m Hm]. fold search in Hm.
  destruct (list_to_map <$> paths 0 seq) as [|d0 ds] eqn:Hl.
  - left. split; [by apply derivations_none_iff|]. split; [by exists m|].
    by apply float_overall_dervs_maxprob_no_derivation.
  - right. split; [done|]. split.
    { intros Hlong%derivations_none_iff. by rewrite Hds in Hlong. }
    destruct (float_overall_dervs_maxprob_returns seq (d0 :: ds) Hds) as (best & H);
      [done|].
    by exists m, (d0 :: ds), best.
Qed.

Lemma overall_dervs_maxprob_outcome_witness :
  (dfs_fuel sample_seq ≤ 1000)%nat
  ∧ let search := _dfs_all_derivations 1000 sample_seq 0 0 (-1) (∅, []) in
    (sample_seq = [] ∧ search = raise IndexError
     ∧ Binary64.overall_dervs_maxprob sample_seq = raise IndexError)
    ∨ (too_long sample_seq ∧ (∃ m, search = ret (m, []))
       ∧ Binary64.overall_dervs_maxprob sample_seq = raise ValueError)
    ∨ (sample_seq ≠ [] ∧ ¬ too_long sample_seq
       ∧ ∃ m ds best, search = ret (m, ds) ∧ best ∈ ds
           ∧ (∀ d, d ∈ ds → non_constant_factor d ≤ non_constant_factor best)
           ∧ ((∃ score dist p,
                 Binary64.int_to_float (non_constant_factor best) = ret score
                 ∧ Binary64.overall_dervs_maxprob sample_seq = ret (dist, best, p))
              ∨ (Binary64.int_to_float (non_constant_factor best) = raise OverflowError
                 ∧ Binary64.overall_dervs_maxprob sample_seq = raise OverflowError))).
Proof.
  assert (H : (dfs_fuel sample_seq ≤ 1000)%nat) by (vm_compute; lia).
  split; [exact H|]. exact (overall_dervs_maxprob_outcome sample_seq 1000 H).
Defined.

(** X11. The distribution [overall_dervs_maxprob] returns has an entry for
    exactly the productions the returned derivation uses, and each of its
    probabilities lies in (0, 1]. *)
Theorem overall_dervs_maxprob_distribution (seq : list pystr) dist best p :
  overall_dervs_maxprob seq = ret (dist, best, p) →
  (∀ pr, is_Some (dist !! pr) ↔ ∃ k, best !! k = Some pr)
  ∧ (∀ pr q, dist !! pr = Some q → (0 < q ≤ 1)%Qc).
Proof.
  intros Hret.
  destruct (overall_dervs_maxprob_inv _ _ _ _ Hret)
    as (ds & n & cf & cc & Hds & Hbest & _ & _ & Hcf & Hdist & _).
  apply build_distribution_spec in Hdist as ->.
  apply constant_factor_spec in Hcf as (Hcc & _ & _).
  pose proof (get_prod_count_counts best) as Hpc.
  assert (Hlook : ∀ pr q,
            map_imap (λ pr freq, Some (relative_frequency cc pr freq))
              (get_prod_count best) !! pr = Some q
            ↔ pr ∈ productions_of best
              ∧ q = (Qc_of_Z (occ pr (productions_of best))
                     / Qc_of_Z (occ pr.1 (symbols_of seq)))%Qc).
  { intros pr q. rewrite map_lookup_imap, (Hpc pr), occ_elem_of.
    unfold relative_frequency. rewrite (counts_of_default _ _ _ Hcc).
    destruct (decide (occ pr (productions_of best) = 0)); simpl.
    - split; [done|]. by intros [? _].
    - split; [by intros [= <-]|]. by intros [_ ->]. }
  assert (Hin : ∀ pr, pr ∈ productions_of best ↔ ∃ k, best !! k = Some pr).
  { intros pr. unfold productions_of. rewrite list_elem_of_fmap. split.
    - intros ([k pr'] & -> & Hk). exists k. by apply elem_of_map_to_list.
    - intros [k Hk]. exists (k, pr). split; [done|]. by apply elem_of_map_to_list. }
  split.
  - intros pr. rewrite <- Hin. split.
    + intros [q Hq]. by apply Hlook in Hq as [? _].
    + intros Hpr. eexists. apply Hlook. by split.
  - intros pr q [Hpr ->]%Hlook. apply Qc_ratio_bounds.
    + apply (proj1 (occ_elem_of _ _)) in Hpr.
      pose proof (occ_nonneg pr (productions_of best)). lia.
    + rewrite <- (occ_perm _ _ _ (productions_symbols seq ds best Hds
                                   (list_elem_of_lookup_2 _ _ _ Hbest))).
      apply (occ_fmap_le fst).
Qed.

Lemma overall_dervs_maxprob_distribution_witness :
  (∀ pr, is_Some (sample_result.1.1 !! pr) ↔ ∃ k, sample_result.1.2 !! k = Some pr)
  ∧ (∀ pr q, sample_result.1.1 !! pr = Some q → (0 < q ≤ 1)%Qc).
Proof.
  apply (overall_dervs_maxprob_distribution sample_seq _ _ sample_result.2).
  apply sample_result_returned.
Defined.

(** X12. The score [non_constant_factor] of a derivation of the sequence is
    positive and at most the product [constant_factor] divides by: of the
    two integers whose quotient is the final probability, the first does
    not exceed the second. *)
Theorem non_constant_factor_bounded (seq : list pystr) ds d :
  get_derivations seq = ret ds → d ∈ ds →
  0 < non_constant_factor d ≤ pow_product (count_chars (py_slice seq 0 (-1))).
Proof.
  intros Hds Hd.
  rewrite (pow_product_counts _ _ (count_chars_counts (py_slice seq 0 (-1)))).
  rewrite non_constant_factor_spec.
  apply (symbols_concentration seq ds d Hds Hd).
Qed.

Lemma non_constant_factor_bounded_witness :
  0 < non_constant_factor derivation_A_BB
    ≤ pow_product (count_chars (py_slice seq_AB_ABB 0 (-1))).
Proof.
  apply (non_constant_factor_bounded seq_AB_ABB derivations_AB_ABB).
  - apply get_derivations_AB_ABB.
  - apply list_elem_of_here.
Defined.

(** ** The order of [sorted] *)

Lemma N_of_ascii_inj (a b : ascii) : N_of_ascii a = N_of_ascii b → a = b.
Proof.
  intros Hab. rewrite <- (ascii_N_embedding a), <- (ascii_N_embedding b). by rewrite Hab.
Qed.

Ltac ascii_cases :=
  unfold ascii_ltb in *;
  repeat match goal with
  | H : context [N.ltb ?a ?b] |- _ => destruct (N.ltb_spec a b); try done
  | |- context [N.ltb ?a ?b] => destruct (N.ltb_spec a b); try done
  end;
  try lia.

Lemma pystr_leb_total (s t : pystr) : pystr_leb s t ∨ pystr_leb t s.
Proof.
  revert t. induction s as [|a s IH]; intros [|b t]; simpl; auto.
  destruct (IH t); ascii_cases; auto.
Qed.

Lemma pystr_leb_trans (s t u : pystr) : pystr_leb s t → pystr_leb t u → pystr_leb s u.
Proof.
  revert t u. induction s as [|a s IH]; intros [|b t] [|c u]; simpl; try done.
  intros Hst Htu. specialize (IH t u).
  ascii_cases; apply IH; done.
Qed.

Lemma pystr_leb_antisymm (s t : pystr) : pystr_leb s t → pystr_leb t s → s = t.
Proof.
  revert t. induction s as [|a s IH]; intros [|b t]; simpl; try done.
  intros Hst Hts. specialize (IH t).
  ascii_cases. f_equal; [apply N_of_ascii_inj; lia|by apply IH].
Qed.

Global Instance production_leb_total : Total (λ p q, Is_true (production_leb p q)).
Proof.
  intros [a s] [b t]. unfold production_leb. simpl.
  destruct (pystr_leb_total s t); ascii_cases; auto.
Qed.

Global Instance production_leb_trans : Transitive (λ p q, Is_true (production_leb p q)).
Proof.
  intros [a s] [b t] [c u]. unfold production_leb. simpl.
  intros Hst Htu. pose proof (pystr_leb_trans s t u).
  ascii_cases; auto.
Qed.

Global Instance production_leb_antisymm :
  AntiSymm (=) (λ p q, Is_true (production_leb p q)).
Proof.
  intros [a s] [b t]. unfold production_leb. simpl.
  intros Hst Hts. pose proof (pystr_leb_antisymm s t).
  ascii_cases. f_equal; [apply N_of_ascii_inj; lia|auto].
Qed.

Lemma sorted_productions_NoDup (all_pairs : gset production) :
  NoDup (sorted_productions all_pairs).
Proof. unfold sorted_productions. rewrite merge_sort_Permutation. apply NoDup_elements. Qed.

Lemma elem_of_sorted_productions (all_pairs : gset production) pr :
  pr ∈ sorted_productions all_pairs ↔ pr ∈ all_pairs.
Proof. unfold sorted_productions. by rewrite merge_sort_Permutation, elem_of_elements. Qed.

Lemma elem_of_distinct_productions (dict_list : list derivation) pr :
  pr ∈ distinct_productions dict_list ↔ ∃ d k, d ∈ dict_list ∧ d !! k = Some pr.
Proof.
  unfold distinct_productions. rewrite elem_of_union_list. split.
  - intros (X & (d & -> & Hd)%list_elem_of_fmap & Hpr).
    apply elem_of_list_to_set in Hpr. unfold productions_of in Hpr.
    apply list_elem_of_fmap in Hpr as ([k pr'] & -> & Hk).
    exists d, k. split; [done|]. by apply elem_of_map_to_list.
  - intros (d & k & Hd & Hk). exists (list_to_set (productions_of d)). split.
    + apply list_elem_of_fmap. by exists d.
    + apply elem_of_list_to_set. unfold productions_of. apply list_elem_of_fmap.
      exists (k, pr). split; [done|]. by apply elem_of_map_to_list.
Qed.

(** ** [array_to_dict] *)

Lemma foldl_insert_list_to_map (l : list (production * Qc)) :
  ∀ d : distribution, NoDup l.*1 →
    foldl (λ d '(pr, v), <[pr := v]> d) d l = list_to_map l ∪ d.
Proof.
  induction l as [|[pr v] l IH]; intros d Hnd.
  - by rewrite list_to_map_nil, (left_id_L ∅ (∪)).
  - rewrite fmap_cons in Hnd. apply NoDup_cons in Hnd as [Hpr Hnd].
    cbn [foldl]. rewrite (IH _ Hnd), list_to_map_cons.
    rewrite <- insert_union_l. symmetry. apply insert_union_r.
    by apply not_elem_of_list_to_map_1.
Qed.

Lemma array_to_dict_zip (pairs_list : list production) (var_array : list Qc) :
  NoDup pairs_list → (length pairs_list ≤ length var_array)%nat →
  array_to_dict pairs_list var_array = ret (list_to_map (zip pairs_list var_array)).
Proof.
  intros Hnd Hlen. unfold array_to_dict.
  rewrite (array_to_dict_steps pairs_list var_array (length pairs_list) 0 ∅) by lia.
  rewrite decide_True by lia. rewrite !drop_0. f_equal. f_equal.
  rewrite foldl_insert_list_to_map, (right_id_L ∅ (∪)); [done|].
  by rewrite fst_zip.
Qed.

Lemma array_to_dict_dom (pairs_list : list production) (var_array : list Qc) d :
  array_to_dict pairs_list var_array = ret d →
  ∀ pr, is_Some (d !! pr) ↔ pr ∈ pairs_list.
Proof.
  intros Hd. destruct (decide (length pairs_list ≤ length var_array)%nat) as [Hlen|Hlen].
  2:{ rewrite array_to_dict_short in Hd by lia. done. }
  unfold array_to_dict in Hd.
  rewrite (array_to_dict_steps pairs_list var_array (length pairs_list) 0 ∅) in Hd by lia.
  rewrite decide_True in Hd by lia. rewrite !drop_0 in Hd. injection Hd as <-.
  assert (Hgen : ∀ (l : list (production * Qc)) (d0 : distribution) pr,
            is_Some (foldl (λ d '(pr, v), <[pr := v]> d) d0 l !! pr)
            ↔ pr ∈ l.*1 ∨ is_Some (d0 !! pr)).
  { induction l as [|[pr' v] l IH]; intros d0 pr.
    - simpl. split; [by right|]. by intros [?%elem_of_nil|?].
    - cbn [foldl]. rewrite IH, fmap_cons, elem_of_cons, lookup_insert_is_Some. simpl.
      destruct (decide (pr' = pr)) as [->|]; intuition congruence. }
  intros pr. rewrite Hgen, lookup_empty, fst_zip by done.
  split; [|by left]. intros [?|[? ?]]; done.
Qed.

(** X13. [array_to_dict] raises an [IndexError] when the array is shorter
    than [pairs_list] and returns otherwise; the dictionary it returns has
    an entry for exactly the pairs of [pairs_list], and, the pairs being
    distinct, the entry of [pairs_list[i]] is [var_array[i]]. *)
Theorem array_to_dict_lookup (pairs_list : list production) (var_array : list Qc) :
  ((length var_array < length pairs_list)%nat →
     array_to_dict pairs_list var_array = raise IndexError)
  ∧ ((length pairs_list ≤ length var_array)%nat →
     ∃ d, array_to_dict pairs_list var_array = ret d
          ∧ (∀ pr, is_Some (d !! pr) ↔ pr ∈ pairs_list)
          ∧ (NoDup pairs_list →
             ∀ (i : nat) pr, pairs_list !! i = Some pr → d !! pr = var_array !! i)).
Proof.
  split; [apply array_to_dict_short|]. intros Hlen.
  destruct (array_to_dict_returns pairs_list var_array Hlen) as [d Hd].
  exists d. split_and!; [done|by apply (array_to_dict_dom pairs_list var_array)|].
  intros Hnd i pr Hpr. rewrite array_to_dict_zip in Hd by done. injection Hd as <-.
  destruct (lookup_lt_is_Some_2 var_array i) as [v Hv].
  { apply lookup_lt_Some in Hpr. lia. }
  rewrite Hv. apply elem_of_list_to_map_1; [by rewrite fst_zip|].
  apply list_elem_of_lookup. exists i. apply lookup_zip_with_Some. eauto.
Qed.

(** ** The result of [solve_s0l] *)

Lemma sample_attempt_returned :
  solve_s0l stay_put [derivation_A_B] None
  = ret (sample_attempt.1.1.1, sample_attempt.1.1.2, sample_attempt.1.2, sample_attempt.2).
Proof. vm_cast_no_check (eq_refl (solve_s0l stay_put [derivation_A_B] None)). Qed.

(** [solve_s0l], with its first step carried out. *)
Lemma solve_s0l_steps (minimize : minimizer) (dict_list : list derivation)
    (init_guess : option (list Qc)) :
  let pairs_list := sorted_productions (distinct_productions dict_list) in
  let unique_chars := sorted_chars (list_to_set pairs_list.*1) in
  solve_s0l minimize dict_list init_guess
  = let* guess_arr := initial_guess pairs_list unique_chars init_guess in
    run_optimizer minimize pairs_list unique_chars (frequency_maps dict_list).1 guess_arr.
Proof.
  intros pairs_list unique_chars. unfold solve_s0l, unique_chars, pairs_list.
  rewrite <- frequency_maps_pairs.
  destruct (frequency_maps dict_list) as [fl ap]. reflexivity.
Qed.

Lemma StronglySorted_strict {A} (R : relation A) (l : list A) :
  StronglySorted R l → NoDup l → StronglySorted (λ x y, R x y ∧ x ≠ y) l.
Proof.
  induction 1 as [|x l Hl IH Hx]; intros Hnd; [constructor|].
  apply NoDup_cons in Hnd as [Hnin Hnd]. constructor; [by apply IH|].
  rewrite Forall_forall in *. intros y Hy. split; [by apply Hx|]. by intros ->.
Qed.

Lemma sorted_productions_sorted (all_pairs : gset production) :
  StronglySorted production_lt (sorted_productions all_pairs).
Proof.
  apply (StronglySorted_strict (λ p q, Is_true (production_leb p q))).
  - unfold sorted_productions. apply (StronglySorted_merge_sort _).
  - apply sorted_productions_NoDup.
Qed.

(** X14. What a returning call of [solve_s0l] returns. Its list of pairs
    holds exactly the productions that occur in the input derivations, in
    strictly ascending order. When the optimizer reports success, the
    value and the distribution are present and the distribution has an
    entry for exactly the pairs of the list; otherwise both are [None]. *)
Theorem solve_s0l_result (minimize : minimizer) (dict_list : list derivation)
    (init_guess : option (list Qc)) success val sol pairs_list :
  solve_s0l minimize dict_list init_guess = ret (success, val, sol, pairs_list) →
  (∀ pr, pr ∈ pairs_list ↔ ∃ d k, d ∈ dict_list ∧ d !! k = Some pr)
  ∧ StronglySorted production_lt pairs_list
  ∧ (if success
     then ∃ v d, val = Some v ∧ sol = Some d
                 ∧ ∀ pr, is_Some (d !! pr) ↔ pr ∈ pairs_list
     else val = None ∧ sol = None).
Proof.
  rewrite solve_s0l_steps. intros (guess_arr & _ & Hrun)%bind_ret_inv.
  unfold run_optimizer in Hrun.
  assert (Hpl : pairs_list = sorted_productions (distinct_productions dict_list)
          ∧ (if success
             then ∃ v d, val = Some v ∧ sol = Some d
                         ∧ ∀ pr, is_Some (d !! pr) ↔ pr ∈ pairs_list
             else val = None ∧ sol = None)).
  { apply bind_ret_inv in Hrun as (res & _ & Hrun). destruct (res_success res).
    - apply bind_ret_inv in Hrun as (d & Hd & [= <- <- <- <-]).
      split; [done|]. eexists _, d. split_and!; [done..|].
      by apply (array_to_dict_dom _ _ _ Hd).
    - by injection Hrun as <- <- <- <-. }
  destruct Hpl as [-> Hres]. split_and!; [|apply sorted_productions_sorted|done].
  intros pr. by rewrite elem_of_sorted_productions, elem_of_distinct_productions.
Qed.

Lemma solve_s0l_result_witness :
  (∀ pr, pr ∈ sample_attempt.2 ↔ ∃ d k, d ∈ [derivation_A_B] ∧ d !! k = Some pr)
  ∧ StronglySorted production_lt sample_attempt.2
  ∧ (if sample_attempt.1.1.1
     then ∃ v d, sample_attempt.1.1.2 = Some v ∧ sample_attempt.1.2 = Some d
                 ∧ ∀ pr, is_Some (d !! pr) ↔ pr ∈ sample_attempt.2
     else sample_attempt.1.1.2 = None ∧ sample_attempt.1.2 = None).
Proof.
  apply (solve_s0l_result stay_put [derivation_A_B] None). apply sample_attempt_returned.
Defined.

(** ** The starting point of [solve_s0l] *)

Lemma Qc_ltb_lt (a b : Qc) : Qc_ltb a b = true → (a < b)%Qc.
Proof.
  unfold Qc_ltb. intros Hab. apply Qclt_nge. intros Hle.
  apply negb_true_iff in Hab. apply (proj2 (Qle_bool_iff b a)) in Hle. congruence.
Qed.

Lemma uniform_guess_lookup (pairs_list : list production) (chars : list ascii)
    (i : nat) pr :
  pairs_list !! i = Some pr →
  uniform_guess pairs_list chars !! i
  = Some (if decide (pr.1 ∈ chars)
          then (1 / Qc_of_Z (py_len (indices_for_char pairs_list pr.1)))%Qc
          else 1%Qc).
Proof.
  intros Hpr. unfold uniform_guess.
  assert (Hgen : ∀ (arr : list Qc) x, arr !! i = Some x →
            foldl (λ guess_arr char,
                     set_uniform guess_arr (indices_for_char pairs_list char))
              arr chars !! i
            = Some (if decide (pr.1 ∈ chars)
                    then (1 / Qc_of_Z (py_len (indices_for_char pairs_list pr.1)))%Qc
                    else x)).
  { induction chars as [|c chars IH]; intros arr x Hx; [done|]. cbn [foldl].
    assert (Hstep : set_uniform arr (indices_for_char pairs_list c) !! i
              = Some (if decide (pr.1 = c)
                      then (1 / Qc_of_Z (py_len (indices_for_char pairs_list c)))%Qc
                      else x)).
    { unfold set_uniform.
      rewrite (lookup_foldl_insert
                 (λ _, (1 / Qc_of_Z (py_len (indices_for_char pairs_list c)))%Qc)).
      rewrite Hx. simpl. destruct (decide (pr.1 = c)) as [Hc|Hc].
      - rewrite decide_True; [done|]. apply elem_of_indices_for_char. eauto.
      - rewrite decide_False; [done|].
        intros (pr' & Hpr' & Hc')%elem_of_indices_for_char. congruence. }
    rewrite (IH _ _ Hstep).
    destruct (decide (pr.1 ∈ chars)) as [Hin|Hnin].
    - by rewrite decide_True by (by right).
    - destruct (decide (pr.1 = c)) as [<-|Hc].
      + by rewrite decide_True by (by left).
      + rewrite decide_False; [done|]. intros [?|?]%elem_of_cons; congruence. }
  apply Hgen. apply lookup_replicate. split; [done|]. by apply lookup_lt_Some in Hpr.
Qed.

Lemma indices_for_char_pos (pairs_list : list production) (char : ascii) :
  char ∈ pairs_list.*1 → 0 < py_len (indices_for_char pairs_list char).
Proof.
  intros (pr & -> & (i & Hi)%list_elem_of_lookup)%list_elem_of_fmap.
  assert (i ∈ indices_for_char pairs_list pr.1) as Hin
    by (apply elem_of_indices_for_char; eauto).
  unfold py_len. destruct (indices_for_char pairs_list pr.1); [|simpl; lia].
  by apply elem_of_nil in Hin.
Qed.

Lemma sample_guess_returned :
  let pairs_list := sorted_productions (distinct_productions derivations_AB_ABB) in
  initial_guess pairs_list (sorted_chars (list_to_set pairs_list.*1)) None
  = ret sample_guess.
Proof. done. Qed.

(** X15. The starting point [solve_s0l] hands to the optimizer has one
    entry per pair. Without [init_guess] it is uniform within each symbol:
    the entry of a pair is [1.0 / k], with [k], at least 1, the number of
    pairs of its symbol, and so lies in (0, 1], within the bounds handed
    to the optimizer. *)
Theorem solve_s0l_uniform_start (dict_list : list derivation)
    (init_guess : option (list Qc)) (guess_arr : list Qc) :
  let pairs_list := sorted_productions (distinct_productions dict_list) in
  let unique_chars := sorted_chars (list_to_set pairs_list.*1) in
  initial_guess pairs_list unique_chars init_guess = ret guess_arr →
  length guess_arr = length pairs_list
  ∧ (init_guess = None →
       (∀ (i : nat) pr, pairs_list !! i = Some pr →
          1 ≤ py_len (indices_for_char pairs_list pr.1)
          ∧ guess_arr !! i
            = Some (1 / Qc_of_Z (py_len (indices_for_char pairs_list pr.1)))%Qc)
       ∧ Forall (λ x, (0 < x ≤ 1)%Qc) guess_arr).
Proof.
  intros pairs_list unique_chars Hguess.
  assert (Hchars : ∀ char, char ∈ unique_chars ↔ char ∈ pairs_list.*1).
  { intros char. unfold unique_chars.
    by rewrite elem_of_sorted_chars, elem_of_list_to_set. }
  split.
  { destruct init_guess as [g|]; cbn [initial_guess] in Hguess.
    - unfold py_len in Hguess.
      destruct (Z.eqb_spec (Z.of_nat (length g)) (Z.of_nat (length pairs_list)))
        as [Heq%Nat2Z.inj|]; [|done].
      injection Hguess as <-. by rewrite normalize_guess_length.
    - injection Hguess as <-. apply uniform_guess_length. }
  intros ->. cbn [initial_guess] in Hguess. injection Hguess as <-.
  assert (Hentry : ∀ (i : nat) pr, pairs_list !! i = Some pr →
            1 ≤ py_len (indices_for_char pairs_list pr.1)
            ∧ uniform_guess pairs_list unique_chars !! i
              = Some (1 / Qc_of_Z (py_len (indices_for_char pairs_list pr.1)))%Qc).
  { intros i pr Hpr.
    assert (Hin : pr.1 ∈ pairs_list.*1).
    { apply (list_elem_of_fmap_2 fst), (list_elem_of_lookup_2 _ i), Hpr. }
    pose proof (indices_for_char_pos pairs_list pr.1 Hin). split; [lia|].
    rewrite (uniform_guess_lookup _ _ i pr Hpr).
    by rewrite decide_True by (by apply Hchars). }
  split; [done|].
  apply Forall_lookup. intros i x Hx.
  destruct (lookup_lt_is_Some_2 pairs_list i) as [pr Hpr].
  { apply lookup_lt_Some in Hx. by rewrite uniform_guess_length in Hx. }
  destruct (Hentry i pr Hpr) as [Hk Hi]. rewrite Hi in Hx. injection Hx as <-.
  rewrite <- Z2Qc_inj_1. apply Qc_ratio_bounds; lia.
Qed.

Lemma solve_s0l_uniform_start_witness :
  let pairs_list := sorted_productions (distinct_productions derivations_AB_ABB) in
  length sample_guess = length pairs_list
  ∧ ((None : option (list Qc)) = None →
       (∀ (i : nat) pr, pairs_list !! i = Some pr →
          1 ≤ py_len (indices_for_char pairs_list pr.1)
          ∧ sample_guess !! i
            = Some (1 / Qc_of_Z (py_len (indices_for_char pairs_list pr.1)))%Qc)
       ∧ Forall (λ x, (0 < x ≤ 1)%Qc) sample_guess).
Proof.
  apply (solve_s0l_uniform_start derivations_AB_ABB None sample_guess).
  apply sample_guess_returned.
Defined.

(** ** The objective of [solve_s0l] *)

Lemma frequency_maps_counters (dict_list : list derivation) :
  (frequency_maps dict_list).1 = Counter <$> dict_list.
Proof.
  unfold frequency_maps.
  cut (∀ fl (ap : gset production),
         (foldl (λ '(freq_list, all_pairs) derivation_dict,
                   let fm := Counter derivation_dict in
                   (freq_list ++ [fm], all_pairs ∪ dom fm)) (fl, ap) dict_list).1
         = fl ++ (Counter <$> dict_list)).
  { intros Hgen. by rewrite Hgen. }
  induction dict_list as [|d dict_list IH]; intros fl ap.
  - simpl. by rewrite app_nil_r.
  - cbn [foldl]. rewrite IH, fmap_cons. by rewrite <- app_assoc.
Qed.

(** The product over the elements of a list, grouped by distinct element. *)
Lemma Qc_foldr_mul_occ `{Countable K} (g : K → Qc) (l : list K) :
  foldr (λ x acc, acc * g x)%Qc 1%Qc l
  = foldr (λ k acc, acc * g k ^ Z.to_nat (occ k l))%Qc 1%Qc (remove_dups l).
Proof.
  induction l as [|x l IH]; [done|]. cbn [foldr]. rewrite IH.
  assert (Hbump : ∀ ks, NoDup ks →
            foldr (λ k acc, acc * g k ^ Z.to_nat (occ k (x :: l)))%Qc 1%Qc ks
            = (foldr (λ k acc, acc * g k ^ Z.to_nat (occ k l))%Qc 1%Qc ks
               * (if decide (x ∈ ks) then g x else 1))%Qc).
  { induction ks as [|k ks IHks]; intros Hnd; [simpl; ring|].
    apply NoDup_cons in Hnd as [Hk Hnd]. cbn [foldr]. rewrite (IHks Hnd), occ_cons.
    pose proof (occ_nonneg k l).
    destruct (decide (k = x)) as [->|Hne].
    - rewrite (decide_False (P := x ∈ ks)) by done.
      rewrite (decide_True (P := x ∈ x :: ks)) by (by left).
      rewrite Z2Nat.inj_add by lia. change (Z.to_nat 1) with 1%nat.
      rewrite Nat.add_1_r. cbn [Qcpower]. ring.
    - rewrite Z.add_0_r. destruct (decide (x ∈ ks)) as [Hin|Hnin].
      + rewrite (decide_True (P := x ∈ k :: ks)) by (by right). ring.
      + rewrite (decide_False (P := x ∈ k :: ks)); [ring|].
        intros [?|?]%elem_of_cons; congruence. }
  cbn [remove_dups]. destruct (decide_rel (∈) x l) as [Hin|Hnin].
  - rewrite Hbump by apply NoDup_remove_dups.
    rewrite decide_True; [done|]. by apply elem_of_remove_dups.
  - cbn [foldr]. rewrite Hbump by apply NoDup_remove_dups.
    rewrite decide_False by (by rewrite elem_of_remove_dups).
    rewrite occ_cons, decide_True by done.
    apply occ_zero in Hnin. rewrite Hnin. simpl. ring.
Qed.

Lemma Counter_likelihood (distribution : distribution) (d : derivation) :
  map_sum Qcmult 1%Qc
    (λ pr exponent, float_pow (default 0%Qc (distribution !! pr)) exponent) (Counter d)
  = likelihood distribution d.
Proof.
  unfold likelihood, float_pow.
  rewrite (Qc_foldr_mul_occ (λ pr, default 0%Qc (distribution !! pr))).
  pose proof (get_prod_count_counts d) as Hc.
  change (get_prod_count d) with (Counter d) in Hc.
  rewrite (map_sum_keys Qcmult 1%Qc _ (remove_dups (productions_of d))).
  - apply foldr_ext_in. intros k acc Hk. apply (proj1 (elem_of_remove_dups _ _)) in Hk.
    rewrite (Hc k). rewrite decide_False; [done|]. by apply (proj1 (occ_elem_of _ _)).
  - apply NoDup_remove_dups.
  - intros k. rewrite elem_of_remove_dups, (Hc k).
    destruct (decide (occ k (productions_of d) = 0)) as [Hz|Hz].
    + apply occ_zero in Hz. split; [done|]. by intros [? ?].
    + split; [by eexists|]. intros _. by apply (proj2 (occ_elem_of _ _)).
Qed.

(** The inner loop of [objective], on a frequency map whose pairs all have
    a probability. *)
Lemma objective_product (distribution : distribution) (freq_map : gmap production Z) :
  (∀ pr, is_Some (freq_map !! pr) → is_Some (distribution !! pr)) →
  map_fold (λ pr exponent acc,
      let* prod_val := acc in
      match distribution !! pr with
      | None => raise KeyError
      | Some x_val => ret (prod_val * float_pow x_val exponent)%Qc
      end)
    (ret 1%Qc) freq_map
  = ret (map_sum Qcmult 1%Qc
           (λ pr exponent, float_pow (default 0%Qc (distribution !! pr)) exponent)
           freq_map).
Proof.
  apply (map_fold_weak_ind (λ r m,
           (∀ pr, is_Some (m !! pr) → is_Some (distribution !! pr)) →
           r = ret (map_sum Qcmult 1%Qc
                      (λ pr exponent,
                         float_pow (default 0%Qc (distribution !! pr)) exponent) m))).
  - intros _. by rewrite (map_sum_empty Qcmult).
  - intros pr exponent m r Hm IH Hkeys.
    rewrite IH.
    2:{ intros pr' Hpr'. apply Hkeys. rewrite lookup_insert_ne; [done|].
        intros ->. rewrite Hm in Hpr'. by destruct Hpr'. }
    destruct (Hkeys pr) as [x Hx]; [by rewrite lookup_insert_eq|].
    cbn [bind ret]. rewrite Hx, (map_sum_insert Qcmult 1%Qc) by done.
    by rewrite Hx.
Qed.

Lemma objective_returns (pairs_list : list production) (var_array : list Qc)
    (distribution : distribution) (dict_list : list derivation) :
  array_to_dict pairs_list var_array = ret distribution →
  (∀ d k pr, d ∈ dict_list → d !! k = Some pr → pr ∈ pairs_list) →
  objective pairs_list var_array (Counter <$> dict_list)
  = ret (- sum_of_likelihoods distribution dict_list)%Qc.
Proof.
  intros Hd Hkeys. unfold objective, sum_of_likelihoods. rewrite Hd. cbn [bind ret].
  assert (Hloop : ∀ total_sum,
            for_each (Counter <$> dict_list)
              (λ freq_map total_sum,
                 let* prod_val :=
                   map_fold (λ pr exponent acc,
                       let* prod_val := acc in
                       match distribution !! pr with
                       | None => raise KeyError
                       | Some x_val => ret (prod_val * float_pow x_val exponent)%Qc
                       end)
                     (ret 1%Qc) freq_map in
                 ret (total_sum + prod_val)%Qc)
              total_sum
            = ret (foldl (λ acc d, (acc + likelihood distribution d)%Qc)
                     total_sum dict_list)).
  { induction dict_list as [|d dict_list IH]; intros total_sum; [done|].
    rewrite fmap_cons. cbn [for_each foldl].
    rewrite objective_product, Counter_likelihood.
    - cbn [bind ret]. apply IH. intros d' k pr Hd'. apply Hkeys. by right.
    - intros pr Hpr. apply (array_to_dict_dom _ _ _ Hd).
      change (Counter d) with (get_prod_count d) in Hpr.
      rewrite (get_prod_count_counts d pr) in Hpr.
      destruct (decide (occ pr (productions_of d) = 0)) as [|Hne];
        [by destruct Hpr|].
      apply (proj2 (occ_elem_of _ _)) in Hne. unfold productions_of in Hne.
      apply list_elem_of_fmap in Hne as ([k pr'] & -> & Hk).
      apply elem_of_map_to_list in Hk. apply (Hkeys d k); [by left|done]. }
  by rewrite Hloop.
Qed.

(** X16. The objective [solve_s0l] hands to the optimizer returns on every
    array that has an entry for each pair, with no [KeyError] from
    [distribution[(c, r)]]; its value is minus the sum, over the input
    derivations, of the product over the positions of the derivation of the
    probability of the production used there. *)
Theorem objective_sum_of_likelihoods (dict_list : list derivation) (var_array : list Qc) :
  let pairs_list := sorted_productions (distinct_productions dict_list) in
  (length pairs_list ≤ length var_array)%nat →
  ∃ distribution,
    array_to_dict pairs_list var_array = ret distribution
    ∧ objective pairs_list var_array (frequency_maps dict_list).1
      = ret (- sum_of_likelihoods distribution dict_list)%Qc.
Proof.
  intros pairs_list Hlen.
  destruct (array_to_dict_returns pairs_list var_array Hlen) as [distribution Hd].
  exists distribution. split; [done|]. rewrite frequency_maps_counters.
  apply objective_returns; [done|]. intros d k pr Hin Hk.
  apply elem_of_sorted_productions, elem_of_distinct_productions. eauto.
Qed.

Lemma objective_sum_of_likelihoods_witness :
  let pairs_list := sorted_productions (distinct_productions derivations_AB_ABB) in
  ∃ distribution,
    array_to_dict pairs_list sample_guess = ret distribution
    ∧ objective pairs_list sample_guess (frequency_maps derivations_AB_ABB).1
      = ret (- sum_of_likelihoods distribution derivations_AB_ABB)%Qc.
Proof.
  apply (objective_sum_of_likelihoods derivations_AB_ABB sample_guess).
  vm_compute. done.
Defined.

(** ** The best attempt of [solve_with_restarts] *)

Lemma Qc_ltb_ge (a b : Qc) : Qc_ltb a b = false → (b ≤ a)%Qc.
Proof.
  unfold Qc_ltb. intros Hab. apply negb_false_iff in Hab.
  by apply (proj1 (Qle_bool_iff b a)) in Hab.
Qed.

Lemma lookup_snoc_before {A} (l : list A) (x a : A) (j i : nat) :
  (j < i)%nat → (i ≤ length l)%nat → (l ++ [x]) !! j = Some a → l !! j = Some a.
Proof. intros Hj Hi. by rewrite lookup_app_l by lia. Qed.

(** An attempt that did not converge leaves the record as it is. *)
Lemma recorded_skip {rng : Type}
    (done : list (py (bool * option Qc * option distribution * list production)))
    (st : restart_state rng) attempt (g' : rng) :
  attempt_value attempt = None →
  recorded done st →
  recorded (done ++ [attempt])
    {| best_objective := best_objective st;
       best_distribution := best_distribution st;
       best_pairs := best_pairs st;
       success_count := success_count st;
       rng_state := g' |}.
Proof.
  intros Hnone [Hcount Hrec]. unfold recorded.
  assert (omap attempt_value [attempt] = []) as Hnil by (simpl; by rewrite Hnone).
  rewrite omap_app, Hnil, app_nil_r.
  cbn [best_objective best_distribution best_pairs success_count].
  split; [done|]. destruct (best_objective st) as [|v]; [done|].
  destruct Hrec as (H1 & Hle & i & pl0 & Hi & Hpl & Hfirst).
  split_and!; [done..|]. exists i, pl0. split_and!; [|done|].
  - rewrite lookup_app_l; [done|]. by eapply lookup_lt_Some.
  - intros j a v'' Hj Ha. apply (Hfirst j a v'' Hj).
    apply (lookup_snoc_before done attempt a j i Hj); [|done].
    apply lookup_lt_Some in Hi. lia.
Qed.

(** One more attempt, recorded. *)
Lemma recorded_step {rng : Type}
    (done : list (py (bool * option Qc * option distribution * list production)))
    (st : restart_state rng) attempt (g' : rng) :
  recorded done st →
  recorded (done ++ [ret attempt])
    {| best_objective := best_objective (record_attempt st attempt);
       best_distribution := best_distribution (record_attempt st attempt);
       best_pairs := best_pairs (record_attempt st attempt);
       success_count := success_count (record_attempt st attempt);
       rng_state := g' |}.
Proof.
  destruct attempt as [[[success val] sol] pl]. intros Hst.
  destruct success, val as [v'|]; cbn [record_attempt];
    try (by apply recorded_skip).
  assert (Hone : omap attempt_value
                   [ret (A := bool * option Qc * option distribution * list production)
                      (true, Some v', sol, pl)] = [v']) by done.
  destruct (exceeds v' (best_objective st)) eqn:Hex.
  - destruct Hst as [Hcount Hrec]. unfold recorded.
    rewrite omap_app, Hone. unfold py_len in *. rewrite length_app.
    cbn [length best_objective best_distribution best_pairs success_count].
    split; [lia|]. split; [lia|]. split.
    + intros v'' [Hin| ->%list_elem_of_singleton]%elem_of_app; [|reflexivity].
      destruct (best_objective st) as [|v].
      * destruct Hrec as (Hnil & _). rewrite Hnil in Hin. by apply elem_of_nil in Hin.
      * destruct Hrec as (_ & Hle & _). cbn [exceeds] in Hex.
        apply Qc_ltb_lt in Hex. etrans; [by apply Hle|]. by apply Qclt_le_weak.
    + exists (length done), pl. split_and!; [by rewrite list_lookup_middle|done|].
      intros j a v'' Hj Ha Hv. rewrite lookup_app_l in Ha by lia.
      assert (v'' ∈ omap attempt_value done) as Hin.
      { apply list_elem_of_omap. exists a. split; [|done].
        by eapply list_elem_of_lookup_2. }
      destruct (best_objective st) as [|v].
      * destruct Hrec as (Hnil & _). rewrite Hnil in Hin. by apply elem_of_nil in Hin.
      * destruct Hrec as (_ & Hle & _). cbn [exceeds] in Hex.
        apply Qc_ltb_lt in Hex. eapply Qcle_lt_trans; [by apply Hle|done].
  - destruct (best_objective st) as [|v] eqn:Hbest; [done|]. cbn [exceeds] in Hex.
    apply Qc_ltb_ge in Hex. destruct Hst as [Hcount Hrec]. rewrite Hbest in Hrec.
    destruct Hrec as (H1 & Hle & i & pl0 & Hi & Hpl & Hfirst). unfold recorded.
    rewrite omap_app, Hone. unfold py_len in *. rewrite length_app.
    cbn [length best_objective best_distribution best_pairs success_count].
    split; [lia|]. split; [lia|]. split.
    + intros v'' [Hin| ->%list_elem_of_singleton]%elem_of_app; [by apply Hle|done].
    + exists i, pl0. split_and!; [|done|].
      * rewrite lookup_app_l; [done|]. by eapply lookup_lt_Some.
      * intros j a v'' Hj Ha. apply (Hfirst j a v'' Hj).
        apply (lookup_snoc_before done (ret (true, Some v', sol, pl)) a j i Hj); [|done].
        apply lookup_lt_Some in Hi. lia.
Qed.

Lemma length_foldl_insert_pairs (v : nat → Qc) (l : list (nat * nat)) (arr : list Qc) :
  length (foldl (λ arr '(i, idx), <[idx := v i]> arr) arr l) = length arr.
Proof.
  revert arr. induction l as [|[i idx] l IH]; intros arr; [done|].
  cbn [foldl]. by rewrite IH, length_insert.
Qed.

Lemma random_guess_length {rng : Type} (gen : generator rng)
    (pairs_list : list production) (chars : list ascii) (g : rng) :
  length (random_guess gen pairs_list chars g).1 = length pairs_list.
Proof.
  unfold random_guess.
  cut (∀ st : list Qc * rng,
         length (foldl (random_symbol_guess gen pairs_list) st chars).1 = length st.1).
  { intros Hgen. rewrite Hgen. cbn [fst]. apply length_replicate. }
  induction chars as [|c chars IH]; intros [arr g0]; [done|].
  cbn [foldl]. rewrite IH. unfold random_symbol_guess.
  destruct (random_floats gen _ g0) as [rand_vals g1]. cbn [fst].
  apply (length_foldl_insert_pairs (λ i, arr_get _ i)).
Qed.

Lemma solve_s0l_converged (minimize : minimizer) (dict_list : list derivation)
    (init_guess : option (list Qc)) val sol pairs_list :
  solve_s0l minimize dict_list init_guess = ret (true, val, sol, pairs_list) →
  is_Some val.
Proof.
  rewrite solve_s0l_steps. intros (guess_arr & _ & Hrun)%bind_ret_inv.
  unfold run_optimizer in Hrun. apply bind_ret_inv in Hrun as (res & _ & Hrun).
  destruct (res_success res); [|done].
  apply bind_ret_inv in Hrun as (d & _ & [= <- _ _]). by eexists.
Qed.

Lemma attempts_calls {rng : Type} (minimize : minimizer) (gen : generator rng) (g : rng)
    (dict_list : list derivation) (n_restarts : Z) a :
  a ∈ attempts minimize gen g dict_list n_restarts →
  ∃ init_guess, a = solve_s0l minimize dict_list init_guess.
Proof.
  unfold attempts. intros [->|Hin]%elem_of_cons; [by eexists|].
  revert g Hin. induction (Z.to_nat n_restarts) as [|n IH]; intros g Hin.
  - by apply elem_of_nil in Hin.
  - cbn [random_attempts] in Hin. destruct (random_guess gen _ _ g) as [guess_arr g'].
    apply elem_of_cons in Hin as [->|Hin]; [by eexists|]. by apply (IH g').
Qed.

Lemma converged_values
    (l : list (py (bool * option Qc * option distribution * list production))) :
  Forall (λ a, converged a = true → is_Some (attempt_value a)) l →
  py_len (filter (λ a, converged a = true) l) = py_len (omap attempt_value l).
Proof.
  unfold py_len. induction 1 as [|a l Ha _ IH]; [done|].
  rewrite filter_cons. cbn [omap list_omap].
  destruct (decide (converged a = true)) as [Hc|Hc].
  - destruct (Ha Hc) as [v ->]. cbn [length]. lia.
  - destruct (attempt_value a) as [v|] eqn:Hv; [|done].
    destruct a as [[[[[[] [?|]] ?] ?]|]|]; done.
Qed.

Lemma record_attempt_eta {rng : Type} (st : restart_state rng) attempt :
  {| best_objective := best_objective (record_attempt st attempt);
     best_distribution := best_distribution (record_attempt st attempt);
     best_pairs := best_pairs (record_attempt st attempt);
     success_count := success_count (record_attempt st attempt);
     rng_state := rng_state st |}
  = record_attempt st attempt.
Proof.
  destruct st, attempt as [[[[] [v|]] sol] pl]; cbn [record_attempt]; try done.
  by destruct (exceeds _ _).
Qed.

Section solve_with_restarts_properties.

Variable minimize : minimizer.

Hypothesis minimize_shape :
  ∀ objective x0 bounds constraints,
    ∃ res, minimize objective x0 bounds constraints = ret res
           ∧ length (res_x res) = length x0.

Context {rng : Type} (gen : generator rng).

Lemma solve_s0l_returns (dict_list : list derivation) (init_guess : option (list Qc)) :
  (∀ g, init_guess = Some g →
     length g = length (sorted_productions (distinct_productions dict_list))) →
  ∃ r, solve_s0l minimize dict_list init_guess = ret r.
Proof.
  intros Hlen. rewrite solve_s0l_steps.
  destruct init_guess as [g|]; cbn [initial_guess].
  - unfold py_len. rewrite (Hlen g eq_refl), Z.eqb_refl. cbn [negb bind ret].
    apply (run_optimizer_returns minimize); [exact minimize_shape|].
    by rewrite normalize_guess_length, (Hlen g eq_refl).
  - cbn [bind ret]. apply (run_optimizer_returns minimize); [exact minimize_shape|].
    apply uniform_guess_length.
Qed.

Lemma restarts_recorded (dict_list : list derivation) (xs : list Z) :
  ∀ done (st : restart_state rng),
    recorded done st →
    ∃ st',
      for_each xs
        (λ _, restart minimize gen dict_list
                (sorted_productions (frequency_maps dict_list).2)
                (sorted_chars
                   (list_to_set (sorted_productions (frequency_maps dict_list).2).*1)))
        st = ret st'
      ∧ recorded
          (done ++ random_attempts minimize gen dict_list (length xs) (rng_state st))
          st'.
Proof.
  induction xs as [|x xs IH]; intros done st Hst.
  { exists st. split; [done|]. cbn [length random_attempts]. by rewrite app_nil_r. }
  cbn [for_each length random_attempts]. unfold restart at 1.
  pose proof (random_guess_length gen
                (sorted_productions (frequency_maps dict_list).2)
                (sorted_chars
                   (list_to_set (sorted_productions (frequency_maps dict_list).2).*1))
                (rng_state st)) as Hlen.
  destruct (random_guess gen _ _ (rng_state st)) as [guess_arr g']. cbn [fst] in Hlen.
  destruct (solve_s0l_returns dict_list (Some guess_arr)) as [r Hr].
  { intros g0 [= <-]. by rewrite Hlen, frequency_maps_pairs. }
  rewrite Hr. cbn [bind ret].
  destruct (IH (done ++ [ret r])
              {| best_objective := best_objective (record_attempt st r);
                 best_distribution := best_distribution (record_attempt st r);
                 best_pairs := best_pairs (record_attempt st r);
                 success_count := success_count (record_attempt st r);
                 rng_state := g' |}) as (st' & Hloop & Hst').
  { by apply recorded_step. }
  exists st'. split; [done|]. cbn [rng_state] in Hst'. by rewrite <- app_assoc in Hst'.
Qed.

(** X17. Given an optimizer that returns a vector of the length of its
    starting point, [solve_with_restarts] returns, whatever the generator
    draws. The objective it returns is the greatest value among the
    attempts that converged, and the distribution and pairs are those of
    the first attempt that reached it; the counter lies between 1 and the
    number of attempts that converged. When no attempt converged it
    returns minus infinity, [None], [None] and 0. *)
Theorem solve_with_restarts_best (g : rng) (dict_list : list derivation) (n_restarts : Z) :
  ∃ best dist pairs count,
    solve_with_restarts minimize gen g dict_list n_restarts
    = ret (best, dist, pairs, count)
    ∧ 0 ≤ count ≤ converged_attempts minimize gen g dict_list n_restarts
    ∧ match best with
      | NegInf =>
        converged_attempts minimize gen g dict_list n_restarts = 0
        ∧ dist = None ∧ pairs = None ∧ count = 0
      | Finite v =>
        1 ≤ count
        ∧ (∀ v', v' ∈ attempt_values minimize gen g dict_list n_restarts → (v' ≤ v)%Qc)
        ∧ ∃ (i : nat) pl,
            attempts minimize gen g dict_list n_restarts !! i
            = Some (ret (true, Some v, dist, pl))
            ∧ pairs = Some pl
            ∧ ∀ (j : nat) a v', (j < i)%nat →
                attempts minimize gen g dict_list n_restarts !! j = Some a →
                attempt_value a = Some v' → (v' < v)%Qc
      end.
Proof.
  assert (Hconv : converged_attempts minimize gen g dict_list n_restarts
                  = py_len (attempt_values minimize gen g dict_list n_restarts)).
  { unfold converged_attempts, attempt_values. apply converged_values.
    apply Forall_forall. intros a [ig ->]%attempts_calls Hc.
    destruct (solve_s0l minimize dict_list ig) as [[[[[[] val] sol] pl]|]|] eqn:Hs;
      try done.
    destruct (solve_s0l_converged _ _ _ _ _ _ Hs) as [v ->]. by eexists. }
  unfold solve_with_restarts.
  destruct (solve_s0l_returns dict_list None) as [r Hr]; [done|].
  rewrite Hr. cbn [bind ret].
  destruct (frequency_maps dict_list) as [fl ap] eqn:Hfm.
  replace ap with (frequency_maps dict_list).2 by by rewrite Hfm.
  set (st0 := {| best_objective := NegInf; best_distribution := None;
                 best_pairs := None; success_count := 0; rng_state := g |}).
  assert (Hst0 : recorded [] st0) by (by split).
  apply (recorded_step [] st0 r g) in Hst0.
  destruct (restarts_recorded dict_list (py_range 0 n_restarts) _ _ Hst0)
    as (st' & Hloop & Hst').
  assert (Heta : {| best_objective := best_objective (record_attempt st0 r);
                    best_distribution := best_distribution (record_attempt st0 r);
                    best_pairs := best_pairs (record_attempt st0 r);
                    success_count := success_count (record_attempt st0 r);
                    rng_state := g |} = record_attempt st0 r)
    by apply (record_attempt_eta st0 r).
  rewrite Heta in Hloop. rewrite Hloop. cbn [bind ret].
  exists (best_objective st'), (best_distribution st'), (best_pairs st'),
    (success_count st').
  split; [done|].
  cbn [rng_state app] in Hst'.
  assert (Hatt : ret r :: random_attempts minimize gen dict_list
                             (length (py_range 0 n_restarts)) g
                 = attempts minimize gen g dict_list n_restarts).
  { unfold attempts, py_range. by rewrite Hr, length_fmap, length_seq, Z.sub_0_r. }
  rewrite Hatt in Hst'. destruct Hst' as [Hcount Hrec].
  rewrite Hconv. split; [done|].
  destruct (best_objective st') as [|v]; [|done].
  destruct Hrec as (Hnil & ? & ? & ?). unfold attempt_values. by rewrite Hnil.
Qed.

End solve_with_restarts_properties.

Lemma solve_with_restarts_best_witness :
  ∃ best dist pairs count,
    solve_with_restarts stay_put constant_generator tt [derivation_A_B] 1
    = ret (best, dist, pairs, count)
    ∧ 0 ≤ count ≤ converged_attempts stay_put constant_generator tt [derivation_A_B] 1
    ∧ match best with
      | NegInf =>
        converged_attempts stay_put constant_generator tt [derivation_A_B] 1 = 0
        ∧ dist = None ∧ pairs = None ∧ count = 0
      | Finite v =>
        1 ≤ count
        ∧ (∀ v', v' ∈ attempt_values stay_put constant_generator tt [derivation_A_B] 1 →
             (v' ≤ v)%Qc)
        ∧ ∃ (i : nat) pl,
            attempts stay_put constant_generator tt [derivation_A_B] 1 !! i
            = Some (ret (true, Some v, dist, pl))
            ∧ pairs = Some pl
            ∧ ∀ (j : nat) a v', (j < i)%nat →
                attempts stay_put constant_generator tt [derivation_A_B] 1 !! j = Some a →
                attempt_value a = Some v' → (v' < v)%Qc
      end.
Proof.
  apply (solve_with_restarts_best stay_put). intros objective x0 bounds constraints.
  by eexists.
Defined.

(** ** The selected derivation is an optimal valid derivation *)

(** X18. On a sequence without empty strings, the derivation
    [overall_dervs_maxprob] returns is a valid derivation of the sequence,
    and no valid derivation has a greater concentration factor. *)
Theorem overall_dervs_maxprob_valid (seq : list pystr) dist best p :
  Forall (λ s, s ≠ []) seq →
  overall_dervs_maxprob seq = ret (dist, best, p) →
  valid_derivation seq best
  ∧ ∀ d, valid_derivation seq d → concentration_factor d ≤ concentration_factor best.
Proof.
  intros Hne Hret.
  destruct (overall_dervs_maxprob_inv _ _ _ _ Hret)
    as (ds & n & cf & cc & Hds & Hbest & Hmax & _).
  split.
  - apply (derivations_valid seq ds); [done..|]. by eapply list_elem_of_lookup_2.
  - intros d Hd. rewrite <- !non_constant_factor_spec. apply Hmax.
    destruct (decide (seq = [])) as [->|Hseq]; [done|].
    rewrite get_derivations_paths in Hds by done. injection Hds as <-.
    by apply valid_derivation_enumerated.
Qed.

Lemma overall_dervs_maxprob_valid_witness :
  valid_derivation sample_seq sample_result.1.2
  ∧ ∀ d, valid_derivation sample_seq d →
      concentration_factor d ≤ concentration_factor sample_result.1.2.
Proof.
  apply (overall_dervs_maxprob_valid sample_seq sample_result.1.1 _ sample_result.2).
  - by repeat constructor.
  - apply sample_result_returned.
Defined.
